(** * mcbootflash: packet codec and flash engine

    A shallow embedding of [mcbootflash/protocol.py] and
    [mcbootflash/connection.py], followed by the properties of the
    bootloader protocol engine that are established about them.

    Conventions.
    - Python integers are [Z]; a byte is a [Z] in [0, 256); a byte string is
      a [list Z].
    - A Python exception is a constructor of [exn]; code that may raise and
      that touches the serial port runs in the state-and-exception monad [M],
      where the state survives a raise, as in Python.
    - [IntelHex] and [serial.Serial] are third-party collaborators; the part
      of their behaviour the engine relies on is modelled in [IntelHex] and
      in the [World] record. *)

From Stdlib Require Import ZArith List Bool String Ascii Lia QArith Sorted.
Import ListNotations.
Open Scope Z_scope.

(* ================================================================= *)
(** * Part I: definitions *)
(* ================================================================= *)

(** ** Python [struct], restricted to what the packet formats use *)

Module Struct.

  (** Format characters: [B] unsigned char, [H] unsigned short, [I] unsigned
      int, [x] pad byte. *)
Inductive code := B | H | I | x.

  (** Standard sizes (the formats all start with ["="]: native byte order,
      standard sizes, no alignment; the byte order modelled is the
      little-endian one of the device protocol and of the usual hosts). *)
Definition size (c : code) : nat :=
    match c with B => 1 | H => 2 | I => 4 | x => 1 end%nat.

  (** Exclusive upper bound of the values a code accepts. *)
Definition limit (c : code) : Z :=
    match c with B => 256 | H => 65536 | I => 4294967296 | x => 1 end.

Definition in_range (c : code) (v : Z) : bool :=
    (0 <=? v) && (v <? limit c).

Definition digit (a : ascii) : option nat :=
    let n := nat_of_ascii a in
    if ((48 <=? n) && (n <=? 57))%nat then Some (n - 48)%nat else None.

Definition code_of (a : ascii) : option code :=
    if Ascii.eqb a "B" then Some B
    else if Ascii.eqb a "H" then Some H
    else if Ascii.eqb a "I" then Some I
    else if Ascii.eqb a "x" then Some x
    else None.

Definition count_or (d : nat) (count : option nat) : nat :=
    match count with Some n => n | None => d end.

  (** The format string after its byte-order character: an optional repeat
      count before each format character.  [None] is [struct.error]. *)
Fixpoint parse_items (s : string) (count : option nat) : option (list code) :=
    match s with
    | EmptyString => match count with None => Some [] | Some _ => None end
    | String a s' =>
        match digit a with
        | Some d => parse_items s' (Some (10 * count_or 0 count + d)%nat)
        | None =>
            match code_of a, parse_items s' None with
            | Some c, Some cs => Some (repeat c (count_or 1 count) ++ cs)
            | _, _ => None
            end
        end
    end.

Definition parse (fmt : string) : option (list code) :=
    match fmt with
    | String "=" s => parse_items s None
    | _ => None
    end.

Definition items_size (cs : list code) : nat := list_sum (map size cs).

  (** [struct.calcsize] *)
Definition calcsize (fmt : string) : option nat :=
    option_map items_size (parse fmt).

  (** Little-endian bytes of [v], [n] of them. *)
Fixpoint le_bytes (n : nat) (v : Z) : list Z :=
    match n with
    | O => []
    | S n' => v mod 256 :: le_bytes n' (v / 256)
    end.

  (** [int.from_bytes(bs, byteorder="little")] *)
Fixpoint from_le (bs : list Z) : Z :=
    match bs with
    | [] => 0
    | b :: bs' => b + 256 * from_le bs'
    end.

Fixpoint pack_items (cs : list code) (vs : list Z) : option (list Z) :=
    match cs with
    | [] => match vs with [] => Some [] | _ :: _ => None end
    | x :: cs' => option_map (cons 0) (pack_items cs' vs)
    | c :: cs' =>
        match vs with
        | [] => None
        | v :: vs' =>
            if in_range c v
            then option_map (app (le_bytes (size c) v)) (pack_items cs' vs')
            else None
        end
    end.

Fixpoint unpack_items (cs : list code) (data : list Z) : list Z :=
    match cs with
    | [] => []
    | x :: cs' => unpack_items cs' (skipn 1 data)
    | c :: cs' =>
        from_le (firstn (size c) data) :: unpack_items cs' (skipn (size c) data)
    end.

  (** [struct.pack]; [None] is [struct.error] (a value out of range, or the
      wrong number of values). *)
Definition pack (fmt : string) (vs : list Z) : option (list Z) :=
    match parse fmt with
    | Some cs => pack_items cs vs
    | None => None
    end.

  (** [struct.unpack]; [None] is [struct.error] (the buffer does not have
      exactly [calcsize fmt] bytes). *)
Definition unpack (fmt : string) (data : list Z) : option (list Z) :=
    match parse fmt with
    | Some cs =>
        if Nat.eqb (List.length data) (items_size cs)
        then Some (unpack_items cs data)
        else None
    | None => None
    end.

End Struct.

(** ** protocol.py *)

Inductive BootCommand :=
| READ_VERSION | READ_FLASH | WRITE_FLASH | ERASE_FLASH
| CALC_CHECKSUM | RESET_DEVICE | SELF_VERIFY | GET_MEMORY_ADDRESS_RANGE.

Definition BootCommand_value (c : BootCommand) : Z :=
  match c with
  | READ_VERSION => 0x00
  | READ_FLASH => 0x01
  | WRITE_FLASH => 0x02
  | ERASE_FLASH => 0x03
  | CALC_CHECKSUM => 0x08
  | RESET_DEVICE => 0x09
  | SELF_VERIFY => 0x0A
  | GET_MEMORY_ADDRESS_RANGE => 0x0B
  end.

(** [BootCommand(v)]: the member with value [v]; [None] is [ValueError]. *)
Definition BootCommand_of_value (v : Z) : option BootCommand :=
  if v =? 0x00 then Some READ_VERSION
  else if v =? 0x01 then Some READ_FLASH
  else if v =? 0x02 then Some WRITE_FLASH
  else if v =? 0x03 then Some ERASE_FLASH
  else if v =? 0x08 then Some CALC_CHECKSUM
  else if v =? 0x09 then Some RESET_DEVICE
  else if v =? 0x0A then Some SELF_VERIFY
  else if v =? 0x0B then Some GET_MEMORY_ADDRESS_RANGE
  else None.

Inductive BootResponse :=
| UNDEFINED | SUCCESS | UNSUPPORTED_COMMAND | BAD_ADDRESS | BAD_LENGTH
| VERIFY_FAIL.

Definition BootResponse_value (c : BootResponse) : Z :=
  match c with
  | UNDEFINED => 0x00
  | SUCCESS => 0x01
  | UNSUPPORTED_COMMAND => 0xFF
  | BAD_ADDRESS => 0xFE
  | BAD_LENGTH => 0xFD
  | VERIFY_FAIL => 0xFC
  end.

(** The dataclasses.  A subclass is the record of its base plus its own
    fields.  The enum-typed fields hold plain integers: [from_bytes] passes
    the unpacked integers to the constructor unconverted, and an [IntEnum]
    member compares equal to its value. *)

Record Packet := mkPacket {
  command : Z;
  data_length : Z;
  unlock_sequence : Z;
  address : Z
}.

Definition CommandPacket := Packet.

Record VersionResponsePacket := mkVersion {
  version_base : Packet;
  version : Z;
  max_packet_length : Z;
  device_id : Z;
  erase_size : Z;
  write_size : Z
}.

Record ResponsePacket := mkResponse {
  response_base : Packet;
  success : Z
}.

Record MemoryRangePacket := mkMemoryRange {
  memory_range_base : ResponsePacket;
  program_start : Z;
  program_end : Z
}.

Record ChecksumPacket := mkChecksum {
  checksum_base : ResponsePacket;
  checksum : Z
}.

(** The class attribute [format] of each class. *)
Definition Packet_format : string := "=BH2I".
Definition VersionResponsePacket_format : string :=
  (Packet_format ++ "2H2xH2x2H12x")%string.
Definition ResponsePacket_format : string := (Packet_format ++ "B")%string.
Definition MemoryRangePacket_format : string :=
  (ResponsePacket_format ++ "2I")%string.
Definition ChecksumPacket_format : string :=
  (ResponsePacket_format ++ "H")%string.

(** [list(asdict(self).values())]: the fields in declaration order, base
    class first. *)
Definition Packet_values (p : Packet) : list Z :=
  [command p; data_length p; unlock_sequence p; address p].
Definition VersionResponsePacket_values (p : VersionResponsePacket) : list Z :=
  Packet_values (version_base p) ++
  [version p; max_packet_length p; device_id p; erase_size p; write_size p].
Definition ResponsePacket_values (p : ResponsePacket) : list Z :=
  Packet_values (response_base p) ++ [success p].
Definition MemoryRangePacket_values (p : MemoryRangePacket) : list Z :=
  ResponsePacket_values (memory_range_base p) ++ [program_start p; program_end p].
Definition ChecksumPacket_values (p : ChecksumPacket) : list Z :=
  ResponsePacket_values (checksum_base p) ++ [checksum p].

(** [__bytes__] *)
Definition Packet_bytes (p : Packet) : option (list Z) :=
  Struct.pack Packet_format (Packet_values p).
Definition VersionResponsePacket_bytes (p : VersionResponsePacket) :=
  Struct.pack VersionResponsePacket_format (VersionResponsePacket_values p).
Definition ResponsePacket_bytes (p : ResponsePacket) :=
  Struct.pack ResponsePacket_format (ResponsePacket_values p).
Definition MemoryRangePacket_bytes (p : MemoryRangePacket) :=
  Struct.pack MemoryRangePacket_format (MemoryRangePacket_values p).
Definition ChecksumPacket_bytes (p : ChecksumPacket) :=
  Struct.pack ChecksumPacket_format (ChecksumPacket_values p).

(** [from_bytes]: [cls( *struct.unpack(cls.format, data))] *)
Definition Packet_from_bytes (data : list Z) : option Packet :=
  match Struct.unpack Packet_format data with
  | Some [c; l; u; a] => Some (mkPacket c l u a)
  | _ => None
  end.
Definition VersionResponsePacket_from_bytes (data : list Z)
  : option VersionResponsePacket :=
  match Struct.unpack VersionResponsePacket_format data with
  | Some [c; l; u; a; v; m; d; e; w] =>
      Some (mkVersion (mkPacket c l u a) v m d e w)
  | _ => None
  end.
Definition ResponsePacket_from_bytes (data : list Z) : option ResponsePacket :=
  match Struct.unpack ResponsePacket_format data with
  | Some [c; l; u; a; s] => Some (mkResponse (mkPacket c l u a) s)
  | _ => None
  end.
Definition MemoryRangePacket_from_bytes (data : list Z)
  : option MemoryRangePacket :=
  match Struct.unpack MemoryRangePacket_format data with
  | Some [c; l; u; a; s; ps; pe] =>
      Some (mkMemoryRange (mkResponse (mkPacket c l u a) s) ps pe)
  | _ => None
  end.
Definition ChecksumPacket_from_bytes (data : list Z) : option ChecksumPacket :=
  match Struct.unpack ChecksumPacket_format data with
  | Some [c; l; u; a; s; k] =>
      Some (mkChecksum (mkResponse (mkPacket c l u a) s) k)
  | _ => None
  end.

(** [get_size] *)
Definition Packet_get_size : option nat := Struct.calcsize Packet_format.
Definition VersionResponsePacket_get_size :=
  Struct.calcsize VersionResponsePacket_format.
Definition ResponsePacket_get_size := Struct.calcsize ResponsePacket_format.
Definition MemoryRangePacket_get_size :=
  Struct.calcsize MemoryRangePacket_format.
Definition ChecksumPacket_get_size := Struct.calcsize ChecksumPacket_format.

(** Any packet, with the codec of its class. *)
Inductive AnyPacket :=
| ACommand (p : CommandPacket)
| AVersion (p : VersionResponsePacket)
| AResponse (p : ResponsePacket)
| AMemoryRange (p : MemoryRangePacket)
| AChecksum (p : ChecksumPacket).

Definition encode (p : AnyPacket) : option (list Z) :=
  match p with
  | ACommand p => Packet_bytes p
  | AVersion p => VersionResponsePacket_bytes p
  | AResponse p => ResponsePacket_bytes p
  | AMemoryRange p => MemoryRangePacket_bytes p
  | AChecksum p => ChecksumPacket_bytes p
  end.

(** Decoding with the class of [like]. *)
Definition decode_as (like : AnyPacket) (data : list Z) : option AnyPacket :=
  match like with
  | ACommand _ => option_map ACommand (Packet_from_bytes data)
  | AVersion _ => option_map AVersion (VersionResponsePacket_from_bytes data)
  | AResponse _ => option_map AResponse (ResponsePacket_from_bytes data)
  | AMemoryRange _ => option_map AMemoryRange (MemoryRangePacket_from_bytes data)
  | AChecksum _ => option_map AChecksum (ChecksumPacket_from_bytes data)
  end.

(** Field values within the widths their format characters declare. *)
Definition u8 (v : Z) : Prop := 0 <= v < 256.
Definition u16 (v : Z) : Prop := 0 <= v < 65536.
Definition u32 (v : Z) : Prop := 0 <= v < 4294967296.

Definition Packet_in_width (p : Packet) : Prop :=
  u8 (command p) /\ u16 (data_length p) /\ u32 (unlock_sequence p) /\
  u32 (address p).
Definition ResponsePacket_in_width (p : ResponsePacket) : Prop :=
  Packet_in_width (response_base p) /\ u8 (success p).
Definition in_width (p : AnyPacket) : Prop :=
  match p with
  | ACommand p => Packet_in_width p
  | AVersion p =>
      Packet_in_width (version_base p) /\ u16 (version p) /\
      u16 (max_packet_length p) /\ u16 (device_id p) /\ u16 (erase_size p) /\
      u16 (write_size p)
  | AResponse p => ResponsePacket_in_width p
  | AMemoryRange p =>
      ResponsePacket_in_width (memory_range_base p) /\ u32 (program_start p) /\
      u32 (program_end p)
  | AChecksum p =>
      ResponsePacket_in_width (checksum_base p) /\ u16 (checksum p)
  end.

(** [a] and [b] are instances of the same class. *)
Definition same_class (a b : AnyPacket) : Prop :=
  match a, b with
  | ACommand _, ACommand _ => True
  | AVersion _, AVersion _ => True
  | AResponse _, AResponse _ => True
  | AMemoryRange _, AMemoryRange _ => True
  | AChecksum _, AChecksum _ => True
  | _, _ => False
  end.

(** ** Names under which connection.py imports the protocol *)

(** Modelled from the spec: connection.py imports [Command], [Version],
    [Response], [MemoryRange], [Checksum], [ResponseBase], [CommandCode] and
    [ResponseCode] from [mcbootflash.protocol]; the protocol module at hand
    declares the same classes, with the layouts of the spec's data model,
    as [CommandPacket], [VersionResponsePacket], [ResponsePacket],
    [MemoryRangePacket], [ChecksumPacket], [Packet], [BootCommand] and
    [BootResponse]. *)
Definition CommandCode := BootCommand.
Definition ResponseCode := BootResponse.
Definition Version := VersionResponsePacket.
Definition Response := ResponsePacket.
Definition MemoryRange := MemoryRangePacket.
Definition Checksum := ChecksumPacket.

(** [Command(command=c, data_length=l, unlock_sequence=u, address=a)], with
    [c] a member of [CommandCode]. *)
Definition Command (c : CommandCode) (l u a : Z) : CommandPacket :=
  mkPacket (BootCommand_value c) l u a.

(** [ResponseBase]: an instance of one of the response classes.
    [isinstance(r, Version)] holds of [IsVersion] only, and
    [isinstance(r, Response)] of the three others ([Checksum] and
    [MemoryRange] derive from [Response]). *)
Inductive ResponseBase :=
| IsVersion (v : Version)
| IsResponse (r : Response)
| IsChecksum (c : Checksum)
| IsMemoryRange (m : MemoryRange).

Definition ResponseBase_command (r : ResponseBase) : Z :=
  match r with
  | IsVersion v => command (version_base v)
  | IsResponse r => command (response_base r)
  | IsChecksum c => command (response_base (checksum_base c))
  | IsMemoryRange m => command (response_base (memory_range_base m))
  end.

(** [r.success] where the class has the field. *)
Definition ResponseBase_success (r : ResponseBase) : option Z :=
  match r with
  | IsVersion _ => None
  | IsResponse r => Some (success r)
  | IsChecksum c => Some (success (checksum_base c))
  | IsMemoryRange m => Some (success (memory_range_base m))
  end.

(** ** Exceptions *)

Inductive value_error :=
| NotEnoughValues (got : nat)   (* not enough values to unpack (expected at least 2, got n) *)
| NotAValidCommandCode (v : Z)  (* v is not a valid CommandCode *)
| RangeStepZero.                (* range() arg 3 must not be zero *)

(** Modelled from the spec: [mcbootflash.error], which declares
    [BootloaderError] and its subclasses [UnsupportedCommand], [BadAddress],
    [BadLength] and [VerifyFail] (the four device-reported kinds of the error
    taxonomy).  The other constructors are the built-in and third-party
    exceptions that the engine's code can raise. *)
Inductive exn :=
| BootloaderError (msg : string)
| UnsupportedCommand
| BadAddress
| BadLength
| VerifyFail
| StructError                   (* struct.error *)
| KeyError (key : Z)
| ValueError (why : value_error)
| IndexError
| TypeError
| ZeroDivisionError
| AssertionError
| SerialException.              (* serial.SerialException *)

(** The failure of [start, *_, end = r] on fewer than two values. *)
Definition is_unpacking_error (e : exn) : bool :=
  match e with
  | ValueError (NotEnoughValues _) => true
  | _ => false
  end.

Inductive result (A : Type) :=
| Return (a : A)
| Raise (e : exn).
Arguments Return {A} a.
Arguments Raise {A} e.

(** ** The serial port and what an observer sees *)

(** What one [interface.read] call meets: the bytes that arrive before the
    read timeout elapses, or a failure of the port. *)
Inductive RxEvent :=
| Rx (data : list Z)
| RxFault.

(** Observable actions, in the order in which they happen. *)
Inductive Event :=
| Tx (data : list Z)                 (* interface.write(data) *)
| Callback (written total : Z).      (* progress_callback(written, total) *)

Record World := mkWorld {
  timeout : option Q;          (* interface.timeout, by its value *)
  rx : list RxEvent;           (* what the coming reads will meet *)
  trace : list Event;
  logger_disabled : bool       (* _logger.disabled *)
}.

Definition M (A : Type) : Type := World -> result A * World.

Definition ret {A} (a : A) : M A := fun w => (Return a, w).
Definition raise {A} (e : exn) : M A := fun w => (Raise e, w).
Definition bind {A B} (m : M A) (k : A -> M B) : M B :=
  fun w =>
    match m w with
    | (Return a, w') => k a w'
    | (Raise e, w') => (Raise e, w')
    end.

Declare Scope py_scope.
Delimit Scope py_scope with py.
Notation "x <- m ;; k" := (bind m (fun x => k))
  (at level 61, m at next level, right associativity) : py_scope.
Notation "m ;; k" := (bind m (fun _ => k))
  (at level 61, right associativity) : py_scope.
Open Scope py_scope.

(** [try: body except <those e with handler e = Some h>: h] *)
Definition try_except {A} (body : M A) (handler : exn -> option (M A)) : M A :=
  fun w =>
    match body w with
    | (Return a, w') => (Return a, w')
    | (Raise e, w') =>
        match handler e with
        | Some h => h w'
        | None => (Raise e, w')
        end
    end.

(** [try: body finally: cleanup], for a [cleanup] that cannot raise. *)
Definition try_finally {A} (body : M A) (cleanup : World -> World) : M A :=
  fun w => let (r, w') := body w in (r, cleanup w').

Definition lift {A} (r : result A) : M A := fun w => (r, w).

Definition or_raise {A} (e : exn) (o : option A) : M A :=
  match o with
  | Some a => ret a
  | None => raise e
  end.

Definition get_timeout : M (option Q) := fun w => (Return (timeout w), w).
Definition set_timeout (t : option Q) : M unit :=
  fun w => (Return tt, mkWorld t (rx w) (trace w) (logger_disabled w)).
Definition set_logger_disabled (b : bool) (w : World) : World :=
  mkWorld (timeout w) (rx w) (trace w) b.
Definition emit (e : Event) : M unit :=
  fun w => (Return tt, mkWorld (timeout w) (rx w) (trace w ++ [e]) (logger_disabled w)).

(** [interface.write(data)] *)
Definition interface_write (data : list Z) : M unit := emit (Tx data).

(** [interface.read(n)]: at most [n] bytes; fewer when the timeout elapses
    first. *)
Definition interface_read (n : nat) : M (list Z) :=
  fun w =>
    match rx w with
    | [] => (Return [], w)
    | Rx data :: rest =>
        (Return (firstn n data),
         mkWorld (timeout w) rest (trace w) (logger_disabled w))
    | RxFault :: rest =>
        (Raise SerialException,
         mkWorld (timeout w) rest (trace w) (logger_disabled w))
    end.

(** ** Python [range] *)

Record range := mkRange {
  range_start : Z;
  range_stop : Z;
  range_step : Z      (* never 0: the constructor refuses it *)
}.

Definition range_len (r : range) : Z :=
  let (lo, hi, step) := r in
  if 0 <? step then
    if lo <? hi then (hi - lo - 1) / step + 1 else 0
  else
    if hi <? lo then (lo - hi - 1) / (- step) + 1 else 0.

Definition range_elements (r : range) : list Z :=
  map (fun k => range_start r + Z.of_nat k * range_step r)
      (seq 0 (Z.to_nat (range_len r))).

(** [range(start, stop)] *)
Definition range2 (start stop : Z) : range := mkRange start stop 1.

(** [range(start, stop, step)]; a zero step is a [ValueError]. *)
Definition range3 (start stop step : Z) : result range :=
  if step =? 0 then Raise (ValueError RangeStepZero)
  else Return (mkRange start stop step).

(** [bool(r)] *)
Definition range_truthy (r : range) : bool := negb (range_len r =? 0).

(** [r[0]] and [r[-1]] *)
Definition range_first (r : range) : result Z :=
  match range_elements r with
  | [] => Raise IndexError
  | a :: _ => Return a
  end.
Definition range_last (r : range) : result Z :=
  match range_elements r with
  | [] => Raise IndexError
  | a :: l => Return (last l a)
  end.

(** [start, *_, end = r] *)
Definition unpack_start_end (r : range) : result (Z * Z) :=
  match range_elements r with
  | a :: b :: l => Return (a, last l b)
  | l => Raise (ValueError (NotEnoughValues (List.length l)))
  end.

(** ** IntelHex, as far as the engine uses it *)

(** The dictionary of an [IntelHex] object, listed by increasing address,
    and its pad byte. *)
Record IntelHex := mkIntelHex {
  _buf : list (Z * Z);
  padding : Z
}.

Definition addresses (h : IntelHex) : list Z := map fst (_buf h).

(** [len(h)] *)
Definition ih_len (h : IntelHex) : Z := Z.of_nat (List.length (_buf h)).

(** [h.minaddr()], [h.maxaddr()]; [None] for an object without data. *)
Definition minaddr (h : IntelHex) : option Z :=
  match addresses h with
  | [] => None
  | a :: l => Some (fold_left Z.min l a)
  end.
Definition maxaddr (h : IntelHex) : option Z :=
  match addresses h with
  | [] => None
  | a :: l => Some (fold_left Z.max l a)
  end.

(** [h._buf.get(i)] *)
Fixpoint buf_get (buf : list (Z * Z)) (i : Z) : option Z :=
  match buf with
  | [] => None
  | (a, b) :: buf' => if a =? i then Some b else buf_get buf' i
  end.

(** The addresses from [lo] up to, not including, [hi]. *)
Definition window (lo hi : Z) (kv : Z * Z) : bool :=
  (lo <=? fst kv) && (fst kv <? hi).

(** [h[start:stop]]: a fresh object (default pad byte 0xFF) with the data at
    the addresses of [range(start, stop)].  A bound of 0 is falsy in
    [addr.start or addresses[0]] and [addr.stop or (addresses[-1]+1)], and is
    replaced by the first address, respectively by the last address plus
    one. *)
Definition slice (h : IntelHex) (start stop : Z) : IntelHex :=
  match minaddr h, maxaddr h with
  | Some lo, Some hi =>
      let start' := if start =? 0 then lo else start in
      let stop' := if stop =? 0 then hi + 1 else stop in
      mkIntelHex (filter (window start' stop') (_buf h)) 0xFF
  | _, _ => mkIntelHex [] 0xFF
  end.

(** [h.segments()]: the maximal runs of consecutive addresses, each as
    (first address, last address + 1). *)
Fixpoint runs (first prev : Z) (rest : list Z) : list (Z * Z) :=
  match rest with
  | [] => [(first, prev + 1)]
  | a :: rest' =>
      if 1 <? a - prev
      then (first, prev + 1) :: runs a a rest'
      else runs first a rest'
  end.
Definition segments (h : IntelHex) : list (Z * Z) :=
  match addresses h with
  | [] => []
  | a :: rest => runs a a rest
  end.

(** [h.tobinstr()]: the bytes from the first to the last address, the pad
    byte where there is no data. *)
Definition tobinstr (h : IntelHex) : list Z :=
  match minaddr h, maxaddr h with
  | Some lo, Some hi =>
      map (fun i => match buf_get (_buf h) i with
                    | Some b => b
                    | None => padding h
                    end)
          (range_elements (range2 lo (hi + 1)))
  | _, _ => []
  end.

(** ** connection.py *)

Definition _BOOTLOADER_EXCEPTIONS (code : Z) : option exn :=
  if code =? BootResponse_value UNSUPPORTED_COMMAND then Some UnsupportedCommand
  else if code =? BootResponse_value BAD_ADDRESS then Some BadAddress
  else if code =? BootResponse_value BAD_LENGTH then Some BadLength
  else if code =? BootResponse_value VERIFY_FAIL then Some VerifyFail
  else None.

Inductive response_class := VersionT | ResponseT | ChecksumT | MemoryRangeT.

Definition _RESPONSE_TYPE_MAP (code : Z) : option response_class :=
  match BootCommand_of_value code with
  | Some READ_VERSION => Some VersionT
  | Some READ_FLASH => Some ResponseT
  | Some WRITE_FLASH => Some ResponseT
  | Some ERASE_FLASH => Some ResponseT
  | Some CALC_CHECKSUM => Some ChecksumT
  | Some RESET_DEVICE => Some ResponseT
  | Some SELF_VERIFY => Some ResponseT
  | Some GET_MEMORY_ADDRESS_RANGE => Some MemoryRangeT
  | None => None
  end.

Definition class_get_size (cls : response_class) : option nat :=
  match cls with
  | VersionT => VersionResponsePacket_get_size
  | ResponseT => ResponsePacket_get_size
  | ChecksumT => ChecksumPacket_get_size
  | MemoryRangeT => MemoryRangePacket_get_size
  end.

Definition class_from_bytes (cls : response_class) (data : list Z)
  : option ResponseBase :=
  match cls with
  | VersionT => option_map IsVersion (VersionResponsePacket_from_bytes data)
  | ResponseT => option_map IsResponse (ResponsePacket_from_bytes data)
  | ChecksumT => option_map IsChecksum (ChecksumPacket_from_bytes data)
  | MemoryRangeT => option_map IsMemoryRange (MemoryRangePacket_from_bytes data)
  end.

(** [cls.from_serial(interface)] *)
Definition from_serial (cls : response_class) : M ResponseBase :=
  n <- or_raise StructError (class_get_size cls) ;;
  data <- interface_read n ;;
  or_raise StructError (class_from_bytes cls data).

(** The debug messages are formatted before [_logger.debug] is entered,
    whatever the logging level: [CommandCode(response_packet.command)] is
    evaluated, and raises [ValueError] for a value that is no member. *)
Definition _verify_good_response
    (command_packet : CommandPacket) (response_packet : ResponseBase)
  : result unit :=
  if negb (ResponseBase_command response_packet =? command command_packet) then
    match BootCommand_of_value (ResponseBase_command response_packet) with
    | None =>
        Raise (ValueError
                 (NotAValidCommandCode (ResponseBase_command response_packet)))
    | Some _ => Raise (BootloaderError "Command code mismatch")
    end
  else
    let check (r : Response) :=
      if negb (success r =? BootResponse_value SUCCESS) then
        match _BOOTLOADER_EXCEPTIONS (success r) with
        | Some e => Raise e
        | None => Raise (KeyError (success r))
        end
      else Return tt in
    match response_packet with
    | IsVersion _ => Return tt
    | IsResponse r => check r
    | IsChecksum c => check (checksum_base c)
    | IsMemoryRange m => check (memory_range_base m)
    end.

Definition _send_and_receive (command_packet : CommandPacket) (data : list Z)
  : M ResponseBase :=
  packed <- or_raise StructError (Packet_bytes command_packet) ;;
  interface_write (packed ++ data) ;;
  cls <- or_raise (KeyError (command command_packet))
                  (_RESPONSE_TYPE_MAP (command command_packet)) ;;
  response <- from_serial cls ;;
  lift (_verify_good_response command_packet response) ;;
  ret response.

(** The attributes of a [Bootloader] object, fixed by [__init__]. *)
Record Bootloader := mkBootloader {
  _max_packet_length : Z;
  _erase_size : Z;
  _write_size : Z;
  _memory_range : range
}.

Definition _FLASH_UNLOCK_KEY : Z := 0x00AA0055.

Definition _read_version : M (Z * Z * Z * Z * Z) :=
  read_version_response <- _send_and_receive (Command READ_VERSION 0 0 0) [] ;;
  match read_version_response with
  | IsVersion v =>
      ret (version v, max_packet_length v, device_id v, erase_size v,
           write_size v)
  | _ => raise AssertionError
  end.

Definition _get_memory_address_range : M (Z * Z) :=
  mem_range_response <-
    _send_and_receive (Command GET_MEMORY_ADDRESS_RANGE 0 0 0) [] ;;
  match mem_range_response with
  | IsMemoryRange m => ret (program_start m, program_end m)
  | _ => raise AssertionError
  end.

(** The body of the [try] statement of [__init__]. *)
Definition bring_up : M Bootloader :=
  v <- _read_version ;;
  let '(_, max_packet_length, _, erase_size, write_size) := v in
  mr <- _get_memory_address_range ;;
  ret (mkBootloader max_packet_length erase_size write_size
                    (range2 (fst mr) (snd mr))).

(** [Bootloader.__init__], on the opened port. *)
Definition __init__ : M Bootloader :=
  try_except bring_up
    (fun e => match e with
              | StructError =>
                  Some (raise (BootloaderError "No response from bootloader"))
              | _ => None
              end).

Definition _self_verify : M unit :=
  _send_and_receive (Command SELF_VERIFY 0 0 0) [] ;; ret tt.

Definition _detect_program : M bool :=
  try_finally
    (try_except
       (fun w => (_self_verify ;; ret true) (set_logger_disabled true w))
       (fun e => match e with
                 | VerifyFail => Some (ret false)
                 | _ => None
                 end))
    (set_logger_disabled false).

(** [a // b] *)
Definition floordiv (a b : Z) : result Z :=
  if b =? 0 then Raise ZeroDivisionError else Return (a / b).
(** [a % b] *)
Definition pymod (a b : Z) : result Z :=
  if b =? 0 then Raise ZeroDivisionError else Return (a mod b).

(** [self.interface.timeout *= 10] is taken on the value of the timeout as
    a rational number.  That is what Python computes for an [int], and for
    a [float] that holds a whole number up to 2^53 / 10; for other [float]
    timeouts Python rounds the product, which this model does not follow:
    the properties that name the scaled value speak of whole numbers of
    seconds. *)
Definition _erase_flash (self : Bootloader) (start_address end_address : Z)
  : M unit :=
  normal_timeout <- get_timeout ;;
  match normal_timeout with
  | Some t => set_timeout (Some (t * 10)%Q)
  | None => ret tt
  end ;;
  pages <- lift (floordiv (end_address - start_address) (_erase_size self)) ;;
  _send_and_receive
    (Command ERASE_FLASH pages _FLASH_UNLOCK_KEY start_address) [] ;;
  set_timeout normal_timeout.

Definition erase_flash (self : Bootloader) (erase_range : option range)
    (force verify : bool) : M unit :=
  let chosen :=
    match erase_range with
    | Some r => if range_truthy r then r else _memory_range self
    | None => _memory_range self
    end in
  se <- lift (unpack_start_end chosen) ;;
  let '(start, end_) := se in
  go <- (if force then ret true else _detect_program) ;;
  if go : bool then
    _erase_flash self start end_ ;;
    if verify then
      still <- _detect_program ;;
      if still : bool
      then raise (BootloaderError "Existing application could not be erased")
      else ret tt
    else ret tt
  else ret tt.

Definition _write_flash (data : IntelHex) (align : Z) : M unit :=
  m <- lift (pymod (ih_len data) align) ;;
  n <- lift (pymod (align - m) align) ;;
  let pad := repeat (padding data) (Z.to_nat n) in
  lo <- or_raise TypeError (minaddr data) ;;
  _send_and_receive
    (Command WRITE_FLASH (ih_len data + Z.of_nat (List.length pad))
             _FLASH_UNLOCK_KEY (Z.shiftr lo 1))
    (tobinstr data ++ pad) ;;
  ret tt.

Definition _get_remote_checksum (addr length : Z) : M Z :=
  checksum_response <-
    _send_and_receive (Command CALC_CHECKSUM length 0 addr) [] ;;
  match checksum_response with
  | IsChecksum c => ret (checksum c)
  | _ => raise AssertionError
  end.

Definition _get_local_checksum (data : IntelHex) : result Z :=
  match minaddr data with
  | None => Raise TypeError
  | Some start =>
      let stop := start + ih_len data in
      let step := 4 in
      let sum :=
        fold_left
          (fun acc i =>
             let databytes := tobinstr (slice data i (i + step)) in
             acc + Z.land (Struct.from_le databytes) 0xFFFF
                 + Z.land (Z.shiftr (Struct.from_le databytes) 16) 0xFF)
          (range_elements (mkRange start stop step)) 0 in
      Return (Z.land sum 0xFFFF)
  end.

Definition _checksum (hexdata : IntelHex) : M unit :=
  checksum1 <- lift (_get_local_checksum hexdata) ;;
  lo <- or_raise TypeError (minaddr hexdata) ;;
  checksum2 <- _get_remote_checksum (Z.shiftr lo 1) (ih_len hexdata) ;;
  if negb (checksum1 =? checksum2)
  then raise (BootloaderError "Checksum mismatch while writing")
  else ret tt.

(** The chunks are produced lazily by a generator, but slicing has no
    effect, so the list of them stands for the generator; the [range] is
    built when [_chunk] is called. *)
Definition _chunk (hexdata : IntelHex) (size : Z) : result (list IntelHex) :=
  match minaddr hexdata, maxaddr hexdata with
  | Some start, Some stop =>
      match range3 start stop size with
      | Return r => Return (map (fun i => slice hexdata i (i + size))
                                (range_elements r))
      | Raise e => Raise e
      end
  | _, _ => Raise TypeError
  end.

(** The body of the inner [for] loop of [flash], which returns the new
    [written_bytes]. *)
Definition flash_chunk (self : Bootloader) (progress_callback : bool)
    (total_bytes : Z) (written_bytes : Z) (chunk : IntelHex) : M Z :=
  _write_flash chunk (_write_size self) ;;
  let written_bytes := written_bytes + ih_len chunk in
  _checksum chunk ;;
  (if progress_callback
   then emit (Callback written_bytes total_bytes)
   else ret tt) ;;
  ret written_bytes.

Fixpoint flash_chunks (self : Bootloader) (progress_callback : bool)
    (total_bytes : Z) (written_bytes : Z) (chunks : list IntelHex) : M Z :=
  match chunks with
  | [] => ret written_bytes
  | chunk :: chunks' =>
      written_bytes <-
        flash_chunk self progress_callback total_bytes written_bytes chunk ;;
      flash_chunks self progress_callback total_bytes written_bytes chunks'
  end.

(** The outer [for] loop of [flash]. *)
Fixpoint flash_segments (self : Bootloader) (progress_callback : bool)
    (chunk_size total_bytes : Z) (written_bytes : Z)
    (segs : list IntelHex) : M Z :=
  match segs with
  | [] => ret written_bytes
  | segment :: segs' =>
      chunks <- lift (_chunk segment chunk_size) ;;
      written_bytes <-
        flash_chunks self progress_callback total_bytes written_bytes chunks ;;
      flash_segments self progress_callback chunk_size total_bytes
                     written_bytes segs'
  end.

Definition Command_get_size : Z :=
  match Packet_get_size with
  | Some n => Z.of_nat n
  | None => 0
  end.

(** The segments of the image that [flash] writes. *)
Definition flash_scope (self : Bootloader) (image : IntelHex)
  : result (list IntelHex) :=
  match range_first (_memory_range self), range_last (_memory_range self) with
  | Return first, Return last =>
      let hexdata := slice image (2 * first) (2 * last) in
      Return (map (fun ul => slice hexdata (fst ul) (snd ul)) (segments hexdata))
  | Raise e, _ => Raise e
  | _, Raise e => Raise e
  end.

(** [flash], on the parsed HEX file [image]; [progress_callback] tells
    whether a callback was given. *)
Definition flash (self : Bootloader) (image : IntelHex)
    (progress_callback : bool) : M unit :=
  segs <- lift (flash_scope self image) ;;
  match segs with
  | [] =>
      raise (BootloaderError
               "HEX file contains no data that fits entirely within program memory")
  | _ :: _ =>
      erase_flash self (Some (_memory_range self)) false true ;;
      let chunk_size := _max_packet_length self - Command_get_size in
      m <- lift (pymod chunk_size (_write_size self)) ;;
      let chunk_size := chunk_size - m in
      let total_bytes := fold_right Z.add 0 (map ih_len segs) in
      flash_segments self progress_callback chunk_size total_bytes 0 segs ;;
      _self_verify
  end.

Definition reset : M unit :=
  _send_and_receive (Command RESET_DEVICE 0 0 0) [] ;; ret tt.

(** ** Contiguous segments *)

(** The dictionary holding the bytes [bs] at the addresses [s], [s+1], ... *)
Fixpoint buf_at (s : Z) (bs : list Z) : list (Z * Z) :=
  match bs with
  | [] => []
  | b :: bs' => (s, b) :: buf_at (s + 1) bs'
  end.

(** A segment: the bytes [bs] at consecutive addresses from [s] on, as
    slicing produces it. *)
Definition segment_at (s : Z) (bs : list Z) : IntelHex :=
  mkIntelHex (buf_at s bs) 0xFF.

(** ** The checksum in the specification's words *)

(** What one little-endian group adds to the running sum: its lower 16 bits
    plus its bits 16 to 23. *)
Definition group_term (g : list Z) : Z :=
  Z.land (Struct.from_le g) 0xFFFF + Z.land (Z.shiftr (Struct.from_le g) 16) 0xFF.

(** The running sum over the groups of four bytes; a shorter last group
    takes part with the bytes it has. *)
Fixpoint spec_running_sum (bs : list Z) : Z :=
  match bs with
  | [] => 0
  | b0 :: b1 :: b2 :: b3 :: rest => group_term [b0; b1; b2; b3] + spec_running_sum rest
  | g => group_term g
  end.

Definition spec_local_checksum (bs : list Z) : Z :=
  spec_running_sum bs mod 65536.

(** ** Expected transmissions *)

(** What [_send_and_receive] writes for a command and its payload: nothing
    when the command cannot be packed. *)
Definition tx_event (c : CommandPacket) (data : list Z) : list Event :=
  match Packet_bytes c with
  | Some packed => [Tx (packed ++ data)]
  | None => []
  end.

(** The world after an exchange that wrote [sent] and consumed one answer. *)
Definition after_exchange (w : World) (sent : list Z) (rest : list RxEvent)
  : World :=
  mkWorld (timeout w) rest (trace w ++ [Tx sent]) (logger_disabled w).

(** ** Concrete devices and images *)

Definition reply (p : AnyPacket) : RxEvent :=
  match encode p with
  | Some data => Rx data
  | None => Rx []
  end.

(** A plain response echoing [c] with result code [code]. *)
Definition respond (c : CommandCode) (code : ResponseCode) : RxEvent :=
  reply (AResponse (mkResponse (Command c 0 0 0) (BootResponse_value code))).

(** A checksum response reporting [sum]. *)
Definition respond_checksum (sum : Z) : RxEvent :=
  reply (AChecksum
           (mkChecksum (mkResponse (Command CALC_CHECKSUM 0 0 0)
                                   (BootResponse_value SUCCESS)) sum)).

Definition local_checksum_or_0 (h : IntelHex) : Z :=
  match _get_local_checksum h with
  | Return s => s
  | Raise _ => 0
  end.

(** The device of the specification's scenario: [erase_size = 1024],
    [write_size = 8], [max_packet_length = 256], program range
    [0x1000 .. 0x2000). *)
Definition scenario_device : Bootloader :=
  mkBootloader 256 1024 8 (range2 0x1000 0x2000).

Definition version_reply : RxEvent :=
  reply (AVersion (mkVersion (Command READ_VERSION 0 0 0) 0x0102 256 0x3456 1024 8)).
Definition memory_range_reply : RxEvent :=
  reply (AMemoryRange
           (mkMemoryRange (mkResponse (Command GET_MEMORY_ADDRESS_RANGE 0 0 0)
                                      (BootResponse_value SUCCESS))
                          0x1000 0x2000)).

(** A port with a read timeout of one second and the given future. *)
Definition port (future : list RxEvent) : World :=
  mkWorld (Some 1%Q) future [] false.

Definition trace_of {A} (run : result A * World) : list Event := trace (snd run).

(** Position of the first occurrence of an event in a trace. *)
Definition Event_eqb (a b : Event) : bool :=
  match a, b with
  | Tx d1, Tx d2 => if list_eq_dec Z.eq_dec d1 d2 then true else false
  | Callback w1 t1, Callback w2 t2 => (w1 =? w2) && (t1 =? t2)
  | _, _ => false
  end.

Fixpoint position (e : Event) (tr : list Event) : option nat :=
  match tr with
  | [] => None
  | e' :: tr' =>
      if Event_eqb e e' then Some O else option_map S (position e tr')
  end.

(** [a] happens, and [b] happens later. *)
Definition happens_before (a b : Event) (tr : list Event) : bool :=
  match position a tr, position b tr with
  | Some i, Some j => (i <? j)%nat
  | _, _ => false
  end.

(** ** Properties of computations *)

(** Every exception that [m] can raise satisfies [P]. *)
Definition raises_only {A} (P : exn -> Prop) (m : M A) : Prop :=
  forall w e, fst (m w) = Raise e -> P e.

Definition not_unpacking (e : exn) : Prop := is_unpacking_error e = false.

(** What [__init__] raises for [struct.error]. *)
Definition no_response : exn := BootloaderError "No response from bootloader".

(** What [flash] raises when nothing of the image is in scope. *)
Definition empty_image : exn :=
  BootloaderError
    "HEX file contains no data that fits entirely within program memory".

(** What [_checksum] raises when the two checksums differ. *)
Definition checksum_mismatch : exn :=
  BootloaderError "Checksum mismatch while writing".

(** Twenty bytes at byte address 0x2000 (word address 0x1000). *)
Definition image20 : IntelHex := segment_at 0x2000 (map Z.of_nat (seq 1 20)).

(** 241 bytes at byte address 0x2000: one more than the chunk size of the
    scenario device. *)
Definition image241 : IntelHex := segment_at 0x2000 (repeat 1 241).

(** Two bytes at byte addresses 0x3FFE and 0x3FFF (word address 0x1FFF, the
    last of the program memory). *)
Definition image_last_word : IntelHex := segment_at 0x3FFE [0xAB; 0xCD].

(** A device without application that accepts one chunk and reports the
    checksum of [chunk]. *)
Definition blank_device_accepting (chunk : IntelHex) : list RxEvent :=
  [respond SELF_VERIFY VERIFY_FAIL;
   respond WRITE_FLASH SUCCESS;
   respond_checksum (local_checksum_or_0 chunk);
   respond SELF_VERIFY SUCCESS].

(** The exchanges of one chunk: what [_write_flash] and [_checksum] send. *)
Definition write_events (align : Z) (chunk : IntelHex) : list Event :=
  let pad :=
    repeat (padding chunk)
           (Z.to_nat ((align - ih_len chunk mod align) mod align)) in
  match minaddr chunk with
  | Some lo =>
      tx_event (Command WRITE_FLASH (ih_len chunk + Z.of_nat (List.length pad))
                        _FLASH_UNLOCK_KEY (Z.shiftr lo 1))
               (tobinstr chunk ++ pad)
  | None => []
  end.
Definition checksum_events (chunk : IntelHex) : list Event :=
  match minaddr chunk with
  | Some lo => tx_event (Command CALC_CHECKSUM (ih_len chunk) 0 (Z.shiftr lo 1)) []
  | None => []
  end.

(** ** The order of events in the write loop *)

Definition prefix_of (a b : list Event) : Prop := exists rest, b = a ++ rest.

(** [sum(len(h) for h in hs)] *)
Definition total_len (hs : list IntelHex) : Z := fold_right Z.add 0 (map ih_len hs).

(** What handling one chunk does when nothing raises: the [WRITE_FLASH]
    exchange, the [CALC_CHECKSUM] exchange, then the progress callback with
    the advanced counter. *)
Definition chunk_events (self : Bootloader) (progress_callback : bool)
    (total_bytes written_bytes : Z) (chunk : IntelHex) : list Event :=
  write_events (_write_size self) chunk ++
  checksum_events chunk ++
  (if progress_callback
   then [Callback (written_bytes + ih_len chunk) total_bytes]
   else []).

Fixpoint chunks_events (self : Bootloader) (progress_callback : bool)
    (total_bytes written_bytes : Z) (chunks : list IntelHex) : list Event :=
  match chunks with
  | [] => []
  | chunk :: chunks' =>
      chunk_events self progress_callback total_bytes written_bytes chunk ++
      chunks_events self progress_callback total_bytes
                    (written_bytes + ih_len chunk) chunks'
  end.

(** The chunks of a segment, none when [_chunk] raises. *)
Definition chunks_of (size : Z) (segment : IntelHex) : list IntelHex :=
  match _chunk segment size with
  | Return chunks => chunks
  | Raise _ => []
  end.

(** The chunk size [flash] computes. *)
Definition chunk_size_of (self : Bootloader) : Z :=
  let chunk_size := _max_packet_length self - Command_get_size in
  chunk_size - chunk_size mod _write_size self.

(** The order in which the specification lists the events of one chunk: the
    callback before the checksum exchange. *)
Definition claimed_chunk_events (self : Bootloader) (total_bytes written_bytes : Z)
    (chunk : IntelHex) : list Event :=
  write_events (_write_size self) chunk ++
  [Callback (written_bytes + ih_len chunk) total_bytes] ++
  checksum_events chunk.

(** The checksum the device reports for [chunk], asked in the world [w], is
    the one the host computes for it. *)
Definition checksums_agree (chunk : IntelHex) (w : World) : Prop :=
  exists lo sum w',
    minaddr chunk = Some lo /\
    _get_local_checksum chunk = Return sum /\
    _get_remote_checksum (Z.shiftr lo 1) (ih_len chunk) w = (Return sum, w').

(** Every address of [a] lies below every address of [b]. *)
Definition entirely_before (a b : IntelHex) : Prop :=
  forall x y, In x (addresses a) -> In y (addresses b) -> x < y.

(** ** Further vocabulary for the properties of Part II *)

(** [cls.get_size()] of the class of [like]. *)
Definition get_size_of (like : AnyPacket) : option nat :=
  match like with
  | ACommand _ => Packet_get_size
  | AVersion _ => VersionResponsePacket_get_size
  | AResponse _ => ResponsePacket_get_size
  | AMemoryRange _ => MemoryRangePacket_get_size
  | AChecksum _ => ChecksumPacket_get_size
  end.

(** A value a byte string can hold. *)
Definition is_byte (b : Z) : Prop := 0 <= b < 256.

(** The class an instance belongs to. *)
Definition class_of (r : ResponseBase) : response_class :=
  match r with
  | IsVersion _ => VersionT
  | IsResponse _ => ResponseT
  | IsChecksum _ => ChecksumT
  | IsMemoryRange _ => MemoryRangeT
  end.

(** The exceptions an exchange can end in: a command that cannot be packed
    or a response of the wrong length ([struct.error]), a failure of the
    port, the two look-up failures, the command-code mismatch with its
    [ValueError] variant, and the four device-reported errors. *)
Definition exchange_error (e : exn) : Prop :=
  match e with
  | StructError | SerialException | KeyError _ => True
  | UnsupportedCommand | BadAddress | BadLength | VerifyFail => True
  | BootloaderError msg => msg = "Command code mismatch"%string
  | ValueError (NotAValidCommandCode _) => True
  | _ => False
  end.

(** What an exchange raises for a response that echoes the command and
    carries the result code [code], other than [SUCCESS]. *)
Definition error_of_code (code : Z) : exn :=
  match _BOOTLOADER_EXCEPTIONS code with
  | Some e => e
  | None => KeyError code
  end.

(** The number of pad bytes [_write_flash] appends to [len] bytes. *)
Definition write_padding (align len : Z) : Z := (align - len mod align) mod align.

(** The plain response [respond c code] stands for. *)
Definition response_of (c : CommandCode) (code : ResponseCode) : Response :=
  mkResponse (Command c 0 0 0) (BootResponse_value code).

(** What [_detect_program] and [erase_flash] make of the result code of the
    answer to [SELF_VERIFY]. *)
Definition detection_of (code : ResponseCode) : result bool :=
  match code with
  | SUCCESS => Return true
  | VERIFY_FAIL => Return false
  | c => Raise (error_of_code (BootResponse_value c))
  end.

(** The world after exchanges that wrote [evs] and left [rest] to be read,
    with the timeout and the logger as given. *)
Definition world_after (w : World) (evs : list Event) (rest : list RxEvent)
  : World :=
  mkWorld (timeout w) rest (trace w ++ evs) false.


(** The answers of a device that accepts every write and reports, for each
    chunk, the checksum the host computes for it. *)
Definition accepting_device (chunks : list IntelHex) : list RxEvent :=
  flat_map (fun chunk => [respond WRITE_FLASH SUCCESS;
                          respond_checksum (local_checksum_or_0 chunk)])
           chunks.

(** A chunk of contiguous data whose two commands can be packed: the word
    address fits the 32-bit [address] field and the padded length the
    16-bit [data_length] field. *)
Definition sendable (align : Z) (chunk : IntelHex) : Prop :=
  exists s bs,
    chunk = segment_at s bs /\ 0 <= s /\ bs <> [] /\
    Z.shiftr s 1 < 4294967296 /\
    Z.of_nat (List.length bs) + write_padding align (Z.of_nat (List.length bs))
      < 65536.
(* ================================================================= *)
(** * Part II: properties *)
(* ================================================================= *)

Section StructFacts.
Import Struct.

Lemma le_bytes_length n v : List.length (le_bytes n v) = n.
Proof. revert v; induction n; simpl; intros; [reflexivity | now rewrite IHn]. Qed.

Lemma from_le_le_bytes n v :
    0 <= v < 256 ^ Z.of_nat n -> from_le (le_bytes n v) = v.
Proof.
    revert v; induction n as [|n IH]; intros v Hv.
    - simpl in *. lia.
    - cbn [le_bytes from_le]. rewrite IH.
      + pose proof (Z.div_mod v 256). lia.
      + rewrite Nat2Z.inj_succ, Z.pow_succ_r in Hv by lia.
        split; [apply Z.div_pos; lia | apply Z.div_lt_upper_bound; lia].
Qed.

Lemma in_range_bound c v :
    in_range c v = true -> c <> x -> 0 <= v < 256 ^ Z.of_nat (size c).
Proof.
    unfold in_range; intros Hr Hc.
    apply andb_true_iff in Hr as [H0 H1].
    apply Z.leb_le in H0; apply Z.ltb_lt in H1.
    destruct c; simpl in *; try lia; congruence.
Qed.

  (** Unpacking what [pack_items] produced gives the values back, whatever
      follows in the buffer. *)
Lemma unpack_pack_items cs : forall vs bs,
    pack_items cs vs = Some bs ->
    unpack_items cs bs = vs /\ List.length bs = items_size cs.
Proof.
    induction cs as [|c cs IH]; intros vs bs Hp.
    - destruct vs; simpl in Hp; [|discriminate].
      injection Hp as <-. now split.
    - assert (Hx : c = x \/ c <> x) by (destruct c; auto; right; discriminate).
      destruct Hx as [-> | Hc].
      + simpl in Hp. destruct (pack_items cs vs) as [bs'|] eqn:E; [|discriminate].
        injection Hp as <-. destruct (IH _ _ E) as [Hu Hl].
        cbn [unpack_items skipn items_size map list_sum size].
        split; [exact Hu|]. unfold items_size in Hl. simpl. now rewrite Hl.
      + assert (Hp' : match vs with
                      | [] => None
                      | v :: vs' =>
                          if in_range c v
                          then option_map (app (le_bytes (size c) v)) (pack_items cs vs')
                          else None
                      end = Some bs) by (destruct c; try exact Hp; congruence).
        destruct vs as [|v vs]; [discriminate|].
        destruct (in_range c v) eqn:Hr; [|discriminate].
        destruct (pack_items cs vs) as [bs'|] eqn:E; [|discriminate].
        injection Hp' as <-. destruct (IH _ _ E) as [Hu Hl].
        assert (Hun : unpack_items (c :: cs) (le_bytes (size c) v ++ bs') =
                      from_le (firstn (size c) (le_bytes (size c) v ++ bs')) ::
                      unpack_items cs (skipn (size c) (le_bytes (size c) v ++ bs')))
          by (destruct c; try reflexivity; congruence).
        rewrite Hun.
        pose proof (le_bytes_length (size c) v) as Hlen.
        rewrite firstn_app, skipn_app, Hlen, Nat.sub_diag.
        rewrite <- Hlen at 1. rewrite firstn_all.
        rewrite <- Hlen at 2. rewrite skipn_all.
        simpl. rewrite app_nil_r, Hu, from_le_le_bytes by (now apply in_range_bound).
        split; [reflexivity|].
        rewrite length_app, Hlen, Hl. reflexivity.
Qed.

Lemma unpack_pack fmt vs bs :
    pack fmt vs = Some bs -> unpack fmt bs = Some vs.
Proof.
    unfold pack, unpack. destruct (parse fmt) as [cs|]; [|discriminate].
    intros Hp. destruct (unpack_pack_items _ _ _ Hp) as [Hu Hl].
    rewrite Hl, Nat.eqb_refl, Hu. reflexivity.
Qed.

Lemma in_range_B v : u8 v -> in_range B v = true.
Proof. unfold u8, in_range; simpl; intros; apply andb_true_iff; split; [apply Z.leb_le | apply Z.ltb_lt]; lia. Qed.
Lemma in_range_H v : u16 v -> in_range H v = true.
Proof. unfold u16, in_range; simpl; intros; apply andb_true_iff; split; [apply Z.leb_le | apply Z.ltb_lt]; lia. Qed.
Lemma in_range_I v : u32 v -> in_range I v = true.
Proof. unfold u32, in_range; simpl; intros; apply andb_true_iff; split; [apply Z.leb_le | apply Z.ltb_lt]; lia. Qed.

End StructFacts.

Section Codec.

Ltac width_facts :=
    repeat match goal with
      | H : 0 <= _ < 256 |- _ => apply in_range_B in H
      | H : 0 <= _ < 65536 |- _ => apply in_range_H in H
      | H : 0 <= _ < 4294967296 |- _ => apply in_range_I in H
      | H : _ /\ _ |- _ => destruct H
      end.

  (** Packing in-width values cannot raise [struct.error]. *)
Ltac pack_defined E :=
    exfalso; unfold Struct.pack in E;
    match type of E with
    | context [Struct.parse ?f] =>
        let cs := eval vm_compute in (Struct.parse f) in
        change (Struct.parse f) with cs in E
    end;
    cbn in E;
    repeat match goal with
      | H : Struct.in_range _ _ = true |- _ => rewrite H in E; clear H
      end;
    cbn in E; discriminate E.

Ltac round_trip_with unpack_eq :=
    match goal with
    | |- exists data, ?enc = Some data /\ _ =>
        let E := fresh "E" in
        destruct enc as [data|] eqn:E;
        [ exists data; split; [reflexivity|];
          apply unpack_pack in E; unfold unpack_eq; rewrite E; reflexivity
        | pack_defined E ]
    end.

Lemma Packet_roundtrip (p : Packet) :
    Packet_in_width p ->
    exists data, Packet_bytes p = Some data /\ Packet_from_bytes data = Some p.
Proof.
    intros Hw. destruct p as [c l u a]. unfold Packet_bytes.
    unfold Packet_in_width, u8, u16, u32 in Hw; cbn in Hw. width_facts.
    round_trip_with Packet_from_bytes.
Qed.

Lemma VersionResponsePacket_roundtrip (p : VersionResponsePacket) :
    in_width (AVersion p) ->
    exists data, VersionResponsePacket_bytes p = Some data /\
                 VersionResponsePacket_from_bytes data = Some p.
Proof.
    intros Hw. destruct p as [[c l u a] v m d e w].
    unfold VersionResponsePacket_bytes.
    cbn in Hw; unfold Packet_in_width, u8, u16, u32 in Hw; cbn in Hw. width_facts.
    round_trip_with VersionResponsePacket_from_bytes.
Qed.

Lemma ResponsePacket_roundtrip (p : ResponsePacket) :
    ResponsePacket_in_width p ->
    exists data, ResponsePacket_bytes p = Some data /\
                 ResponsePacket_from_bytes data = Some p.
Proof.
    intros Hw. destruct p as [[c l u a] s]. unfold ResponsePacket_bytes.
    unfold ResponsePacket_in_width, Packet_in_width, u8, u16, u32 in Hw; cbn in Hw.
    width_facts. round_trip_with ResponsePacket_from_bytes.
Qed.

Lemma MemoryRangePacket_roundtrip (p : MemoryRangePacket) :
    in_width (AMemoryRange p) ->
    exists data, MemoryRangePacket_bytes p = Some data /\
                 MemoryRangePacket_from_bytes data = Some p.
Proof.
    intros Hw. destruct p as [[[c l u a] s] ps pe].
    unfold MemoryRangePacket_bytes.
    cbn in Hw; unfold ResponsePacket_in_width, Packet_in_width, u8, u16, u32 in Hw;
      cbn in Hw.
    width_facts. round_trip_with MemoryRangePacket_from_bytes.
Qed.

Lemma ChecksumPacket_roundtrip (p : ChecksumPacket) :
    in_width (AChecksum p) ->
    exists data, ChecksumPacket_bytes p = Some data /\
                 ChecksumPacket_from_bytes data = Some p.
Proof.
    intros Hw. destruct p as [[[c l u a] s] k]. unfold ChecksumPacket_bytes.
    cbn in Hw; unfold ResponsePacket_in_width, Packet_in_width, u8, u16, u32 in Hw;
      cbn in Hw.
    width_facts. round_trip_with ChecksumPacket_from_bytes.
Qed.

  (** C7.  For each of the five packet classes and every packet whose field
      values lie within the widths declared by the class's format, encoding
      succeeds, and decoding the encoding with the class of the packet gives
      back a packet equal to the original.  The decoder is given the bytes
      and the class only: [like] is any instance of the class, whatever its
      field values. *)
Theorem decode_encode_roundtrip (p : AnyPacket) (Hw : in_width p) :
    exists data,
      encode p = Some data /\
      forall like, same_class like p -> decode_as like data = Some p.
Proof.
    destruct p as [p | p | p | p | p]; cbn [encode].
    - destruct (Packet_roundtrip p Hw) as (data & He & Hd).
      exists data. split; [exact He|].
      intros [q | q | q | q | q] Hc; try contradiction.
      cbn [decode_as]. now rewrite Hd.
    - destruct (VersionResponsePacket_roundtrip p Hw) as (data & He & Hd).
      exists data. split; [exact He|].
      intros [q | q | q | q | q] Hc; try contradiction.
      cbn [decode_as]. now rewrite Hd.
    - destruct (ResponsePacket_roundtrip p Hw) as (data & He & Hd).
      exists data. split; [exact He|].
      intros [q | q | q | q | q] Hc; try contradiction.
      cbn [decode_as]. now rewrite Hd.
    - destruct (MemoryRangePacket_roundtrip p Hw) as (data & He & Hd).
      exists data. split; [exact He|].
      intros [q | q | q | q | q] Hc; try contradiction.
      cbn [decode_as]. now rewrite Hd.
    - destruct (ChecksumPacket_roundtrip p Hw) as (data & He & Hd).
      exists data. split; [exact He|].
      intros [q | q | q | q | q] Hc; try contradiction.
      cbn [decode_as]. now rewrite Hd.
Qed.

End Codec.

Lemma decode_encode_roundtrip_witness :
  let p := AVersion (mkVersion (Command READ_VERSION 0 0 0) 0x0102 256 0x3456 1024 8) in
  let blank := AVersion (mkVersion (mkPacket 0 0 0 0) 0 0 0 0 0) in
  in_width p /\
  exists data, encode p = Some data /\ decode_as blank data = Some p.
Proof.
  cbv zeta.
  assert (Hw : in_width (AVersion (mkVersion (Command READ_VERSION 0 0 0)
                                             0x0102 256 0x3456 1024 8)))
    by (cbv [in_width Packet_in_width u8 u16 u32]; cbn; lia).
  split; [exact Hw|].
  destruct (decode_encode_roundtrip _ Hw) as (data & He & Hd).
  exists data. split; [exact He|]. apply Hd. exact I.
Defined.

(** The encoded length of every class is fixed: 11, 37, 12, 20 and 14 bytes. *)
Lemma get_size_values :
  Packet_get_size = Some 11%nat /\
  VersionResponsePacket_get_size = Some 37%nat /\
  ResponsePacket_get_size = Some 12%nat /\
  MemoryRangePacket_get_size = Some 20%nat /\
  ChecksumPacket_get_size = Some 14%nat.
Proof. repeat split; reflexivity. Qed.

Lemma pack_length fmt vs bs n :
  Struct.pack fmt vs = Some bs -> Struct.calcsize fmt = Some n ->
  List.length bs = n.
Proof.
  unfold Struct.pack, Struct.calcsize.
  destruct (Struct.parse fmt) as [cs|]; [|discriminate].
  intros Hp Hn. injection Hn as <-.
  now destruct (unpack_pack_items _ _ _ Hp).
Qed.

Lemma unpack_length fmt data vs :
  Struct.unpack fmt data = Some vs ->
  Struct.calcsize fmt = Some (List.length data).
Proof.
  unfold Struct.unpack, Struct.calcsize.
  destruct (Struct.parse fmt) as [cs|]; [|discriminate].
  destruct (Nat.eqb (List.length data) (Struct.items_size cs)) eqn:E; [|discriminate].
  apply Nat.eqb_eq in E. intros _. cbn. now rewrite E.
Qed.

(** Decoding succeeds only on a buffer that has exactly the size of the
    class. *)
Lemma class_from_bytes_size cls data r :
  class_from_bytes cls data = Some r ->
  class_get_size cls = Some (List.length data).
Proof.
  destruct cls; cbn [class_from_bytes class_get_size];
    unfold VersionResponsePacket_from_bytes, ResponsePacket_from_bytes,
      ChecksumPacket_from_bytes, MemoryRangePacket_from_bytes;
    match goal with
    | |- context [Struct.unpack ?f data] =>
        destruct (Struct.unpack f data) as [vs|] eqn:E; [|discriminate];
        intros _; exact (unpack_length _ _ _ E)
    end.
Qed.

(** ** Ranges *)

Section Ranges.

Lemma range_elements_length r :
    List.length (range_elements r) = Z.to_nat (range_len r).
Proof. unfold range_elements. now rewrite length_map, length_seq. Qed.

Lemma range_len_range2 a b : a <= b -> range_len (range2 a b) = b - a.
Proof.
    intros Hab. unfold range_len, range2. cbn.
    destruct (a <? b) eqn:E.
    - rewrite Z.div_1_r. lia.
    - apply Z.ltb_ge in E. lia.
Qed.

Lemma last_map_seq (f : nat -> Z) n s d :
    last (map f (seq s (S n))) d = f (s + n)%nat.
Proof.
    revert s; induction n as [|n IH]; intros s.
    - cbn. now rewrite Nat.add_0_r.
    - change (seq s (S (S n))) with (s :: seq (S s) (S n)).
      cbn [map]. 
      assert (Hl : forall (x : Z) (l : list Z) y, l <> [] -> last (x :: l) y = last l y)
        by (intros x l y Hn; destruct l; [congruence | reflexivity]).
      rewrite Hl by (cbn; discriminate).
      rewrite IH. f_equal. lia.
Qed.

Lemma last_cons_default (y : Z) l d : last (y :: l) d = last l y.
Proof.
    revert y d; induction l as [|z l IH]; intros y d; [reflexivity|].
    change (last (y :: z :: l) d) with (last (z :: l) d).
    rewrite IH. symmetry. apply IH.
Qed.

  (** Unpacking [range(a, b)] into [start, *_, end] binds [end] to the last
      element, [b - 1]. *)
Lemma unpack_start_end_range2 a b :
    a + 2 <= b -> unpack_start_end (range2 a b) = Return (a, b - 1).
Proof.
    intros Hab. unfold unpack_start_end, range_elements.
    rewrite range_len_range2 by lia.
    destruct (Z.to_nat (b - a)) as [|[|n]] eqn:E; try lia.
    cbn [seq map range_start range_step range2].
    rewrite <- (last_cons_default _ _ 0).
    change (a + Z.of_nat 1 * 1 :: map (fun k : nat => a + Z.of_nat k * 1) (seq 2 n))
      with (map (fun k : nat => a + Z.of_nat k * 1) (seq 1 (S n))).
    rewrite last_map_seq. do 2 f_equal; lia.
Qed.

Lemma unpack_start_end_one r :
    range_len r = 1 ->
    unpack_start_end r = Raise (ValueError (NotEnoughValues 1)).
Proof.
    intros H1. unfold unpack_start_end.
    pose proof (range_elements_length r) as Hl. rewrite H1 in Hl.
    destruct (range_elements r) as [|a [|b l]]; cbn in Hl; try discriminate.
    reflexivity.
Qed.

Lemma unpack_start_end_two r :
    2 <= range_len r -> exists s e, unpack_start_end r = Return (s, e).
Proof.
    intros H2. unfold unpack_start_end.
    pose proof (range_elements_length r) as Hl.
    destruct (range_elements r) as [|a [|b l]]; cbn in Hl; try lia.
    now exists a, (last l b).
Qed.

End Ranges.


(** ** Contiguous segments of an image *)

Section Segments.

Lemma buf_at_length s bs : List.length (buf_at s bs) = List.length bs.
Proof. revert s; induction bs; intros s; cbn; [reflexivity | now rewrite IHbs]. Qed.

Lemma ih_len_segment_at s bs : ih_len (segment_at s bs) = Z.of_nat (List.length bs).
Proof. unfold ih_len, segment_at; cbn. now rewrite buf_at_length. Qed.

Lemma fold_min_buf_at bs : forall s a,
  a < s -> fold_left Z.min (map fst (buf_at s bs)) a = a.
Proof.
  induction bs as [|b bs IH]; intros s a Ha; cbn; [reflexivity|].
  rewrite Z.min_l by lia. apply IH. lia.
Qed.

Lemma fold_max_buf_at bs : forall s a,
  a < s ->
  fold_left Z.max (map fst (buf_at s bs)) a =
    match bs with
    | [] => a
    | _ :: _ => s + Z.of_nat (List.length bs) - 1
    end.
Proof.
  induction bs as [|b bs IH]; intros s a Ha; [reflexivity|].
  cbn [buf_at map fold_left fst]. rewrite Z.max_r by lia.
  rewrite IH by lia. destruct bs; cbn [List.length]; lia.
Qed.

Lemma minaddr_segment_at s b bs : minaddr (segment_at s (b :: bs)) = Some s.
Proof.
  unfold minaddr, addresses, segment_at; cbn.
  now rewrite fold_min_buf_at by lia.
Qed.

Lemma maxaddr_segment_at s b bs :
  maxaddr (segment_at s (b :: bs)) = Some (s + Z.of_nat (List.length bs)).
Proof.
  unfold maxaddr, addresses, segment_at; cbn [_buf buf_at map fst].
  rewrite fold_max_buf_at by lia. f_equal. destruct bs; cbn [List.length]; lia.
Qed.

(** Filtering a run of consecutive addresses by an address window. *)
Lemma filter_window_from bs : forall s lo hi,
  lo <= s ->
  filter (window lo hi) (buf_at s bs) = buf_at s (firstn (Z.to_nat (hi - s)) bs).
Proof.
  induction bs as [|b bs IH]; intros s lo hi Hlo.
  - destruct (Z.to_nat (hi - s)); reflexivity.
  - cbn [buf_at filter]. unfold window at 1. cbn [fst].
    replace (lo <=? s) with true by (symmetry; apply Z.leb_le; lia).
    cbn [andb]. rewrite IH by lia.
    destruct (s <? hi) eqn:E.
    + apply Z.ltb_lt in E.
      replace (Z.to_nat (hi - s)) with (S (Z.to_nat (hi - (s + 1)))) by lia.
      reflexivity.
    + apply Z.ltb_ge in E.
      replace (Z.to_nat (hi - s)) with O by lia.
      replace (Z.to_nat (hi - (s + 1))) with O by lia. reflexivity.
Qed.

Lemma filter_window bs : forall s lo hi,
  s <= lo ->
  filter (window lo hi) (buf_at s bs) =
    buf_at lo (firstn (Z.to_nat (hi - lo)) (skipn (Z.to_nat (lo - s)) bs)).
Proof.
  induction bs as [|b bs IH]; intros s lo hi Hlo.
  - destruct (Z.to_nat (lo - s)), (Z.to_nat (hi - lo)); reflexivity.
  - destruct (Z.eq_dec s lo) as [->|Hne].
    + rewrite filter_window_from by lia.
      now replace (Z.to_nat (lo - lo)) with O by lia.
    + cbn [buf_at filter]. unfold window at 1. cbn [fst].
      replace (lo <=? s) with false by (symmetry; apply Z.leb_gt; lia).
      cbn [andb]. rewrite IH by lia.
      replace (Z.to_nat (lo - s)) with (S (Z.to_nat (lo - (s + 1)))) by lia.
      reflexivity.
Qed.

(** A slice of a segment is the segment of the bytes in the window. *)
Lemma slice_segment_at s bs lo hi :
  0 <= s <= lo -> 0 < hi ->
  slice (segment_at s bs) lo hi =
    segment_at lo (firstn (Z.to_nat (hi - lo)) (skipn (Z.to_nat (lo - s)) bs)).
Proof.
  intros Hs Hhi. destruct bs as [|b bs].
  - unfold slice; cbn. destruct (Z.to_nat (lo - s)), (Z.to_nat (hi - lo)); reflexivity.
  - unfold slice. rewrite minaddr_segment_at, maxaddr_segment_at.
    replace (hi =? 0) with false by (symmetry; apply Z.eqb_neq; lia).
    assert (Hst : (if lo =? 0 then s else lo) = lo).
    { destruct (lo =? 0) eqn:E; [apply Z.eqb_eq in E; lia | reflexivity]. }
    rewrite Hst. unfold segment_at at 2. f_equal.
    exact (filter_window (b :: bs) s lo hi (proj2 Hs)).
Qed.

Lemma buf_get_above bs : forall s i, i < s -> buf_get (buf_at s bs) i = None.
Proof.
  induction bs as [|b bs IH]; intros s i Hi; cbn; [reflexivity|].
  replace (s =? i) with false by (symmetry; apply Z.eqb_neq; lia).
  apply IH. lia.
Qed.

Lemma read_back_buf_at pad bs : forall s o (whole : list (Z * Z)),
  (forall k, (k < List.length bs)%nat ->
             buf_get whole (s + Z.of_nat (o + k) * 1) = nth_error bs k) ->
  map (fun i => match buf_get whole i with Some b => b | None => pad end)
      (map (fun k => s + Z.of_nat k * 1) (seq o (List.length bs))) = bs.
Proof.
  induction bs as [|b bs IH]; intros s o whole Hget; [reflexivity|].
  cbn [List.length seq map].
  pose proof (Hget O ltac:(cbn; lia)) as H0. rewrite Nat.add_0_r in H0.
  rewrite H0. cbn [nth_error]. f_equal.
  apply IH. intros k Hk.
  specialize (Hget (S k) ltac:(cbn; lia)). cbn [nth_error] in Hget.
  rewrite <- Hget. do 3 f_equal. lia.
Qed.

Lemma buf_get_buf_at bs : forall s k,
  (k < List.length bs)%nat ->
  buf_get (buf_at s bs) (s + Z.of_nat k) = nth_error bs k.
Proof.
  induction bs as [|b bs IH]; intros s k Hk; [cbn in Hk; lia|].
  cbn [buf_at buf_get]. destruct k as [|k].
  - replace (s + Z.of_nat 0) with s by lia. now rewrite Z.eqb_refl.
  - replace (s =? s + Z.of_nat (S k)) with false by (symmetry; apply Z.eqb_neq; lia).
    replace (s + Z.of_nat (S k)) with (s + 1 + Z.of_nat k) by lia.
    apply IH. cbn in Hk. lia.
Qed.

(** The bytes of a segment, read back. *)
Lemma tobinstr_segment_at s bs : tobinstr (segment_at s bs) = bs.
Proof.
  destruct bs as [|b bs]; [reflexivity|].
  unfold tobinstr. rewrite minaddr_segment_at, maxaddr_segment_at.
  unfold range_elements. rewrite range_len_range2 by lia.
  cbn [range_start range_step range2].
  replace (Z.to_nat (s + Z.of_nat (List.length bs) + 1 - s))
    with (List.length (b :: bs)) by (cbn [List.length]; lia).
  apply read_back_buf_at. intros k Hk.
  cbn [segment_at _buf]. rewrite Z.mul_1_r. cbn [Nat.add].
  now apply buf_get_buf_at.
Qed.

End Segments.

(** ** The command/response primitive *)

Section Exchange.

Ltac break_match :=
    match goal with
    | |- context [match ?x with _ => _ end] => destruct x eqn:?
    end.

Lemma interface_read_frame n w :
    let w' := snd (interface_read n w) in
    trace w' = trace w /\ timeout w' = timeout w /\
    logger_disabled w' = logger_disabled w.
Proof.
    unfold interface_read. destruct (rx w) as [|[data|] rest]; cbn; auto.
Qed.

Lemma from_serial_frame cls w :
    let w' := snd (from_serial cls w) in
    trace w' = trace w /\ timeout w' = timeout w /\
    logger_disabled w' = logger_disabled w.
Proof.
    unfold from_serial, bind, or_raise.
    destruct (class_get_size cls) as [n|]; cbn; auto.
    pose proof (interface_read_frame n w) as Hr.
    destruct (interface_read n w) as [[data|e] w1]; cbn in *; auto.
    destruct (class_from_bytes cls data); cbn; auto.
Qed.

  (** Whatever the device answers, an exchange writes the packed command
      followed by the payload, once, and nothing when the command cannot be
      packed; it leaves the timeout and the logger alone. *)
Lemma send_and_receive_frame c d w :
    let w' := snd (_send_and_receive c d w) in
    trace w' = trace w ++ tx_event c d /\ timeout w' = timeout w /\
    logger_disabled w' = logger_disabled w.
Proof.
    unfold _send_and_receive, tx_event, bind, or_raise, interface_write, emit, lift.
    destruct (Packet_bytes c) as [packed|]; cbn; [|rewrite app_nil_r; auto].
    destruct (_RESPONSE_TYPE_MAP (command c)) as [cls|]; cbn; auto.
    match goal with |- context [from_serial cls ?w1] =>
      pose proof (from_serial_frame cls w1) as Hf;
      destruct (from_serial cls w1) as [[r|e] w2] end; cbn in *; auto.
    destruct (_verify_good_response c r); cbn; auto.
Qed.

End Exchange.

(** ** Classification of responses *)

Section Classification.

Lemma BOOTLOADER_EXCEPTIONS_cases code e :
    _BOOTLOADER_EXCEPTIONS code = Some e ->
    (code = 0xFF /\ e = UnsupportedCommand) \/ (code = 0xFE /\ e = BadAddress) \/
    (code = 0xFD /\ e = BadLength) \/ (code = 0xFC /\ e = VerifyFail).
Proof.
    unfold _BOOTLOADER_EXCEPTIONS; cbn.
    destruct (code =? 255) eqn:E1; [apply Z.eqb_eq in E1; intros [= <-]; auto|].
    destruct (code =? 254) eqn:E2; [apply Z.eqb_eq in E2; intros [= <-]; auto|].
    destruct (code =? 253) eqn:E3; [apply Z.eqb_eq in E3; intros [= <-]; auto 6|].
    destruct (code =? 252) eqn:E4; [apply Z.eqb_eq in E4; intros [= <-]; auto 6|].
    discriminate.
Qed.

  (** A response whose echoed command code differs from the one sent is
      refused: with "Command code mismatch" when the echoed value is a
      command code, with a [ValueError] from formatting the debug message
      when it is not. *)
Lemma verify_command_mismatch c r :
    ResponseBase_command r <> command c ->
    _verify_good_response c r =
      match BootCommand_of_value (ResponseBase_command r) with
      | Some _ => Raise (BootloaderError "Command code mismatch")
      | None => Raise (ValueError (NotAValidCommandCode (ResponseBase_command r)))
      end.
Proof.
    intros Hne. unfold _verify_good_response.
    apply Z.eqb_neq in Hne. rewrite Hne. cbn.
    destruct (BootCommand_of_value (ResponseBase_command r)); reflexivity.
Qed.

  (** The four device-reported codes are mapped to their error kinds. *)
Lemma verify_device_error c r code e :
    ResponseBase_command r = command c ->
    ResponseBase_success r = Some code ->
    _BOOTLOADER_EXCEPTIONS code = Some e ->
    _verify_good_response c r = Raise e.
Proof.
    intros Hc Hs He. unfold _verify_good_response.
    rewrite Hc, Z.eqb_refl. cbn [negb].
    assert (Hn : negb (code =? BootResponse_value SUCCESS) = true).
    { apply BOOTLOADER_EXCEPTIONS_cases in He.
      destruct He as [[-> _]|[[-> _]|[[-> _]|[-> _]]]]; reflexivity. }
    destruct r; cbn in Hs; try discriminate; injection Hs as Hs;
      rewrite Hs, Hn, He; reflexivity.
Qed.

  (** Any other code than [SUCCESS] and those four ends in the [KeyError] of
      the look-up in [_BOOTLOADER_EXCEPTIONS]. *)
Lemma verify_unmapped_code c r code :
    ResponseBase_command r = command c ->
    ResponseBase_success r = Some code ->
    code <> BootResponse_value SUCCESS ->
    _BOOTLOADER_EXCEPTIONS code = None ->
    _verify_good_response c r = Raise (KeyError code).
Proof.
    intros Hc Hs Hn He. unfold _verify_good_response.
    rewrite Hc, Z.eqb_refl. cbn [negb].
    apply Z.eqb_neq in Hn.
    destruct r; cbn in Hs; try discriminate; injection Hs as Hs;
      rewrite Hs, Hn, He; reflexivity.
Qed.

  (** A response is accepted only if it echoes the command and, unless it is
      a [Version], reports [SUCCESS]. *)
Lemma verify_accepts c r :
    _verify_good_response c r = Return tt ->
    ResponseBase_command r = command c /\
    (forall code, ResponseBase_success r = Some code ->
                  code = BootResponse_value SUCCESS).
Proof.
    unfold _verify_good_response.
    destruct (ResponseBase_command r =? command c) eqn:Hc; cbn [negb].
    2:{ destruct (BootCommand_of_value (ResponseBase_command r)); discriminate. }
    apply Z.eqb_eq in Hc. intros Hv. split; [exact Hc|].
    intros code Hs.
    destruct r; cbn in Hs; try discriminate; injection Hs as Hs; subst code;
      match goal with
      | |- ?s = _ =>
          destruct (s =? BootResponse_value SUCCESS) eqn:E;
          [now apply Z.eqb_eq in E|]
      end; cbn [negb] in Hv;
      match type of Hv with
      | context [_BOOTLOADER_EXCEPTIONS ?s] =>
          destruct (_BOOTLOADER_EXCEPTIONS s); discriminate
      end.
Qed.

Lemma verify_no_unpacking_error c r e :
    _verify_good_response c r = Raise e -> is_unpacking_error e = false.
Proof.
    unfold _verify_good_response.
    destruct (ResponseBase_command r =? command c); cbn [negb].
    2:{ destruct (BootCommand_of_value (ResponseBase_command r));
        intros [= <-]; reflexivity. }
    assert (Hk : forall s,
               (if negb (s =? BootResponse_value SUCCESS)
                then match _BOOTLOADER_EXCEPTIONS s with
                     | Some e0 => Raise e0
                     | None => Raise (KeyError s)
                     end
                else Return tt) = Raise e -> is_unpacking_error e = false).
    { intros s. destruct (negb (s =? BootResponse_value SUCCESS)); [|discriminate].
      destruct (_BOOTLOADER_EXCEPTIONS s) eqn:He; intros [= <-]; [|reflexivity].
      apply BOOTLOADER_EXCEPTIONS_cases in He.
      destruct He as [[_ ->]|[[_ ->]|[[_ ->]|[_ ->]]]]; reflexivity. }
    destruct r; [discriminate | apply Hk | apply Hk | apply Hk].
Qed.

  (** C4.  [UNDEFINED] (0x00) in an otherwise well-formed response to
      [SELF_VERIFY] does not raise a protocol-mismatch [BootloaderError]: it
      ends in [KeyError(0)], at the level of the check and at the level of
      the exchange.  An echoed command code that differs from the one sent
      and is no command code ends in a [ValueError]. *)
Theorem undefined_code_raises_KeyError :
    _verify_good_response
      (Command SELF_VERIFY 0 0 0)
      (IsResponse (mkResponse (Command SELF_VERIFY 0 0 0)
                              (BootResponse_value UNDEFINED)))
    = Raise (KeyError 0) /\
    fst (_send_and_receive (Command SELF_VERIFY 0 0 0) []
                           (port [respond SELF_VERIFY UNDEFINED]))
    = Raise (KeyError 0) /\
    _verify_good_response
      (Command SELF_VERIFY 0 0 0)
      (IsResponse (mkResponse (mkPacket 0x42 0 0 0) (BootResponse_value SUCCESS)))
    = Raise (ValueError (NotAValidCommandCode 0x42)).
Proof. repeat split; vm_compute; reflexivity. Qed.

End Classification.

(** ** Reasoning rules for computations *)

Section Rules.
Context {A B : Type}.

Lemma raises_only_ret P (a : A) : raises_only P (ret a).
Proof. intros w e; cbn; discriminate. Qed.

Lemma raises_only_raise (P : exn -> Prop) e : P e -> raises_only P (@raise A e).
Proof. intros He w e'; cbn; intros [= <-]; exact He. Qed.

Lemma raises_only_bind P (m : M A) (k : A -> M B) :
    raises_only P m -> (forall a, raises_only P (k a)) ->
    raises_only P (bind m k).
Proof.
    intros Hm Hk w e. unfold bind. specialize (Hm w).
    destruct (m w) as [[a|e'] w']; cbn in *.
    - apply Hk.
    - intros [= <-]. now apply Hm.
Qed.

Lemma raises_only_lift (P : exn -> Prop) (r : result A) :
    (forall e, r = Raise e -> P e) -> raises_only P (lift r).
Proof. intros Hr w e; cbn; apply Hr. Qed.

Lemma raises_only_or_raise (P : exn -> Prop) e (o : option A) :
    P e -> raises_only P (or_raise e o).
Proof.
    intros He. destruct o; [apply raises_only_ret | now apply raises_only_raise].
Qed.

Lemma raises_only_try_except P (body : M A) handler :
    raises_only P body ->
    (forall e h, handler e = Some h -> raises_only P h) ->
    raises_only P (try_except body handler).
Proof.
    intros Hb Hh w e. unfold try_except. specialize (Hb w).
    destruct (body w) as [[a|e'] w']; cbn in *; [discriminate|].
    destruct (handler e') as [h|] eqn:E.
    - apply (Hh _ _ E).
    - cbn. intros [= <-]. now apply Hb.
Qed.

Lemma raises_only_try_finally P (body : M A) cleanup :
    raises_only P body -> raises_only P (try_finally body cleanup).
Proof.
    intros Hb w e. unfold try_finally. specialize (Hb w).
    destruct (body w) as [r w']; cbn in *. exact (Hb e).
Qed.

End Rules.

(** ** The exchange, seen through the rules *)

Section ExchangeRules.

Lemma interface_read_no_unpacking n : raises_only not_unpacking (interface_read n).
Proof.
    intros w e. unfold interface_read.
    destruct (rx w) as [|[data|] rest]; cbn; try discriminate.
    intros [= <-]; reflexivity.
Qed.

Lemma send_and_receive_no_unpacking c d :
    raises_only not_unpacking (_send_and_receive c d).
Proof.
    unfold _send_and_receive.
    apply raises_only_bind; [now apply raises_only_or_raise|]; intros packed.
    apply raises_only_bind; [intros w e; cbn; discriminate|]; intros _.
    apply raises_only_bind; [now apply raises_only_or_raise|]; intros cls.
    apply raises_only_bind.
    { unfold from_serial.
      apply raises_only_bind; [now apply raises_only_or_raise|]; intros n.
      apply raises_only_bind; [apply interface_read_no_unpacking|]; intros data.
      now apply raises_only_or_raise. }
    intros r. apply raises_only_bind; [|intros; apply raises_only_ret].
    apply raises_only_lift. apply verify_no_unpacking_error.
Qed.

End ExchangeRules.

(** ** Program detection and erase *)

Section Erase.

Lemma self_verify_no_unpacking : raises_only not_unpacking _self_verify.
Proof.
    apply raises_only_bind; [apply send_and_receive_no_unpacking|].
    intros; apply raises_only_ret.
Qed.

Lemma detect_program_no_unpacking : raises_only not_unpacking _detect_program.
Proof.
    apply raises_only_try_finally, raises_only_try_except.
    - intros w e. apply (raises_only_bind not_unpacking _self_verify);
        [apply self_verify_no_unpacking | intros; apply raises_only_ret].
    - intros e h. destruct e; try discriminate.
      intros [= <-]. apply raises_only_ret.
Qed.

  (** Program detection makes one [SELF_VERIFY] exchange, leaves the timeout
      alone and, by its [finally] clause, leaves the logger enabled whatever
      the outcome. *)
Lemma detect_program_frame w :
    let w' := snd (_detect_program w) in
    trace w' = trace w ++ tx_event (Command SELF_VERIFY 0 0 0) [] /\
    timeout w' = timeout w /\ logger_disabled w' = false.
Proof.
    unfold _detect_program, try_finally, try_except, _self_verify, bind, ret.
    pose proof (send_and_receive_frame (Command SELF_VERIFY 0 0 0) []
                  (set_logger_disabled true w)) as Hf.
    destruct (_send_and_receive (Command SELF_VERIFY 0 0 0) []
                (set_logger_disabled true w)) as [[r|e] w1]; cbn in *.
    - tauto.
    - destruct e; cbn; tauto.
Qed.

Lemma erase_flash_inner_no_unpacking self s e :
    raises_only not_unpacking (_erase_flash self s e).
Proof.
    unfold _erase_flash.
    apply raises_only_bind; [intros w x; discriminate|]; intros t.
    apply raises_only_bind;
      [destruct t; [intros w x; discriminate | apply raises_only_ret]|]; intros _.
    apply raises_only_bind.
    { apply raises_only_lift. unfold floordiv.
      destruct (_erase_size self =? 0); [intros x [= <-]; reflexivity | discriminate]. }
    intros pages.
    apply raises_only_bind; [apply send_and_receive_no_unpacking|].
    intros _ w x; discriminate.
Qed.

  (** X22.  Where [_erase_flash] leaves the timeout.  When it returns, the
      timeout is back at the value it had, whatever that value is.  When it
      raises, a timeout of [None] is still [None], and a timeout of a whole
      number [n] of seconds, [n * 10] being exact in [int] as in [float]
      arithmetic ([n] up to 2^53 / 10), is left at [n * 10]. *)
Lemma erase_flash_inner_timeout self s e w :
    let run := _erase_flash self s e w in
    (forall u, fst run = Return u -> timeout (snd run) = timeout w) /\
    (forall x, fst run = Raise x -> timeout w = None ->
               timeout (snd run) = None) /\
    (forall x n, fst run = Raise x -> timeout w = Some (inject_Z n) ->
                 0 <= n <= 900719925474099 ->
                 timeout (snd run) = Some (inject_Z (n * 10))).
Proof.
    cbv zeta.
    assert (H : timeout (snd (_erase_flash self s e w)) =
                match fst (_erase_flash self s e w) with
                | Return _ => timeout w
                | Raise _ => option_map (fun t => (t * 10)%Q) (timeout w)
                end).
    { unfold _erase_flash, bind, get_timeout, lift, floordiv. cbn [fst snd].
      destruct (timeout w) as [t|] eqn:Et; cbn [set_timeout ret option_map];
        (destruct (_erase_size self =? 0); [cbn; try rewrite Et; reflexivity|]);
        match goal with |- context [_send_and_receive ?c ?d ?w1] =>
          pose proof (send_and_receive_frame c d w1) as Hf;
          destruct (_send_and_receive c d w1) as [[r|x] w2] end; cbn in *;
        try reflexivity; destruct Hf as (_ & Hf & _); congruence. }
    rewrite H. split; [|split].
    - intros u ->. reflexivity.
    - intros x -> ->. reflexivity.
    - intros x n -> -> _. reflexivity.
Qed.

  (** The first thing an erase over the whole program memory
      [range(a, b)] writes, when it is forced, is [ERASE_FLASH] for
      [(b - 1 - a) // erase_size] pages from [a]. *)
Lemma erase_flash_forced_command self a b verify w :
    _memory_range self = range2 a b -> a + 2 <= b -> _erase_size self <> 0 ->
    exists evs,
      trace (snd (erase_flash self None true verify w)) =
        trace w ++
        tx_event (Command ERASE_FLASH ((b - 1 - a) / _erase_size self)
                          _FLASH_UNLOCK_KEY a) [] ++ evs.
Proof.
    intros Hr Hab Hz. unfold erase_flash. rewrite Hr.
    unfold bind at 1. unfold lift. rewrite unpack_start_end_range2 by lia.
    unfold bind at 1. cbn [ret].
    unfold bind at 1.
    assert (He : trace (snd (_erase_flash self a (b - 1) w)) =
                 trace w ++ tx_event (Command ERASE_FLASH ((b - 1 - a) / _erase_size self)
                                              _FLASH_UNLOCK_KEY a) []).
    { unfold _erase_flash, bind, get_timeout, lift, floordiv.
      apply Z.eqb_neq in Hz. 
      destruct (timeout w); cbn; rewrite Hz;
        match goal with |- context [_send_and_receive ?c ?d ?w1] =>
          pose proof (send_and_receive_frame c d w1) as Hf;
          destruct (_send_and_receive c d w1) as [[r|x] w2] end; cbn in *; tauto. }
    destruct (_erase_flash self a (b - 1) w) as [[[]|x] w1]; cbn in He |- *.
    - destruct verify.
      + unfold bind. pose proof (detect_program_frame w1) as Hd.
        destruct (_detect_program w1) as [[still|x] w2]; cbn in Hd.
        * destruct still; cbn; eexists; rewrite (proj1 Hd), He, <- app_assoc; reflexivity.
        * cbn; eexists; rewrite (proj1 Hd), He, <- app_assoc; reflexivity.
      + cbn. exists []. now rewrite app_nil_r.
    - exists []. now rewrite app_nil_r.
Qed.

  (** C3.  On the scenario device (program memory [range(0x1000, 0x2000)],
      [erase_size = 1024]) with an application present, the erase over the
      whole program memory sends [ERASE_FLASH] with [address = 0x1000],
      [unlock_sequence = 0x00AA0055] and [data_length = 3]: the end address
      it subtracts from is the last element of the range, 0x1FFF. *)
Theorem erase_scenario_data_length :
    let run := erase_flash scenario_device None false true
                 (port [respond SELF_VERIFY SUCCESS;
                        respond ERASE_FLASH SUCCESS;
                        respond SELF_VERIFY VERIFY_FAIL]) in
    fst run = Return tt /\
    unpack_start_end (_memory_range scenario_device) = Return (0x1000, 0x1FFF) /\
    trace_of run =
      tx_event (Command SELF_VERIFY 0 0 0) [] ++
      tx_event (Command ERASE_FLASH 3 0x00AA0055 0x1000) [] ++
      tx_event (Command SELF_VERIFY 0 0 0) [] /\
    trace_of run <>
      tx_event (Command SELF_VERIFY 0 0 0) [] ++
      tx_event (Command ERASE_FLASH 4 0x00AA0055 0x1000) [] ++
      tx_event (Command SELF_VERIFY 0 0 0) [].
Proof.
    cbv zeta. split; [vm_compute; reflexivity|].
    split; [vm_compute; reflexivity|].
    split; [vm_compute; reflexivity|].
    vm_compute. discriminate.
Qed.

  (** C5.  When the device answers [ERASE_FLASH] with [BAD_ADDRESS], the
      exchange raises [BadAddress] and the timeout, one second before the
      call, is left at ten seconds: the statement that restores it is not
      reached, and the [SELF_VERIFY] exchange that follows runs under the
      scaled timeout. *)
Theorem erase_failure_leaves_timeout_scaled :
    let w := port [respond ERASE_FLASH BAD_ADDRESS; respond SELF_VERIFY SUCCESS] in
    let run := _erase_flash scenario_device 0x1000 0x1FFF w in
    timeout w = Some 1%Q /\
    fst run = Raise BadAddress /\
    timeout (snd run) = Some 10%Q /\
    timeout (snd (_self_verify (snd run))) = Some 10%Q /\
    timeout (snd (erase_flash scenario_device None true true w)) = Some 10%Q.
Proof. cbv zeta. repeat split; vm_compute; reflexivity. Qed.

  (** C10 does not hold as stated at an empty range: [range(0, 0)] is
      falsy, the device's memory range is unpacked in its place, and the
      erase exchange is made. *)
Lemma empty_erase_range_is_replaced :
    let run := erase_flash scenario_device (Some (range2 0 0)) true false
                 (port [respond ERASE_FLASH SUCCESS]) in
    range_len (range2 0 0) = 0 /\
    fst run = Return tt /\
    trace_of run = tx_event (Command ERASE_FLASH 3 0x00AA0055 0x1000) [] /\
    trace_of run <> [].
Proof.
    cbv zeta. split; [reflexivity|]. split; [vm_compute; reflexivity|].
    split; [vm_compute; reflexivity|]. vm_compute. discriminate.
Qed.

  (** C10, amended.  An explicit [erase_range] with exactly one element
      fails with the unpacking error and the world untouched: no exchange is
      made.  An empty [erase_range] is falsy and behaves as if none had been
      given.  With two elements or more the unpacking error is never raised. *)
Theorem erase_range_unpacking self r force verify w :
    (range_len r = 1 ->
     erase_flash self (Some r) force verify w =
       (Raise (ValueError (NotEnoughValues 1)), w)) /\
    (range_len r = 0 ->
     erase_flash self (Some r) force verify w =
       erase_flash self None force verify w) /\
    (2 <= range_len r ->
     forall e, fst (erase_flash self (Some r) force verify w) = Raise e ->
               is_unpacking_error e = false).
Proof.
    split; [|split].
    - intros H1. unfold erase_flash, range_truthy. rewrite H1. cbn [Z.eqb negb].
      unfold bind, lift. now rewrite unpack_start_end_one.
    - intros H0. unfold erase_flash, range_truthy. rewrite H0. reflexivity.
    - intros H2. unfold erase_flash, range_truthy.
      replace (range_len r =? 0) with false by (symmetry; apply Z.eqb_neq; lia).
      cbn [negb]. destruct (unpack_start_end_two r H2) as (s & e0 & Hu).
      revert w. change (raises_only not_unpacking
        (se <- lift (unpack_start_end r) ;;
         (let '(start, end_) := se in
          go <- (if force then ret true else _detect_program) ;;
          (if go : bool
           then _erase_flash self start end_ ;;
                (if verify
                 then still <- _detect_program ;;
                      (if still : bool
                       then raise (BootloaderError "Existing application could not be erased")
                       else ret tt)
                 else ret tt)
           else ret tt)))).
      apply raises_only_bind;
        [apply raises_only_lift; rewrite Hu; discriminate|].
      intros [start end_].
      apply raises_only_bind;
        [destruct force; [apply raises_only_ret | apply detect_program_no_unpacking]|].
      intros [|]; [|apply raises_only_ret].
      apply raises_only_bind; [apply erase_flash_inner_no_unpacking|]. intros _.
      destruct verify; [|apply raises_only_ret].
      apply raises_only_bind; [apply detect_program_no_unpacking|].
      intros [|]; [now apply raises_only_raise | apply raises_only_ret].
Qed.

Lemma erase_range_unpacking_witness :
    let w := port [respond ERASE_FLASH SUCCESS] in
    (range_len (range2 5 6) = 1 /\
     erase_flash scenario_device (Some (range2 5 6)) true false w =
       (Raise (ValueError (NotEnoughValues 1)), w)) /\
    (range_len (range2 7 7) = 0 /\
     erase_flash scenario_device (Some (range2 7 7)) true false w =
       erase_flash scenario_device None true false w) /\
    (2 <= range_len (range2 0x1000 0x1800) /\
     forall e, fst (erase_flash scenario_device (Some (range2 0x1000 0x1800))
                                true false w) = Raise e ->
               is_unpacking_error e = false).
Proof.
    cbv zeta. split; [|split].
    - split; [reflexivity|].
      apply (erase_range_unpacking scenario_device (range2 5 6)); reflexivity.
    - split; [reflexivity|].
      apply (erase_range_unpacking scenario_device (range2 7 7)); reflexivity.
    - split; [vm_compute; discriminate|].
      apply (erase_range_unpacking scenario_device (range2 0x1000 0x1800)).
      vm_compute; discriminate.
Defined.

End Erase.

(** ** Exchanges with a known answer *)

Section KnownAnswer.

  (** The device's answer decodes: the exchange returns it if the check
      accepts it and raises what the check raises otherwise. *)
Lemma send_and_receive_decoded c d w packed cls n data rest r :
    Packet_bytes c = Some packed ->
    _RESPONSE_TYPE_MAP (command c) = Some cls ->
    class_get_size cls = Some n ->
    rx w = Rx data :: rest ->
    class_from_bytes cls (firstn n data) = Some r ->
    _send_and_receive c d w =
      (match _verify_good_response c r with
       | Return _ => Return r
       | Raise e => Raise e
       end, after_exchange w (packed ++ d) rest).
Proof.
    intros Hp Hm Hn Hrx Hd.
    unfold _send_and_receive, from_serial, interface_write, emit, lift,
      interface_read, bind.
    rewrite Hp; cbv beta iota delta [or_raise ret].
    rewrite Hm; cbv beta iota delta [or_raise ret].
    rewrite Hn; cbv beta iota delta [or_raise ret]; cbn [rx].
    rewrite Hrx, Hd; cbv beta iota delta [or_raise ret].
    destruct (_verify_good_response c r) as [[]|e]; reflexivity.
Qed.

  (** The device's answer has the wrong length: [struct.error]. *)
Lemma send_and_receive_short c d w packed cls n data rest :
    Packet_bytes c = Some packed ->
    _RESPONSE_TYPE_MAP (command c) = Some cls ->
    class_get_size cls = Some n ->
    rx w = Rx data :: rest ->
    (List.length data < n)%nat ->
    _send_and_receive c d w =
      (Raise StructError, after_exchange w (packed ++ d) rest).
Proof.
    intros Hp Hm Hn Hrx Hl.
    unfold _send_and_receive, from_serial, interface_write, emit, lift,
      interface_read, bind.
    rewrite Hp; cbv beta iota delta [or_raise ret].
    rewrite Hm; cbv beta iota delta [or_raise ret].
    rewrite Hn; cbv beta iota delta [or_raise ret]; cbn [rx].
    rewrite Hrx.
    destruct (class_from_bytes cls (firstn n data)) as [r|] eqn:E; [|reflexivity].
    apply class_from_bytes_size in E. rewrite Hn in E. injection E as E.
    rewrite length_firstn in E. lia.
Qed.

  (** Nothing arrives at all before the timeout. *)
Lemma send_and_receive_silent c d w packed cls n :
    Packet_bytes c = Some packed ->
    _RESPONSE_TYPE_MAP (command c) = Some cls ->
    class_get_size cls = Some (S n) ->
    rx w = [] ->
    _send_and_receive c d w =
      (Raise StructError, after_exchange w (packed ++ d) []).
Proof.
    intros Hp Hm Hn Hrx.
    unfold _send_and_receive, from_serial, interface_write, emit, lift,
      interface_read, bind.
    rewrite Hp; cbv beta iota delta [or_raise ret].
    rewrite Hm; cbv beta iota delta [or_raise ret].
    rewrite Hn; cbv beta iota delta [or_raise ret]; cbn [rx].
    rewrite Hrx.
    destruct (class_from_bytes cls []) as [r|] eqn:E.
    - apply class_from_bytes_size in E. rewrite Hn in E. discriminate.
    - reflexivity.
Qed.

  (** The port fails while the answer is read. *)
Lemma send_and_receive_fault c d w packed cls n rest :
    Packet_bytes c = Some packed ->
    _RESPONSE_TYPE_MAP (command c) = Some cls ->
    class_get_size cls = Some n ->
    rx w = RxFault :: rest ->
    _send_and_receive c d w =
      (Raise SerialException, after_exchange w (packed ++ d) rest).
Proof.
    intros Hp Hm Hn Hrx.
    unfold _send_and_receive, from_serial, interface_write, emit, lift,
      interface_read, bind.
    rewrite Hp; cbv beta iota delta [or_raise ret].
    rewrite Hm; cbv beta iota delta [or_raise ret].
    rewrite Hn; cbv beta iota delta [or_raise ret]; cbn [rx].
    rewrite Hrx. reflexivity.
Qed.

End KnownAnswer.

(** ** Connection bring-up *)

Section BringUp.

  (** C9 does not hold as stated: a failure of the port during either
      exchange of the bring-up reaches the caller as the port raised it. *)
Lemma port_failure_is_not_wrapped :
    fst (__init__ (port [RxFault])) = Raise SerialException /\
    fst (__init__ (port [version_reply; RxFault])) = Raise SerialException /\
    fst (__init__ (port [RxFault])) <> Raise no_response.
Proof.
    split; [vm_compute; reflexivity|]. split; [vm_compute; reflexivity|].
    vm_compute. discriminate.
Qed.

Lemma init_of_struct_error w w' :
    bring_up w = (Raise StructError, w') -> __init__ w = (Raise no_response, w').
Proof. intros Hb. unfold __init__, try_except. now rewrite Hb. Qed.

Lemma init_of_other_error w w' e :
    bring_up w = (Raise e, w') -> e <> StructError -> __init__ w = (Raise e, w').
Proof.
    intros Hb He. unfold __init__, try_except. rewrite Hb.
    destruct e; try reflexivity. congruence.
Qed.

  (** After an answer to [READ_VERSION] that is accepted, the bring-up goes
      on with the second exchange. *)
Lemma bring_up_after_version w data v rest :
    rx w = Rx data :: rest ->
    class_from_bytes VersionT (firstn 37 data) = Some (IsVersion v) ->
    command (version_base v) = BootCommand_value READ_VERSION ->
    exists packed,
      bring_up w =
        (mr <- _get_memory_address_range ;;
         ret (mkBootloader (max_packet_length v) (erase_size v) (write_size v)
                           (range2 (fst mr) (snd mr))))
          (after_exchange w (packed ++ []) rest).
Proof.
    intros Hrx Hd Hc.
    assert (Hp : exists packed,
               Packet_bytes (Command READ_VERSION 0 0 0) = Some packed)
      by (eexists; reflexivity).
    destruct Hp as [packed Hp]. exists packed.
    assert (Hok : _verify_good_response (Command READ_VERSION 0 0 0) (IsVersion v)
                  = Return tt).
    { unfold _verify_good_response. cbn [ResponseBase_command].
      rewrite Hc. reflexivity. }
    unfold bring_up, _read_version. unfold bind at 1 2.
    erewrite send_and_receive_decoded;
      [| exact Hp | reflexivity | reflexivity | exact Hrx | exact Hd].
    rewrite Hok. reflexivity.
Qed.

  (** C9, amended.  [__init__] catches [struct.error] and nothing else.
      [struct.error] never leaves it: whenever the bring-up raises it,
      the caller gets [BootloaderError("No response from bootloader")];
      every other exception of the bring-up, the port's among them, reaches
      the caller as it was raised.  [struct.error] is what the bring-up
      raises when a read delivers fewer bytes than the response has: nothing
      at all or a short answer to [READ_VERSION], and, after any answer to
      [READ_VERSION] that is accepted, nothing at all or a short answer to
      [GET_MEMORY_ADDRESS_RANGE].  When the port fails during either read,
      the caller gets the port's exception. *)
Theorem bring_up_decoding_failure (w : World) :
    fst (__init__ w) <> Raise StructError /\
    (forall w', bring_up w = (Raise StructError, w') ->
                __init__ w = (Raise no_response, w')) /\
    (forall e w', bring_up w = (Raise e, w') -> e <> StructError ->
                  __init__ w = (Raise e, w')) /\
    (rx w = [] -> fst (__init__ w) = Raise no_response) /\
    (forall data rest,
        rx w = Rx data :: rest -> (List.length data < 37)%nat ->
        fst (__init__ w) = Raise no_response) /\
    (forall rest,
        rx w = RxFault :: rest -> fst (__init__ w) = Raise SerialException) /\
    (forall data v rest,
        rx w = Rx data :: rest ->
        class_from_bytes VersionT (firstn 37 data) = Some (IsVersion v) ->
        command (version_base v) = BootCommand_value READ_VERSION ->
        (rest = [] -> fst (__init__ w) = Raise no_response) /\
        (forall data' rest',
            rest = Rx data' :: rest' -> (List.length data' < 20)%nat ->
            fst (__init__ w) = Raise no_response) /\
        (forall rest',
            rest = RxFault :: rest' ->
            fst (__init__ w) = Raise SerialException)).
Proof.
    split; [|split; [|split; [|split; [|split; [|split]]]]].
    - unfold __init__, try_except.
      destruct (bring_up w) as [[b|e] w']; cbn; [discriminate|].
      destruct e; cbn; discriminate.
    - intros w'. apply init_of_struct_error.
    - intros e w'. apply init_of_other_error.
    - intros Hrx.
      erewrite init_of_struct_error; [reflexivity|].
      unfold bring_up, _read_version. unfold bind at 1 2.
      erewrite send_and_receive_silent;
        [reflexivity | reflexivity | reflexivity | reflexivity | exact Hrx].
    - intros data rest Hrx Hl.
      erewrite init_of_struct_error; [reflexivity|].
      unfold bring_up, _read_version. unfold bind at 1 2.
      erewrite send_and_receive_short;
        [reflexivity | reflexivity | reflexivity | reflexivity | exact Hrx | exact Hl].
    - intros rest Hrx.
      erewrite init_of_other_error; [reflexivity | | discriminate].
      unfold bring_up, _read_version. unfold bind at 1 2.
      erewrite send_and_receive_fault;
        [reflexivity | reflexivity | reflexivity | reflexivity | exact Hrx].
    - intros data v rest Hrx Hd Hc.
      destruct (bring_up_after_version w data v rest Hrx Hd Hc) as [packed Hb].
      split; [|split].
      + intros ->.
        erewrite init_of_struct_error; [reflexivity|].
        rewrite Hb. unfold _get_memory_address_range. unfold bind at 1 2.
        erewrite send_and_receive_silent;
          [reflexivity | reflexivity | reflexivity | reflexivity | reflexivity].
      + intros data' rest' -> Hl.
        erewrite init_of_struct_error; [reflexivity|].
        rewrite Hb. unfold _get_memory_address_range. unfold bind at 1 2.
        erewrite send_and_receive_short;
          [reflexivity | reflexivity | reflexivity | reflexivity | reflexivity
          | exact Hl].
      + intros rest' ->.
        erewrite init_of_other_error; [reflexivity | | discriminate].
        rewrite Hb. unfold _get_memory_address_range. unfold bind at 1 2.
        erewrite send_and_receive_fault;
          [reflexivity | reflexivity | reflexivity | reflexivity | reflexivity].
Qed.

  (** An answer to [READ_VERSION] as a device may send it: the pad bytes of
      the format are not zero, and more bytes follow the 37 that are read. *)
Lemma bring_up_decoding_failure_witness :
  let answer := [0; 0; 0; 0; 0; 0; 0; 0; 0; 0; 0;
                 2; 1; 0; 1; 0xEE; 0xEE; 0x56; 0x34; 0xEE; 0xEE; 0; 4; 8; 0;
                 0xEE; 0xEE; 0xEE; 0xEE; 0xEE; 0xEE; 0xEE; 0xEE; 0xEE; 0xEE;
                 0xEE; 0xEE; 0x99] in
  fst (__init__ (port [Rx answer; Rx [0x0B; 0; 0]])) = Raise no_response /\
  fst (__init__ (port [Rx answer])) = Raise no_response /\
  fst (__init__ (port [Rx answer; RxFault])) = Raise SerialException /\
  fst (__init__ (port [Rx [0; 0; 0; 0]])) = Raise no_response /\
  fst (__init__ (port [])) = Raise no_response /\
  fst (__init__ (port [RxFault; Rx answer])) = Raise SerialException.
Proof.
  cbv zeta.
  set (answer := [0; 0; 0; 0; 0; 0; 0; 0; 0; 0; 0;
                  2; 1; 0; 1; 0xEE; 0xEE; 0x56; 0x34; 0xEE; 0xEE; 0; 4; 8; 0;
                  0xEE; 0xEE; 0xEE; 0xEE; 0xEE; 0xEE; 0xEE; 0xEE; 0xEE; 0xEE;
                  0xEE; 0xEE; 0x99]).
  pose (v := mkVersion (Command READ_VERSION 0 0 0) 0x0102 256 0x3456 1024 8).
  assert (Hd : class_from_bytes VersionT (firstn 37 answer) = Some (IsVersion v))
    by reflexivity.
  assert (Hafter : forall rest,
             (rest = [] ->
              fst (__init__ (port (Rx answer :: rest))) = Raise no_response) /\
             (forall data' rest',
                 rest = Rx data' :: rest' -> (List.length data' < 20)%nat ->
                 fst (__init__ (port (Rx answer :: rest))) = Raise no_response) /\
             (forall rest',
                 rest = RxFault :: rest' ->
                 fst (__init__ (port (Rx answer :: rest))) = Raise SerialException)).
  { intros rest.
    exact (proj2 (proj2 (proj2 (proj2 (proj2 (proj2
             (bring_up_decoding_failure (port (Rx answer :: rest))))))))
             answer v rest eq_refl Hd eq_refl). }
  split; [|split; [|split; [|split; [|split]]]].
  - apply (proj1 (proj2 (Hafter [Rx [0x0B; 0; 0]])) [0x0B; 0; 0] []);
      [reflexivity | cbn; lia].
  - apply (proj1 (Hafter [])). reflexivity.
  - apply (proj2 (proj2 (Hafter [RxFault])) []). reflexivity.
  - apply (proj1 (proj2 (proj2 (proj2 (proj2
             (bring_up_decoding_failure (port [Rx [0; 0; 0; 0]]))))))
             [0; 0; 0; 0] []).
    + reflexivity.
    + cbn. lia.
  - apply (proj1 (proj2 (proj2 (proj2 (bring_up_decoding_failure (port [])))))).
    reflexivity.
  - apply (proj1 (proj2 (proj2 (proj2 (proj2 (proj2
             (bring_up_decoding_failure (port [RxFault; Rx answer])))))))
             [Rx answer]).
    reflexivity.
Defined.

End BringUp.

(** ** Runs of [flash] on the scenario device *)

Section Runs.

  (** C6.  The image has data at byte addresses 0x3FFE and 0x3FFF, inside
      the doubled program range [0x2000, 0x4000), and [flash] still fails
      with the empty-image error, before any exchange: the slice it takes
      ends at twice the last element of the memory range, 0x3FFE. *)
Theorem last_word_is_out_of_scope :
    let w := port (blank_device_accepting image_last_word) in
    addresses image_last_word = [0x3FFE; 0x3FFF] /\
    range_first (_memory_range scenario_device) = Return 0x1000 /\
    range_last (_memory_range scenario_device) = Return 0x1FFF /\
    flash_scope scenario_device image_last_word = Return [] /\
    flash scenario_device image_last_word true w = (Raise empty_image, w).
Proof. cbv zeta. repeat split; vm_compute; reflexivity. Qed.

  (** C2.  On the scenario device the chunk size is 240.  A segment of 241
      bytes gets one chunk, the addresses 0x2000 to 0x20EF, and a segment of
      one byte gets none: the last byte of either is in no chunk.  The run of
      [flash] on the 241 bytes completes having written 240 of them. *)
Theorem chunks_miss_the_last_byte :
    let chunk := segment_at 0x2000 (repeat 1 240) in
    let run := flash scenario_device image241 true
                     (port (blank_device_accepting chunk)) in
    _chunk image241 240 = Return [chunk] /\
    _chunk (segment_at 0x2000 [7]) 240 = Return [] /\
    fst run = Return tt /\
    trace_of run =
      tx_event (Command SELF_VERIFY 0 0 0) [] ++
      write_events 8 chunk ++ checksum_events chunk ++ [Callback 240 241] ++
      tx_event (Command SELF_VERIFY 0 0 0) [].
Proof. cbv zeta. repeat split; vm_compute; reflexivity. Qed.

  (** C8 does not hold as stated: in the run of [flash] on the twenty
      bytes of the scenario, the [CALC_CHECKSUM] exchange of the chunk comes
      before the progress callback, not after it; and when the checksums
      differ the callback is not invoked at all. *)
Lemma callback_follows_checksum :
  let run := flash scenario_device image20 true
                   (port (blank_device_accepting image20)) in
  let failed := flash scenario_device image20 true
                   (port [respond SELF_VERIFY VERIFY_FAIL;
                          respond WRITE_FLASH SUCCESS;
                          respond_checksum 0]) in
  trace_of run =
    tx_event (Command SELF_VERIFY 0 0 0) [] ++
    write_events 8 image20 ++ checksum_events image20 ++ [Callback 20 20] ++
    tx_event (Command SELF_VERIFY 0 0 0) [] /\
  trace_of run <>
    tx_event (Command SELF_VERIFY 0 0 0) [] ++
    claimed_chunk_events scenario_device 20 0 image20 ++
    tx_event (Command SELF_VERIFY 0 0 0) [] /\
  (forall chk, checksum_events image20 = [chk] ->
     happens_before (Callback 20 20) chk (trace_of run) = false /\
     happens_before chk (Callback 20 20) (trace_of run) = true) /\
  fst failed = Raise checksum_mismatch /\
  position (Callback 20 20) (trace_of failed) = None.
Proof.
  cbv zeta. split; [vm_compute; reflexivity|].
  split; [vm_compute; discriminate|].
  split; [|split; vm_compute; reflexivity].
  intros chk Hc. vm_compute in Hc. injection Hc as <-.
  split; vm_compute; reflexivity.
Qed.

End Runs.

(** ** Checksums *)

Section Checksums.

Lemma group_term_nil : group_term [] = 0.
Proof. reflexivity. Qed.

(** The running sum, one group at a time. *)
Lemma spec_running_sum_step bs :
  spec_running_sum bs = group_term (firstn 4 bs) + spec_running_sum (skipn 4 bs).
Proof.
  destruct bs as [|b0 [|b1 [|b2 [|b3 rest]]]];
    cbn [spec_running_sum firstn skipn]; rewrite ?group_term_nil; lia.
Qed.

Lemma skipn_skipn_add {T} (l : list T) a b : skipn a (skipn b l) = skipn (b + a) l.
Proof.
  revert l; induction b as [|b IH]; intros l; [reflexivity|].
  destruct l; [now rewrite !skipn_nil | apply IH].
Qed.

(** The loop of [_get_local_checksum] from group [o] on, for [n] groups that
    exhaust the segment. *)
Lemma local_checksum_loop s bs : 0 <= s -> forall n o acc,
  (List.length (skipn (4 * o) bs) <= 4 * n)%nat ->
  fold_left
    (fun acc i =>
       let databytes := tobinstr (slice (segment_at s bs) i (i + 4)) in
       acc + Z.land (Struct.from_le databytes) 0xFFFF
           + Z.land (Z.shiftr (Struct.from_le databytes) 16) 0xFF)
    (map (fun k => s + Z.of_nat k * 4) (seq o n)) acc
  = acc + spec_running_sum (skipn (4 * o) bs).
Proof.
  intros Hs. induction n as [|n IH]; intros o acc Hlen.
  - destruct (skipn (4 * o) bs); [cbn; lia | cbn in Hlen; lia].
  - cbn [seq map fold_left]. cbv zeta.
    rewrite slice_segment_at by lia. rewrite tobinstr_segment_at.
    replace (Z.to_nat (s + Z.of_nat o * 4 + 4 - (s + Z.of_nat o * 4))) with 4%nat by lia.
    replace (Z.to_nat (s + Z.of_nat o * 4 - s)) with (4 * o)%nat by lia.
    rewrite IH.
    + rewrite (spec_running_sum_step (skipn (4 * o) bs)).
      rewrite skipn_skipn_add. replace (4 * o + 4)%nat with (4 * S o)%nat by lia.
      unfold group_term. lia.
    + replace (4 * S o)%nat with (4 * o + 4)%nat by lia.
      rewrite <- skipn_skipn_add. rewrite length_skipn. lia.
Qed.

(** The engine's local checksum of a segment is the checksum of the
    specification: the sum, over the groups of four bytes, of the lower 16
    bits and the bits 16 to 23 of the little-endian group, mod 65536. *)
Lemma local_checksum_refines s bs :
  0 <= s -> bs <> [] ->
  _get_local_checksum (segment_at s bs) = Return (spec_local_checksum bs).
Proof.
  intros Hs Hne. destruct bs as [|b bs]; [congruence|].
  unfold _get_local_checksum. rewrite minaddr_segment_at. cbv zeta.
  rewrite ih_len_segment_at. unfold range_elements.
  cbn [range_start range_step].
  set (L := Z.of_nat (List.length (b :: bs))).
  assert (HL : 0 < L) by (subst L; cbn [List.length]; lia).
  assert (Hn : range_len (mkRange s (s + L) 4) = (L - 1) / 4 + 1).
  { unfold range_len. cbv beta iota zeta. change (0 <? 4) with true. cbv iota.
    replace (s <? s + L) with true by (symmetry; apply Z.ltb_lt; lia).
    replace (s + L - s - 1) with (L - 1) by lia. reflexivity. }
  rewrite Hn. rewrite local_checksum_loop.
  - change (4 * 0)%nat with 0%nat; cbn [skipn]. unfold spec_local_checksum.
    rewrite Z.add_0_l. change 65535 with (Z.ones 16).
    rewrite Z.land_ones by lia. reflexivity.
  - exact Hs.
  - change (4 * 0)%nat with 0%nat; cbn [skipn]. subst L.
    pose proof (Z.div_mod (Z.of_nat (List.length (b :: bs)) - 1) 4 ltac:(lia)).
    pose proof (Z.mod_pos_bound (Z.of_nat (List.length (b :: bs)) - 1) 4 ltac:(lia)).
    assert (0 <= (Z.of_nat (List.length (b :: bs)) - 1) / 4)
      by (apply Z.div_pos; lia).
    lia.
Qed.

(** C1.  For a segment of bytes [bs] at byte address [s]: the local
    checksum is the one of the specification; [_checksum] sends
    [CALC_CHECKSUM] with [address = s >> 1] and [data_length = len bs] and
    nothing else; and when the device answers with a successful checksum
    response, [_checksum] raises the checksum-mismatch error exactly when
    the two checksums differ, and returns exactly when they agree. *)
Theorem local_and_onboard_checksum
    (s : Z) (bs : list Z) (w : World) (c : Checksum) (cdata : list Z)
    (rest : list RxEvent)
    (Hs : 0 <= s) (Hne : bs <> [])
    (Hlen : Z.of_nat (List.length bs) < 65536)
    (Haddr : Z.shiftr s 1 < 4294967296)
    (Hc : ChecksumPacket_bytes c = Some cdata)
    (Hecho : command (response_base (checksum_base c)) =
             BootCommand_value CALC_CHECKSUM)
    (Hok : success (checksum_base c) = BootResponse_value SUCCESS)
    (Hrx : rx w = Rx cdata :: rest) :
  let seg := segment_at s bs in
  _get_local_checksum seg = Return (spec_local_checksum bs) /\
  exists packed,
    Packet_bytes (Command CALC_CHECKSUM (Z.of_nat (List.length bs)) 0
                          (Z.shiftr s 1)) = Some packed /\
    snd (_checksum seg w) = after_exchange w packed rest /\
    (fst (_checksum seg w) = Raise checksum_mismatch <->
     spec_local_checksum bs <> checksum c) /\
    (fst (_checksum seg w) = Return tt <-> spec_local_checksum bs = checksum c).
Proof.
  cbv zeta. split; [now apply local_checksum_refines|].
  destruct (Packet_roundtrip
              (Command CALC_CHECKSUM (Z.of_nat (List.length bs)) 0 (Z.shiftr s 1)))
    as (packed & Hp & _).
  { unfold Packet_in_width, u8, u16, u32, Command.
    cbn [command data_length unlock_sequence address BootCommand_value].
    assert (0 <= Z.shiftr s 1) by (apply Z.shiftr_nonneg; lia). lia. }
  exists packed. split; [exact Hp|].
  assert (Hl : List.length cdata = 14%nat)
    by (eapply pack_length; [exact Hc | reflexivity]).
  assert (Hd : class_from_bytes ChecksumT (firstn 14 cdata) = Some (IsChecksum c)).
  { rewrite <- Hl, firstn_all. cbn [class_from_bytes].
    unfold ChecksumPacket_bytes in Hc. apply unpack_pack in Hc.
    unfold ChecksumPacket_from_bytes. rewrite Hc.
    destruct c as [[[cc l u a] sc] k]. reflexivity. }
  assert (Hv : _verify_good_response
                 (Command CALC_CHECKSUM (Z.of_nat (List.length bs)) 0 (Z.shiftr s 1))
                 (IsChecksum c) = Return tt).
  { unfold _verify_good_response. cbn [ResponseBase_command].
    rewrite Hecho, Hok. reflexivity. }
  assert (Hrun : _checksum (segment_at s bs) w =
                 (if negb (spec_local_checksum bs =? checksum c)
                  then Raise checksum_mismatch else Return tt,
                  after_exchange w packed rest)).
  { unfold _checksum. unfold bind at 1. unfold lift.
    rewrite local_checksum_refines by assumption.
    destruct bs as [|b bs]; [congruence|].
    rewrite minaddr_segment_at. unfold bind at 1. cbn [or_raise ret].
    rewrite ih_len_segment_at. unfold _get_remote_checksum. unfold bind at 1 2.
    erewrite send_and_receive_decoded;
      [| exact Hp | reflexivity | reflexivity | exact Hrx | exact Hd].
    rewrite Hv. rewrite app_nil_r. cbv beta iota. cbn [ret].
    destruct (spec_local_checksum (b :: bs) =? checksum c); reflexivity. }
  rewrite Hrun. cbn [fst snd]. split; [reflexivity|].
  destruct (spec_local_checksum bs =? checksum c) eqn:E; cbn [negb].
  - apply Z.eqb_eq in E. split; split; intros H; try discriminate; congruence.
  - apply Z.eqb_neq in E. split; split; intros H; try discriminate; congruence.
Qed.

Lemma local_and_onboard_checksum_witness :
  let bs := map Z.of_nat (seq 1 20) in
  let w := port [respond_checksum 12900] in
  _get_local_checksum (segment_at 0x2000 bs) = Return 12900 /\
  fst (_checksum (segment_at 0x2000 bs) w) = Return tt.
Proof.
  cbv zeta.
  pose (c := mkChecksum (mkResponse (Command CALC_CHECKSUM 0 0 0)
                                    (BootResponse_value SUCCESS)) 12900).
  assert (Hc : exists cdata, ChecksumPacket_bytes c = Some cdata /\
                             respond_checksum 12900 = Rx cdata)
    by (eexists; split; reflexivity).
  destruct Hc as (cdata & Hc & Hr).
  destruct (local_and_onboard_checksum 0x2000 (map Z.of_nat (seq 1 20))
              (port [respond_checksum 12900]) c cdata [])
    as (Hlocal & packed & _ & _ & _ & Hret).
  - lia.
  - discriminate.
  - cbn. lia.
  - cbn. lia.
  - exact Hc.
  - reflexivity.
  - reflexivity.
  - unfold port. cbn [rx]. now rewrite Hr.
  - split; [exact Hlocal|]. apply Hret. reflexivity.
Defined.

End Checksums.

(** ** The order of events in [flash] *)

Section Order.

Lemma prefix_of_nil l : prefix_of [] l.
Proof. now exists l. Qed.

Lemma prefix_of_refl l : prefix_of l l.
Proof. exists []. now rewrite app_nil_r. Qed.

Lemma prefix_of_app a b : prefix_of a (a ++ b).
Proof. now exists b. Qed.

Lemma prefix_of_app_app a b c : prefix_of b c -> prefix_of (a ++ b) (a ++ c).
Proof. intros [rest ->]. exists rest. now rewrite app_assoc. Qed.

Lemma prefix_of_app_r a b c : prefix_of a b -> prefix_of a (b ++ c).
Proof. intros [rest ->]. exists (rest ++ c). now rewrite app_assoc. Qed.

(** [_write_flash] either raises before writing anything, or makes exactly
    its exchange. *)
Lemma write_flash_trace chunk align w :
  let run := _write_flash chunk align w in
  trace (snd run) = trace w ++ write_events align chunk \/
  (trace (snd run) = trace w /\ exists e, fst run = Raise e).
Proof.
  cbv zeta. unfold _write_flash, write_events, pymod, lift, bind, or_raise.
  destruct (align =? 0); cbv beta iota; [right; split; [reflexivity | eexists; reflexivity]|].
  destruct (minaddr chunk) as [lo|]; cbv beta iota delta [ret raise];
    [|right; split; [reflexivity | eexists; reflexivity]].
  left.
  match goal with |- context [_send_and_receive ?c ?d w] =>
    pose proof (send_and_receive_frame c d w) as Hf;
    destruct (_send_and_receive c d w) as [[r|e] w1] end;
    cbn [fst snd] in *; tauto.
Qed.

(** Likewise for [_checksum]. *)
Lemma checksum_trace chunk w :
  let run := _checksum chunk w in
  trace (snd run) = trace w ++ checksum_events chunk \/
  (trace (snd run) = trace w /\ exists e, fst run = Raise e).
Proof.
  cbv zeta. unfold _checksum, checksum_events, _get_remote_checksum, lift, bind, or_raise.
  destruct (_get_local_checksum chunk) as [sum|e]; cbv beta iota;
    [|right; split; [reflexivity | eexists; reflexivity]].
  destruct (minaddr chunk) as [lo|]; cbv beta iota delta [ret raise];
    [|right; split; [reflexivity | eexists; reflexivity]].
  left.
  match goal with |- context [_send_and_receive ?c ?d w] =>
    pose proof (send_and_receive_frame c d w) as Hf;
    destruct (_send_and_receive c d w) as [[r|e] w1] end;
    cbn [fst snd] in *; [|tauto].
  destruct r; cbn [fst snd]; try tauto.
  destruct (negb (sum =? checksum c)); cbn [fst snd]; tauto.
Qed.

Lemma chunks_events_app self cb total l1 : forall written l2,
  chunks_events self cb total written (l1 ++ l2) =
  chunks_events self cb total written l1 ++
  chunks_events self cb total (written + total_len l1) l2.
Proof.
  induction l1 as [|c l1 IH]; intros written l2.
  - cbn. now rewrite Z.add_0_r.
  - cbn [app chunks_events]. rewrite IH, <- app_assoc.
    do 3 f_equal. unfold total_len. cbn. fold (total_len l1). lia.
Qed.

End Order.

(** ** Which bytes the chunks of a segment hold *)

Section Chunks.

Lemma range_len_up lo hi step :
  0 < step ->
  range_len (mkRange lo hi step) =
    if lo <? hi then (hi - lo - 1) / step + 1 else 0.
Proof.
  intros Hstep. unfold range_len.
  replace (0 <? step) with true by (symmetry; apply Z.ltb_lt; lia). reflexivity.
Qed.

(** The chunks of a segment, one per element of
    [range(minaddr, maxaddr, size)]. *)
Lemma chunk_segment_at s b bs size :
  0 <= s -> 0 < size ->
  _chunk (segment_at s (b :: bs)) size =
    Return
      (map (fun k =>
              segment_at (s + Z.of_nat k * size)
                         (firstn (Z.to_nat size)
                                 (skipn (k * Z.to_nat size) (b :: bs))))
           (seq 0 (Z.to_nat
                     (range_len (mkRange s (s + Z.of_nat (List.length bs)) size))))).
Proof.
  intros Hs Hsize. unfold _chunk.
  rewrite minaddr_segment_at, maxaddr_segment_at. unfold range3.
  replace (size =? 0) with false by (symmetry; apply Z.eqb_neq; lia).
  f_equal. unfold range_elements. rewrite map_map.
  apply map_ext. intros k. cbn [range_start range_step].
  rewrite slice_segment_at by lia.
  replace (Z.to_nat (s + Z.of_nat k * size + size - (s + Z.of_nat k * size)))
    with (Z.to_nat size) by lia.
  replace (Z.to_nat (s + Z.of_nat k * size - s)) with (k * Z.to_nat size)%nat by nia.
  reflexivity.
Qed.

Lemma firstn_add {T} (l : list T) : forall a b,
  firstn (a + b) l = firstn a l ++ firstn b (skipn a l).
Proof.
  induction l as [|y l IH]; intros a b.
  - now rewrite !firstn_nil, skipn_nil, firstn_nil.
  - destruct a; [reflexivity|]. cbn. now rewrite IH.
Qed.

Lemma concat_pieces (l : list Z) sz : forall n,
  List.concat (map (fun k => firstn sz (skipn (k * sz) l)) (seq 0 n)) =
  firstn (n * sz) l.
Proof.
  induction n as [|n IH]; [reflexivity|].
  rewrite seq_S, map_app, concat_app, IH. cbn [map List.concat Nat.add].
  rewrite app_nil_r. replace (S n * sz)%nat with (n * sz + sz)%nat by lia.
  now rewrite firstn_add.
Qed.

(** For a segment of [len] bytes and a positive chunk size: every chunk has
    at most [size] bytes, and the chunks, in order, hold the first
    [n * size] bytes of the segment, [n] being the number of elements of
    [range(minaddr, maxaddr, size)]. *)
Lemma chunk_bytes s bs size :
  0 <= s -> 0 < size -> bs <> [] ->
  exists chunks,
    _chunk (segment_at s bs) size = Return chunks /\
    Forall (fun c => ih_len c <= size) chunks /\
    List.concat (map tobinstr chunks) =
      firstn (Z.to_nat
                (range_len (mkRange s (s + Z.of_nat (List.length bs) - 1) size))
              * Z.to_nat size) bs.
Proof.
  intros Hs Hsize Hne. destruct bs as [|b bs]; [congruence|].
  eexists. split; [apply chunk_segment_at; lia|].
  replace (s + Z.of_nat (List.length (b :: bs)) - 1)
    with (s + Z.of_nat (List.length bs)) by (cbn [List.length]; lia).
  split.
  - apply Forall_forall. intros c Hc. apply in_map_iff in Hc.
    destruct Hc as (k & <- & _). rewrite ih_len_segment_at.
    rewrite length_firstn. lia.
  - rewrite map_map.
    erewrite map_ext; [apply concat_pieces|].
    intros k. apply tobinstr_segment_at.
Qed.

(** X23.  When [len - 1] is no multiple of the chunk size, the chunks of
    [_chunk] hold, in order, all the bytes of the segment. *)
Lemma chunks_cover_off_boundary s bs size :
  0 <= s -> 0 < size -> bs <> [] ->
  (Z.of_nat (List.length bs) - 1) mod size <> 0 ->
  exists chunks,
    _chunk (segment_at s bs) size = Return chunks /\
    List.concat (map tobinstr chunks) = bs.
Proof.
  intros Hs Hsize Hne Hmod.
  destruct (chunk_bytes s bs size Hs Hsize Hne) as (chunks & Hc & _ & Hb).
  exists chunks. split; [exact Hc|]. rewrite Hb. apply firstn_all2.
  set (L := Z.of_nat (List.length bs)) in *.
  assert (HL : 1 <= L).
  { subst L. destruct bs; [congruence | cbn [List.length]; lia]. }
  pose proof (Z.div_mod (L - 1) size ltac:(lia)) as Hdm.
  pose proof (Z.mod_pos_bound (L - 1) size Hsize) as Hr.
  set (q := (L - 1) / size) in *. set (r := (L - 1) mod size) in *.
  assert (Hq : 0 <= q) by (subst q; apply Z.div_pos; lia).
  rewrite range_len_up by lia.
  replace (s <? s + L - 1) with true by (symmetry; apply Z.ltb_lt; nia).
  replace (s + L - 1 - s - 1) with (size * q + (r - 1)) by lia.
  rewrite <- (Z.div_unique_pos (size * q + (r - 1)) size q (r - 1)) by lia.
  rewrite <- Z2Nat.inj_mul by lia. apply Nat2Z.inj_le.
  rewrite Z2Nat.id by nia. fold L. nia.
Qed.

(** X24.  When [len - 1] is a multiple of the chunk size, the chunks of
    [_chunk] hold all the bytes of the segment but the last one. *)
Lemma chunks_drop_last_on_boundary s bs size :
  0 <= s -> 0 < size -> bs <> [] ->
  (Z.of_nat (List.length bs) - 1) mod size = 0 ->
  exists chunks,
    _chunk (segment_at s bs) size = Return chunks /\
    List.concat (map tobinstr chunks) = removelast bs.
Proof.
  intros Hs Hsize Hne Hmod.
  destruct (chunk_bytes s bs size Hs Hsize Hne) as (chunks & Hc & _ & Hb).
  exists chunks. split; [exact Hc|]. rewrite Hb.
  rewrite removelast_firstn_len. f_equal.
  assert (Hlen : (1 <= List.length bs)%nat).
  { destruct bs; [congruence | cbn [List.length]; lia]. }
  set (L := Z.of_nat (List.length bs)) in *.
  assert (HL : 1 <= L) by (subst L; lia).
  pose proof (Z.div_mod (L - 1) size ltac:(lia)) as Hdm.
  rewrite Hmod in Hdm. set (q := (L - 1) / size) in *.
  assert (Hq : 0 <= q) by (subst q; apply Z.div_pos; lia).
  rewrite range_len_up by lia.
  destruct (s <? s + L - 1) eqn:E.
  - apply Z.ltb_lt in E.
    replace (s + L - 1 - s - 1) with (size * (q - 1) + (size - 1)) by lia.
    rewrite <- (Z.div_unique_pos (size * (q - 1) + (size - 1)) size (q - 1) (size - 1))
      by lia.
    rewrite <- Z2Nat.inj_mul by lia. apply Nat2Z.inj.
    rewrite Z2Nat.id by nia. rewrite Nat2Z.inj_pred by lia.
    fold L. lia.
  - apply Z.ltb_ge in E. assert (HL1 : L = 1) by lia.
    cbn [Z.to_nat Nat.mul]. subst L. lia.
Qed.

End Chunks.

(** ** What [flash] takes from the image, and in which order *)

Section Scope.

Lemma fold_min_le l : forall a,
  fold_left Z.min l a <= a /\ Forall (fun y => fold_left Z.min l a <= y) l.
Proof.
  induction l as [|y l IH]; intros a; cbn [fold_left].
  - split; [lia | constructor].
  - destruct (IH (Z.min a y)) as [H1 H2]. split; [lia|].
    constructor; [lia | exact H2].
Qed.

Lemma minaddr_le h lo :
  minaddr h = Some lo -> Forall (fun k => lo <= k) (addresses h).
Proof.
  unfold minaddr. destruct (addresses h) as [|a l]; [discriminate|].
  intros [= <-]. destruct (fold_min_le l a) as [H1 H2]. now constructor.
Qed.

Lemma minaddr_maxaddr_none h :
  minaddr h = None \/ maxaddr h = None -> _buf h = [].
Proof.
  unfold minaddr, maxaddr, addresses.
  destruct (_buf h); [reflexivity | cbn; intros [H|H]; discriminate].
Qed.

(** With program memory [range(a, b)], the data [flash] keeps is the data
    at the byte addresses from [2 * a] up to, not including, [2 * b - 2]. *)
Lemma slice_of_program_memory h a b :
  Forall (fun k => 0 <= k) (addresses h) -> 0 <= a -> 1 < b ->
  _buf (slice h (2 * a) (2 * (b - 1))) =
    filter (window (2 * a) (2 * b - 2)) (_buf h).
Proof.
  intros Hnn Ha Hb. unfold slice.
  destruct (minaddr h) as [lo|] eqn:Hlo.
  2:{ rewrite (minaddr_maxaddr_none h (or_introl Hlo)). reflexivity. }
  destruct (maxaddr h) as [hi|] eqn:Hhi.
  2:{ rewrite (minaddr_maxaddr_none h (or_intror Hhi)). reflexivity. }
  cbn [_buf].
  replace (2 * (b - 1) =? 0) with false by (symmetry; apply Z.eqb_neq; lia).
  replace (2 * (b - 1)) with (2 * b - 2) by lia.
  apply filter_ext_in. intros kv Hin.
  assert (Hk : lo <= fst kv /\ 0 <= fst kv).
  { pose proof (minaddr_le h lo Hlo) as Hm. unfold addresses in *.
    rewrite Forall_forall in Hm, Hnn.
    split; [apply Hm | apply Hnn]; now apply in_map. }
  unfold window. destruct (2 * a =? 0) eqn:E; [|reflexivity].
  apply Z.eqb_eq in E. rewrite E.
  replace (lo <=? fst kv) with true by (symmetry; apply Z.leb_le; lia).
  replace (0 <=? fst kv) with true by (symmetry; apply Z.leb_le; lia).
  reflexivity.
Qed.

Lemma range_first_range2 a b : a < b -> range_first (range2 a b) = Return a.
Proof.
  intros Hab. unfold range_first, range_elements.
  rewrite range_len_range2 by lia.
  destruct (Z.to_nat (b - a)) eqn:E; [lia|].
  cbn. f_equal. lia.
Qed.

Lemma range_last_range2 a b : a < b -> range_last (range2 a b) = Return (b - 1).
Proof.
  intros Hab. unfold range_last, range_elements.
  rewrite range_len_range2 by lia.
  destruct (Z.to_nat (b - a)) as [|n] eqn:E; [lia|].
  cbn [seq map]. rewrite <- (last_cons_default _ _ 0).
  change (range_start (range2 a b) + Z.of_nat 0 * range_step (range2 a b)
          :: map (fun k : nat => range_start (range2 a b) +
                                 Z.of_nat k * range_step (range2 a b)) (seq 1 n))
    with (map (fun k : nat => range_start (range2 a b) +
                              Z.of_nat k * range_step (range2 a b)) (seq 0 (S n))).
  rewrite last_map_seq. cbn [range_start range_step range2]. f_equal. lia.
Qed.

Lemma runs_nonempty rest : forall first prev, runs first prev rest <> [].
Proof.
  induction rest as [|a rest IH]; intros first prev; cbn; [discriminate|].
  destruct (1 <? a - prev); [discriminate | apply IH].
Qed.

Lemma segments_nil h : segments h = [] <-> _buf h = [].
Proof.
  unfold segments, addresses. destruct (_buf h) as [|kv buf]; cbn.
  - tauto.
  - split; [intros H; now apply runs_nonempty in H | discriminate].
Qed.

Lemma filter_nil_iff {T} (f : T -> bool) l :
  filter f l = [] <-> forall y, In y l -> f y = false.
Proof.
  induction l as [|z l IH]; cbn.
  - tauto.
  - destruct (f z) eqn:E.
    + split; [discriminate|]. intros H. specialize (H z (or_introl eq_refl)). congruence.
    + rewrite IH. split.
      * intros H y [<-|Hy]; auto.
      * intros H y Hy. apply H. now right.
Qed.

(** X25.  With program memory [range(a, b)], nothing of the image is in
    scope exactly when the image has no data at a byte address from [2 * a]
    up to, not including, [2 * b - 2]. *)
Lemma flash_scope_empty_iff self h a b :
  _memory_range self = range2 a b ->
  Forall (fun k => 0 <= k) (addresses h) -> 0 <= a -> a < b -> 1 < b ->
  (flash_scope self h = Return [] <->
   forall k, In k (addresses h) -> ~ (2 * a <= k < 2 * b - 2)).
Proof.
  intros Hr Hnn Ha Hab Hb.
  assert (Hscope : flash_scope self h =
                   Return (map (fun ul => slice (slice h (2 * a) (2 * (b - 1)))
                                                (fst ul) (snd ul))
                               (segments (slice h (2 * a) (2 * (b - 1)))))).
  { unfold flash_scope. rewrite Hr, range_first_range2, range_last_range2 by lia.
    reflexivity. }
  assert (Hempty : segments (slice h (2 * a) (2 * (b - 1))) = [] <->
                   forall k, In k (addresses h) -> ~ (2 * a <= k < 2 * b - 2)).
  { rewrite segments_nil, slice_of_program_memory by assumption.
    rewrite filter_nil_iff. unfold addresses, window. split.
    - intros H k Hk. apply in_map_iff in Hk. destruct Hk as (kv & <- & Hkv).
      specialize (H kv Hkv). apply andb_false_iff in H.
      destruct H as [H|H]; [apply Z.leb_gt in H | apply Z.ltb_ge in H]; lia.
    - intros H kv Hkv. specialize (H (fst kv) (in_map fst _ _ Hkv)).
      apply andb_false_iff.
      destruct (Z_le_gt_dec (2 * a) (fst kv));
        [right; apply Z.ltb_ge | left; apply Z.leb_gt]; lia. }
  rewrite <- Hempty, Hscope.
  destruct (segments (slice h (2 * a) (2 * (b - 1)))); cbn [map].
  - tauto.
  - split; discriminate.
Qed.

(** With nothing in scope, [flash] raises the empty-image error and leaves
    the world as it found it: no exchange is made. *)
Lemma flash_raises_empty_image self h cb w :
  flash_scope self h = Return [] -> flash self h cb w = (Raise empty_image, w).
Proof. intros Hs. unfold flash, bind, lift. now rewrite Hs. Qed.

(** The elements of a range with a positive step ascend: the chunks of a
    segment are taken at ascending addresses. *)
Lemma range_elements_ascending r :
  0 < range_step r -> StronglySorted Z.lt (range_elements r).
Proof.
  intros Hstep. unfold range_elements.
  generalize (Z.to_nat (range_len r)) as n. generalize 0%nat as o.
  intros o n; revert o. induction n as [|n IH]; intros o; cbn [seq map].
  - constructor.
  - constructor; [apply IH|].
    apply Forall_forall. intros y Hy. apply in_map_iff in Hy.
    destruct Hy as (k & <- & Hk). apply in_seq in Hk. nia.
Qed.

(** For an image listed by ascending address, [segments] yields non-empty
    address intervals, each ending before the next begins. *)
Lemma runs_ascending rest : forall first prev,
  first <= prev -> StronglySorted Z.lt (prev :: rest) ->
  Forall (fun p => first <= fst p < snd p) (runs first prev rest) /\
  StronglySorted (fun p q => snd p <= fst q) (runs first prev rest).
Proof.
  induction rest as [|a rest IH]; intros first prev Hfp Hs; cbn [runs].
  - split; repeat constructor; cbn; lia.
  - apply StronglySorted_inv in Hs. destruct Hs as [Hs Hall].
    assert (Hpa : prev < a) by (now apply Forall_inv in Hall).
    destruct (1 <? a - prev) eqn:E.
    + apply Z.ltb_lt in E. destruct (IH a a ltac:(lia) Hs) as [HF HS].
      split.
      * constructor; [cbn; lia|].
        eapply Forall_impl; [|exact HF]. cbn. intros p Hp. lia.
      * constructor; [exact HS|].
        eapply Forall_impl; [|exact HF]. cbn. intros p Hp. lia.
    + apply IH; [lia | exact Hs].
Qed.

(** X26.  For an image whose addresses are listed in ascending order,
    [segments()] yields non-empty intervals [(first, last + 1)], each ending
    before the next begins: [flash] takes the segments by ascending
    address. *)
Lemma segments_ascending h :
  StronglySorted Z.lt (addresses h) ->
  Forall (fun p => fst p < snd p) (segments h) /\
  StronglySorted (fun p q => snd p <= fst q) (segments h).
Proof.
  intros Hs. unfold segments. destruct (addresses h) as [|a rest].
  - split; constructor.
  - destruct (runs_ascending rest a a ltac:(lia) Hs) as [HF HS].
    split; [|exact HS]. eapply Forall_impl; [|exact HF]. cbn. intros p Hp. lia.
Qed.

End Scope.

(** ** More on the codec *)

Section CodecMore.

Lemma pack_calcsize fmt vs bs :
  Struct.pack fmt vs = Some bs -> Struct.calcsize fmt = Some (List.length bs).
Proof.
  unfold Struct.pack, Struct.calcsize.
  destruct (Struct.parse fmt) as [cs|]; [|discriminate].
  intros Hp. destruct (unpack_pack_items _ _ _ Hp) as [_ Hl]. cbn. now rewrite Hl.
Qed.

(** X1.  Whatever the field values, the encoding of a packet, when there is
    one, has the size [get_size] gives for its class. *)
Theorem encode_has_fixed_size (p : AnyPacket) (data : list Z)
    (Henc : encode p = Some data) :
  get_size_of p = Some (List.length data).
Proof.
  destruct p; cbn [encode get_size_of] in *; eapply pack_calcsize; exact Henc.
Qed.

Lemma encode_has_fixed_size_witness :
  let p := AChecksum (mkChecksum (response_of CALC_CHECKSUM SUCCESS) 0xBEEF) in
  exists data, encode p = Some data /\ List.length data = 14%nat.
Proof.
  cbv zeta.
  destruct (encode (AChecksum (mkChecksum (response_of CALC_CHECKSUM SUCCESS) 0xBEEF)))
    as [data|] eqn:E; [|vm_compute in E; discriminate E].
  exists data. split; [reflexivity|].
  pose proof (encode_has_fixed_size _ _ E) as H. cbn in H. now injection H.
Defined.

Ltac compute_parse :=
  repeat match goal with
    | |- context [Struct.parse ?f] =>
        let cs := eval vm_compute in (Struct.parse f) in
        change (Struct.parse f) with cs
    | H : context [Struct.parse ?f] |- _ =>
        let cs := eval vm_compute in (Struct.parse f) in
        change (Struct.parse f) with cs in H
    end.

Lemma unpack_of_size fmt cs data :
  Struct.parse fmt = Some cs ->
  Struct.calcsize fmt = Some (List.length data) ->
  Struct.unpack fmt data = Some (Struct.unpack_items cs data).
Proof.
  unfold Struct.calcsize, Struct.unpack. intros -> [= Hs].
  now rewrite <- Hs, Nat.eqb_refl.
Qed.

(** X2.  Decoding with a class succeeds exactly on the buffers that have the
    size of the class; on any other buffer [struct.unpack] raises. *)
Theorem decode_needs_exact_size (like : AnyPacket) (data : list Z) :
  (exists p, decode_as like data = Some p) <->
  get_size_of like = Some (List.length data).
Proof.
  split.
  - intros [p Hp]. destruct like; cbn [decode_as get_size_of] in *;
      unfold Packet_from_bytes, VersionResponsePacket_from_bytes,
        ResponsePacket_from_bytes, MemoryRangePacket_from_bytes,
        ChecksumPacket_from_bytes in Hp;
      match type of Hp with
      | context [Struct.unpack ?f data] =>
          destruct (Struct.unpack f data) as [vs|] eqn:E; [|discriminate Hp];
          exact (unpack_length _ _ _ E)
      end.
  - intros Hs. destruct like; cbn [decode_as get_size_of] in *;
      unfold Packet_from_bytes, VersionResponsePacket_from_bytes,
        ResponsePacket_from_bytes, MemoryRangePacket_from_bytes,
        ChecksumPacket_from_bytes;
      match goal with
      | |- context [Struct.unpack ?f data] =>
          erewrite (unpack_of_size f _ data); [|vm_compute; reflexivity | exact Hs]
      end; cbn [Struct.unpack_items option_map]; eexists; reflexivity.
Qed.

Lemma in_range_B_inv v : Struct.in_range Struct.B v = true -> 0 <= v < 256.
Proof.
  unfold Struct.in_range; cbn. intros H. apply andb_true_iff in H as [H0 H1].
  apply Z.leb_le in H0. apply Z.ltb_lt in H1. lia.
Qed.
Lemma in_range_H_inv v : Struct.in_range Struct.H v = true -> 0 <= v < 65536.
Proof.
  unfold Struct.in_range; cbn. intros H. apply andb_true_iff in H as [H0 H1].
  apply Z.leb_le in H0. apply Z.ltb_lt in H1. lia.
Qed.
Lemma in_range_I_inv v : Struct.in_range Struct.I v = true -> 0 <= v < 4294967296.
Proof.
  unfold Struct.in_range; cbn. intros H. apply andb_true_iff in H as [H0 H1].
  apply Z.leb_le in H0. apply Z.ltb_lt in H1. lia.
Qed.

Ltac ranges_of E :=
  unfold Struct.pack in E; compute_parse;
  cbn [Struct.pack_items app Packet_values VersionResponsePacket_values
       ResponsePacket_values MemoryRangePacket_values ChecksumPacket_values
       command data_length unlock_sequence address version_base version
       max_packet_length device_id erase_size write_size response_base success
       memory_range_base program_start program_end checksum_base checksum] in E;
  repeat match type of E with
    | context [Struct.in_range ?c ?v] =>
        let R := fresh "R" in
        destruct (Struct.in_range c v) eqn:R; [|cbn in E; discriminate E]
    end;
  repeat match goal with
    | R : Struct.in_range Struct.B _ = true |- _ => apply in_range_B_inv in R
    | R : Struct.in_range Struct.H _ = true |- _ => apply in_range_H_inv in R
    | R : Struct.in_range Struct.I _ = true |- _ => apply in_range_I_inv in R
    end.

(** A packet that can be encoded has all its fields within their widths. *)
Lemma encode_some_in_width p data : encode p = Some data -> in_width p.
Proof.
  intros E.
  destruct p as [[c l u a] | [[c l u a] v m d e w] | [[c l u a] s]
                 | [[[c l u a] s] ps pe] | [[[c l u a] s] k]];
    cbn [encode] in E;
    unfold Packet_bytes, VersionResponsePacket_bytes, ResponsePacket_bytes,
      MemoryRangePacket_bytes, ChecksumPacket_bytes in E;
    ranges_of E;
    unfold in_width, ResponsePacket_in_width, Packet_in_width, u8, u16, u32;
    cbn; repeat split; lia.
Qed.

Lemma in_width_encode_some p : in_width p -> exists data, encode p = Some data.
Proof.
  intros Hw. destruct p as [p | p | p | p | p]; cbn [encode].
  - destruct (Packet_roundtrip p Hw) as (data & He & _). now exists data.
  - destruct (VersionResponsePacket_roundtrip p Hw) as (data & He & _). now exists data.
  - destruct (ResponsePacket_roundtrip p Hw) as (data & He & _). now exists data.
  - destruct (MemoryRangePacket_roundtrip p Hw) as (data & He & _). now exists data.
  - destruct (ChecksumPacket_roundtrip p Hw) as (data & He & _). now exists data.
Qed.

(** X3.  Encoding a packet succeeds exactly when every field lies within
    the width its format character declares; otherwise [struct.pack]
    raises. *)
Theorem encode_defined_iff_in_width (p : AnyPacket) :
  (exists data, encode p = Some data) <-> in_width p.
Proof.
  split.
  - intros [data E]. exact (encode_some_in_width p data E).
  - apply in_width_encode_some.
Qed.

Lemma from_le_bound bs :
  Forall is_byte bs -> 0 <= Struct.from_le bs < 256 ^ Z.of_nat (List.length bs).
Proof.
  induction 1 as [|b bs Hb _ IH]; [cbn; lia|].
  cbn [Struct.from_le List.length]. rewrite Nat2Z.inj_succ, Z.pow_succ_r by lia.
  unfold is_byte in Hb. nia.
Qed.

Lemma from_le_firstn_bound n data :
  Forall is_byte data -> 0 <= Struct.from_le (firstn n data) < 256 ^ Z.of_nat n.
Proof.
  intros Hb.
  assert (Hf : Forall is_byte (firstn n data)).
  { rewrite <- (firstn_skipn n data) in Hb. now apply Forall_app in Hb. }
  pose proof (from_le_bound _ Hf) as [H0 H1]. split; [exact H0|].
  eapply Z.lt_le_trans; [exact H1|].
  apply Z.pow_le_mono_r; [lia|]. pose proof (firstn_le_length n data). lia.
Qed.

Lemma Forall_skipn {T} (P : T -> Prop) n (l : list T) :
  Forall P l -> Forall P (skipn n l).
Proof.
  intros H. rewrite <- (firstn_skipn n l) in H. now apply Forall_app in H.
Qed.

Ltac repack_value Hrest :=
  cbn [Struct.unpack_items Struct.pack_items];
  match goal with
  | Hb : Forall is_byte ?d |- context [Struct.in_range ?c (Struct.from_le (firstn ?n ?d))] =>
      let Hr := fresh "Hr" in
      assert (Hr : Struct.in_range c (Struct.from_le (firstn n d)) = true);
      [ unfold Struct.in_range;
        pose proof (from_le_firstn_bound n d Hb) as Hbd;
        cbn in Hbd |- *; apply andb_true_iff;
        split; [apply Z.leb_le | apply Z.ltb_lt]; lia
      | rewrite Hr;
        let bs := fresh "bs" in
        let Hbs := fresh "Hbs" in
        destruct (Hrest n) as [bs Hbs]; rewrite Hbs; eexists; reflexivity ]
  end.

(** What was unpacked from bytes can be packed again. *)
Lemma repack_items cs : forall data,
  Forall is_byte data ->
  exists bs, Struct.pack_items cs (Struct.unpack_items cs data) = Some bs.
Proof.
  induction cs as [|c cs IH]; intros data Hb.
  - now exists [].
  - assert (Hrest : forall n, exists bs,
               Struct.pack_items cs (Struct.unpack_items cs (skipn n data)) = Some bs)
      by (intros n; apply IH, Forall_skipn, Hb).
    destruct c; [repack_value Hrest | repack_value Hrest | repack_value Hrest |].
    cbn [Struct.unpack_items Struct.pack_items].
    destruct (Hrest 1%nat) as [bs Hbs]. rewrite Hbs. eexists; reflexivity.
Qed.

Lemma unpack_repack fmt data vs :
  Forall is_byte data -> Struct.unpack fmt data = Some vs ->
  exists bs, Struct.pack fmt vs = Some bs.
Proof.
  unfold Struct.unpack, Struct.pack. intros Hb.
  destruct (Struct.parse fmt) as [cs|]; [|discriminate].
  destruct (Nat.eqb _ _); [|discriminate]. intros [= <-].
  now apply repack_items.
Qed.

(** X4.  A packet decoded from a byte string has every field within its
    width, so it can always be encoded again (formatting a response for the
    debug log cannot raise). *)
Theorem decoded_packet_in_width (like : AnyPacket) (data : list Z) (p : AnyPacket)
    (Hbytes : Forall is_byte data) (Hdec : decode_as like data = Some p) :
  in_width p /\ exists data', encode p = Some data'.
Proof.
  assert (He : exists data', encode p = Some data').
  { destruct like; cbn [decode_as] in Hdec;
      unfold Packet_from_bytes, VersionResponsePacket_from_bytes,
        ResponsePacket_from_bytes, MemoryRangePacket_from_bytes,
        ChecksumPacket_from_bytes in Hdec;
      match type of Hdec with
      | context [Struct.unpack ?f data] =>
          destruct (Struct.unpack f data) as [vs|] eqn:E; [|discriminate Hdec];
          destruct (unpack_repack f data vs Hbytes E) as [bs Hbs]
      end;
      repeat (destruct vs as [|? vs]; try discriminate Hdec);
      cbn in Hdec; injection Hdec as <-; exists bs; exact Hbs. }
  split; [|exact He]. destruct He as [data' He].
  exact (encode_some_in_width p data' He).
Qed.

Lemma decoded_packet_in_width_witness :
  let data := [0x0B; 0; 0; 0; 0; 0; 0; 0; 0; 0; 0; 1;
               0; 0x10; 0; 0; 0; 0x20; 0; 0] in
  exists p, decode_as (AMemoryRange (mkMemoryRange (response_of READ_FLASH SUCCESS) 0 0))
                      data = Some p /\ in_width p.
Proof.
  cbv zeta.
  destruct (decode_as (AMemoryRange (mkMemoryRange (response_of READ_FLASH SUCCESS) 0 0))
              [0x0B; 0; 0; 0; 0; 0; 0; 0; 0; 0; 0; 1; 0; 0x10; 0; 0; 0; 0x20; 0; 0])
    as [p|] eqn:E; [|vm_compute in E; discriminate E].
  exists p. split; [reflexivity|].
  refine (proj1 (decoded_packet_in_width _ _ p _ E)).
  repeat constructor; unfold is_byte; lia.
Defined.

(** X5.  [BootCommand(v)] and the value of a member are inverse to each
    other: the eight command codes are distinct, and no other integer is a
    command code. *)
Theorem BootCommand_value_roundtrip (v : Z) (c : BootCommand) :
  BootCommand_of_value v = Some c <-> BootCommand_value c = v.
Proof.
  split.
  - unfold BootCommand_of_value.
    repeat match goal with
      | |- context [?a =? ?b] =>
          let E := fresh "E" in
          destruct (a =? b) eqn:E;
          [apply Z.eqb_eq in E; intros [= <-]; now rewrite E|]
      end.
    discriminate.
  - intros <-. destruct c; reflexivity.
Qed.

End CodecMore.

(** ** More on the exchange *)

Section ExchangeMore.

Lemma class_from_bytes_class cls data r :
  class_from_bytes cls data = Some r -> class_of r = cls.
Proof.
  destruct cls; cbn [class_from_bytes];
    match goal with
    | |- option_map _ ?o = _ -> _ => destruct o; cbn; [intros [= <-]; reflexivity | discriminate]
    end.
Qed.

Lemma class_get_size_pos cls : exists n, class_get_size cls = Some (S n).
Proof. destruct cls; eexists; reflexivity. Qed.

(** What holds of an exchange that returns. *)
Lemma exchange_returns
    (c : CommandPacket) (d : list Z) (w w' : World) (r : ResponseBase)
    (Hret : _send_and_receive c d w = (Return r, w')) :
  exists packed data rest n,
    Packet_bytes c = Some packed /\
    rx w = Rx data :: rest /\
    w' = after_exchange w (packed ++ d) rest /\
    _RESPONSE_TYPE_MAP (command c) = Some (class_of r) /\
    class_get_size (class_of r) = Some n /\
    class_from_bytes (class_of r) (firstn n data) = Some r /\
    ResponseBase_command r = command c /\
    (forall code, ResponseBase_success r = Some code ->
                  code = BootResponse_value SUCCESS).
Proof.
  unfold _send_and_receive, from_serial, interface_write, emit, lift,
    interface_read, bind in Hret.
  destruct (Packet_bytes c) as [packed|]; cbv beta iota delta [or_raise ret raise] in Hret;
    [|discriminate Hret].
  destruct (_RESPONSE_TYPE_MAP (command c)) as [cls|];
    cbv beta iota delta [or_raise ret raise] in Hret; [|discriminate Hret].
  destruct (class_get_size_pos cls) as [n Hn]. rewrite Hn in Hret.
  cbv beta iota delta [or_raise ret raise] in Hret. cbn [rx] in Hret.
  destruct (rx w) as [|[data|] rest] eqn:Hrx; cbn [fst snd] in Hret.
  - destruct (class_from_bytes cls []) as [r0|] eqn:Hd;
      [apply class_from_bytes_size in Hd; rewrite Hn in Hd; discriminate Hd|].
    cbv beta iota delta [or_raise ret raise] in Hret. discriminate Hret.
  - destruct (class_from_bytes cls (firstn (S n) data)) as [r0|] eqn:Hd;
      cbv beta iota delta [or_raise ret raise] in Hret; [|discriminate Hret].
    destruct (_verify_good_response c r0) as [[]|e] eqn:Hv; [|discriminate Hret].
    injection Hret as <- <-.
    pose proof (class_from_bytes_class _ _ _ Hd) as Hc. subst cls.
    destruct (verify_accepts c r0 Hv) as [He Hs].
    exists packed, data, rest, (S n). repeat split; auto.
  - discriminate Hret.
Qed.

(** X6.  When an exchange returns, the command was packed and written with
    its payload, exactly one answer was read, the response is of the class
    [_RESPONSE_TYPE_MAP] gives for the command and was decoded from the first
    [get_size] bytes of the answer, it echoes the command code, and, unless
    it is a [Version], its result code is [SUCCESS]. *)
Theorem send_and_receive_returns
    (c : CommandPacket) (d : list Z) (w w' : World) (r : ResponseBase)
    (Hret : _send_and_receive c d w = (Return r, w')) :
  exists packed data rest n,
    Packet_bytes c = Some packed /\
    rx w = Rx data :: rest /\
    w' = after_exchange w (packed ++ d) rest /\
    _RESPONSE_TYPE_MAP (command c) = Some (class_of r) /\
    class_get_size (class_of r) = Some n /\
    class_from_bytes (class_of r) (firstn n data) = Some r /\
    ResponseBase_command r = command c /\
    (forall code, ResponseBase_success r = Some code ->
                  code = BootResponse_value SUCCESS).
Proof. exact (exchange_returns c d w w' r Hret). Qed.

Lemma send_and_receive_returns_witness :
  let w := port [respond_checksum 0x1234] in
  exists r w',
    _send_and_receive (Command CALC_CHECKSUM 20 0 0x1000) [] w = (Return r, w') /\
    class_of r = ChecksumT /\ rx w' = [].
Proof.
  cbv zeta.
  destruct (_send_and_receive (Command CALC_CHECKSUM 20 0 0x1000) []
              (port [respond_checksum 0x1234])) as [[r|e] w'] eqn:E;
    [|vm_compute in E; discriminate E].
  exists r, w'. split; [reflexivity|].
  destruct (send_and_receive_returns _ _ _ _ _ E)
    as (packed & data & rest & n & _ & Hrx & Hw & Hm & _).
  split.
  - vm_compute in Hm. now injection Hm.
  - subst w'. vm_compute in Hrx. injection Hrx as _ <-. reflexivity.
Defined.

Lemma interface_read_consumes n w :
  rx (snd (interface_read n w)) = tl (rx w).
Proof.
  unfold interface_read.
  destruct (rx w) as [|[data|] rest] eqn:E; cbn [snd rx tl]; [exact E | reflexivity..].
Qed.

(** X7.  Whatever the device does, an exchange whose command can be packed
    writes the packed command followed by the payload exactly once and takes
    at most one answer from the port; a command that cannot be packed
    ([struct.error]) leaves the port untouched.  The timeout is never
    changed. *)
Theorem send_and_receive_effects (c : CommandPacket) (d : list Z) (w : World) :
  let run := _send_and_receive c d w in
  timeout (snd run) = timeout w /\
  match Packet_bytes c with
  | Some packed =>
      trace (snd run) = trace w ++ [Tx (packed ++ d)] /\
      (rx (snd run) = rx w \/ rx (snd run) = tl (rx w))
  | None => run = (Raise StructError, w)
  end.
Proof.
  cbv zeta. split; [apply (send_and_receive_frame c d w)|].
  unfold _send_and_receive, from_serial, interface_write, emit, lift, bind.
  destruct (Packet_bytes c) as [packed|];
    cbv beta iota delta [or_raise ret raise]; [|reflexivity].
  destruct (_RESPONSE_TYPE_MAP (command c)) as [cls|];
    cbv beta iota delta [or_raise ret raise]; cbn [fst snd trace rx]; [|auto].
  destruct (class_get_size cls) as [n|];
    cbv beta iota delta [or_raise ret raise]; cbn [fst snd trace rx]; [|auto].
  match goal with |- context [interface_read n ?w1] =>
    pose proof (interface_read_consumes n w1) as Hc;
    pose proof (interface_read_frame n w1) as Hf;
    destruct (interface_read n w1) as [[data|e] w2] end;
    cbn [fst snd trace rx] in *; [|destruct Hf as [-> _]; auto].
  destruct (class_from_bytes cls data) as [r0|];
    cbv beta iota delta [or_raise ret raise]; cbn [fst snd];
    [|destruct Hf as [-> _]; auto].
  destruct (_verify_good_response c r0) as [[]|e]; cbn [fst snd];
    destruct Hf as [-> _]; auto.
Qed.

Lemma verify_raises_exchange_error c r e :
  _verify_good_response c r = Raise e -> exchange_error e.
Proof.
  unfold _verify_good_response.
  destruct (ResponseBase_command r =? command c); cbn [negb].
  2:{ destruct (BootCommand_of_value (ResponseBase_command r));
      intros [= <-]; reflexivity. }
  assert (Hk : forall s,
             (if negb (s =? BootResponse_value SUCCESS)
              then match _BOOTLOADER_EXCEPTIONS s with
                   | Some e0 => Raise e0
                   | None => Raise (KeyError s)
                   end
              else Return tt) = Raise e -> exchange_error e).
  { intros s. destruct (negb (s =? BootResponse_value SUCCESS)); [|discriminate].
    destruct (_BOOTLOADER_EXCEPTIONS s) eqn:He; intros [= <-]; [|exact I].
    apply BOOTLOADER_EXCEPTIONS_cases in He.
    destruct He as [[_ ->]|[[_ ->]|[[_ ->]|[_ ->]]]]; exact I. }
  destruct r; [discriminate | apply Hk | apply Hk | apply Hk].
Qed.

Lemma send_and_receive_exchange_error c d :
  raises_only exchange_error (_send_and_receive c d).
Proof.
  unfold _send_and_receive.
  apply raises_only_bind; [now apply raises_only_or_raise|]; intros packed.
  apply raises_only_bind; [intros w e; cbn; discriminate|]; intros _.
  apply raises_only_bind; [now apply raises_only_or_raise|]; intros cls.
  apply raises_only_bind.
  { unfold from_serial.
    apply raises_only_bind; [now apply raises_only_or_raise|]; intros n.
    apply raises_only_bind.
    { intros w e. unfold interface_read.
      destruct (rx w) as [|[data|] rest]; cbn; try discriminate.
      intros [= <-]; exact I. }
    intros data. now apply raises_only_or_raise. }
  intros r. apply raises_only_bind; [|intros; apply raises_only_ret].
  apply raises_only_lift. apply verify_raises_exchange_error.
Qed.

Lemma send_and_receive_class c d w r w' :
  _send_and_receive c d w = (Return r, w') ->
  _RESPONSE_TYPE_MAP (command c) = Some (class_of r).
Proof.
  intros H. destruct (exchange_returns _ _ _ _ _ H)
    as (packed & data & rest & n & _ & _ & _ & Hm & _). exact Hm.
Qed.

End ExchangeMore.

(** ** More on the operations of the engine *)

Section Operations.

(** X8.  None of the exchanges an operation makes can trip its
    [assert isinstance(...)]: [_read_version], [_get_memory_address_range],
    [_get_remote_checksum], [_self_verify] and [reset] end, when they raise,
    in one of the errors of an exchange, never in [AssertionError]. *)
Theorem operations_raise_exchange_errors :
  raises_only exchange_error _read_version /\
  raises_only exchange_error _get_memory_address_range /\
  (forall addr len, raises_only exchange_error (_get_remote_checksum addr len)) /\
  raises_only exchange_error _self_verify /\
  raises_only exchange_error reset.
Proof.
  assert (Hcls : forall c l u a w r w' cls,
             _send_and_receive (Command c l u a) [] w = (Return r, w') ->
             _RESPONSE_TYPE_MAP (BootCommand_value c) = Some cls ->
             class_of r = cls).
  { intros c l u a w r w' cls H Hm. apply send_and_receive_class in H.
    cbn [command Command] in H. congruence. }
  repeat split.
  - intros w e. unfold _read_version, bind.
    pose proof (send_and_receive_exchange_error (Command READ_VERSION 0 0 0) [] w) as He.
    pose proof (Hcls READ_VERSION 0 0 0 w) as Hc.
    destruct (_send_and_receive (Command READ_VERSION 0 0 0) [] w) as [[r|e0] w1];
      cbn [fst] in *; [|intros [= <-]; now apply He].
    specialize (Hc r w1 VersionT eq_refl eq_refl). destruct r; discriminate.
  - intros w e. unfold _get_memory_address_range, bind.
    pose proof (send_and_receive_exchange_error
                  (Command GET_MEMORY_ADDRESS_RANGE 0 0 0) [] w) as He.
    pose proof (Hcls GET_MEMORY_ADDRESS_RANGE 0 0 0 w) as Hc.
    destruct (_send_and_receive (Command GET_MEMORY_ADDRESS_RANGE 0 0 0) [] w)
      as [[r|e0] w1]; cbn [fst] in *; [|intros [= <-]; now apply He].
    specialize (Hc r w1 MemoryRangeT eq_refl eq_refl). destruct r; discriminate.
  - intros addr len w e. unfold _get_remote_checksum, bind.
    pose proof (send_and_receive_exchange_error
                  (Command CALC_CHECKSUM len 0 addr) [] w) as He.
    pose proof (Hcls CALC_CHECKSUM len 0 addr w) as Hc.
    destruct (_send_and_receive (Command CALC_CHECKSUM len 0 addr) [] w)
      as [[r|e0] w1]; cbn [fst] in *; [|intros [= <-]; now apply He].
    specialize (Hc r w1 ChecksumT eq_refl eq_refl). destruct r; discriminate.
  - apply raises_only_bind; [apply send_and_receive_exchange_error|].
    intros; apply raises_only_ret.
  - apply raises_only_bind; [apply send_and_receive_exchange_error|].
    intros; apply raises_only_ret.
Qed.

Lemma respond_decodes c code :
  exists data,
    respond c code = Rx data /\
    class_from_bytes ResponseT (firstn 12 data) =
      Some (IsResponse (response_of c code)).
Proof. destruct c, code; eexists; split; reflexivity. Qed.

(** An exchange answered by a plain response that echoes the command. *)
Lemma exchange_with_response c l u a d w packed code rest :
  Packet_bytes (Command c l u a) = Some packed ->
  _RESPONSE_TYPE_MAP (BootCommand_value c) = Some ResponseT ->
  rx w = respond c code :: rest ->
  _send_and_receive (Command c l u a) d w =
    (match code with
     | SUCCESS => Return (IsResponse (response_of c code))
     | other => Raise (error_of_code (BootResponse_value other))
     end, after_exchange w (packed ++ d) rest).
Proof.
  intros Hp Hm Hrx. destruct (respond_decodes c code) as (data & Hr & Hd).
  rewrite Hr in Hrx.
  erewrite send_and_receive_decoded;
    [| exact Hp | exact Hm | reflexivity | exact Hrx | exact Hd].
  f_equal. unfold _verify_good_response.
  cbn [ResponseBase_command response_of response_base command Command success].
  rewrite Z.eqb_refl. cbn [negb]. destruct code; reflexivity.
Qed.

Lemma detect_program_answer w code rest :
  rx w = respond SELF_VERIFY code :: rest ->
  _detect_program w =
    (detection_of code,
     world_after w (tx_event (Command SELF_VERIFY 0 0 0) []) rest).
Proof.
  intros Hrx. unfold _detect_program, try_finally, try_except, _self_verify, bind.
  erewrite exchange_with_response;
    [| reflexivity | reflexivity | cbn [rx set_logger_disabled]; exact Hrx].
  destruct code; reflexivity.
Qed.

(** X9.  [_detect_program], answered by a response to [SELF_VERIFY] with
    result code [code]: it returns [True] for [SUCCESS] and [False] for
    [VERIFY_FAIL], and raises for every other code; it makes exactly the one
    [SELF_VERIFY] exchange, leaves the timeout alone and, thanks to its
    [finally] clause, leaves the logger enabled also when it raises. *)
Theorem detect_program_outcome
    (w : World) (code : ResponseCode) (rest : list RxEvent)
    (Hrx : rx w = respond SELF_VERIFY code :: rest) :
  fst (_detect_program w) = detection_of code /\
  (forall b, fst (_detect_program w) = Return b ->
             (b = true <-> code = SUCCESS) /\ (b = false <-> code = VERIFY_FAIL)) /\
  snd (_detect_program w) =
    mkWorld (timeout w) rest
            (trace w ++ tx_event (Command SELF_VERIFY 0 0 0) []) false.
Proof.
  rewrite (detect_program_answer w code rest Hrx). cbn [fst snd].
  split; [reflexivity|]. split; [|reflexivity].
  intros b. destruct code; cbn; intros H; try discriminate H;
    injection H as <-; split; split; intros; congruence.
Qed.

Lemma detect_program_outcome_witness :
  fst (_detect_program (port [respond SELF_VERIFY VERIFY_FAIL])) = Return false /\
  fst (_detect_program (port [respond SELF_VERIFY BAD_LENGTH])) = Raise BadLength /\
  logger_disabled (snd (_detect_program (port [respond SELF_VERIFY BAD_LENGTH])))
    = false.
Proof.
  split; [|split].
  - exact (proj1 (detect_program_outcome (port [respond SELF_VERIFY VERIFY_FAIL])
                    VERIFY_FAIL [] eq_refl)).
  - exact (proj1 (detect_program_outcome (port [respond SELF_VERIFY BAD_LENGTH])
                    BAD_LENGTH [] eq_refl)).
  - rewrite (proj2 (proj2 (detect_program_outcome
                             (port [respond SELF_VERIFY BAD_LENGTH])
                             BAD_LENGTH [] eq_refl))).
    reflexivity.
Defined.

Lemma erase_flash_skips self erase_range r verify w rest :
  erase_range = Some r \/ (erase_range = None /\ _memory_range self = r) ->
  2 <= range_len r ->
  rx w = respond SELF_VERIFY VERIFY_FAIL :: rest ->
  erase_flash self erase_range false verify w =
    (Return tt, world_after w (tx_event (Command SELF_VERIFY 0 0 0) []) rest).
Proof.
  intros Hrange Hlen Hrx.
  assert (Hchosen : match erase_range with
                    | Some r0 => if range_truthy r0 then r0 else _memory_range self
                    | None => _memory_range self
                    end = r).
  { destruct Hrange as [-> | [-> Hm]]; [|exact Hm].
    unfold range_truthy.
    replace (range_len r =? 0) with false by (symmetry; apply Z.eqb_neq; lia).
    reflexivity. }
  unfold erase_flash. rewrite Hchosen.
  destruct (unpack_start_end_two r Hlen) as (s & e & Hu).
  unfold bind at 1. unfold lift. rewrite Hu.
  unfold bind. rewrite (detect_program_answer w VERIFY_FAIL rest Hrx).
  reflexivity.
Qed.

(** X10.  With [force] false and a device that answers the probe with
    [VERIFY_FAIL] (no application), [erase_flash] returns after the one
    [SELF_VERIFY] exchange: no [ERASE_FLASH] is sent, whatever [verify] is,
    and the timeout is not touched. *)
Theorem erase_skipped_without_application
    (self : Bootloader) (erase_range : option range) (r : range)
    (verify : bool) (w : World) (rest : list RxEvent)
    (Hrange : erase_range = Some r \/
              (erase_range = None /\ _memory_range self = r))
    (Hlen : 2 <= range_len r)
    (Hrx : rx w = respond SELF_VERIFY VERIFY_FAIL :: rest) :
  erase_flash self erase_range false verify w =
    (Return tt, world_after w (tx_event (Command SELF_VERIFY 0 0 0) []) rest).
Proof. exact (erase_flash_skips self erase_range r verify w rest Hrange Hlen Hrx). Qed.

Lemma erase_skipped_without_application_witness :
  let w := port [respond SELF_VERIFY VERIFY_FAIL] in
  erase_flash scenario_device None false true w =
    (Return tt, world_after w (tx_event (Command SELF_VERIFY 0 0 0) []) []).
Proof.
  cbv zeta.
  apply (erase_skipped_without_application scenario_device None
           (range2 0x1000 0x2000) true (port [respond SELF_VERIFY VERIFY_FAIL]) []).
  - right. split; reflexivity.
  - vm_compute. discriminate.
  - reflexivity.
Defined.

(** X11.  The whole of [erase_flash] on a device with an application that
    accepts [ERASE_FLASH]: the exchanges are [SELF_VERIFY], [ERASE_FLASH]
    with [data_length = (end - start) // erase_size] for the two unpacked
    bounds, and [SELF_VERIFY] again; the call returns if the second probe
    finds no application, and raises "Existing application could not be
    erased" if it still finds one.  Either way the timeout is back at its
    value. *)
Theorem erase_flash_with_application
    (self : Bootloader) (w : World) (s e : Z) (packed : list Z)
    (last : ResponseCode) (rest : list RxEvent)
    (Hunpack : unpack_start_end (_memory_range self) = Return (s, e))
    (Hsize : _erase_size self <> 0)
    (Hpacked : Packet_bytes (Command ERASE_FLASH ((e - s) / _erase_size self)
                                     _FLASH_UNLOCK_KEY s) = Some packed)
    (Hrx : rx w = respond SELF_VERIFY SUCCESS :: respond ERASE_FLASH SUCCESS
                  :: respond SELF_VERIFY last :: rest) :
  erase_flash self None false true w =
    (match last with
     | VERIFY_FAIL => Return tt
     | SUCCESS => Raise (BootloaderError "Existing application could not be erased")
     | other => Raise (error_of_code (BootResponse_value other))
     end,
     world_after w (tx_event (Command SELF_VERIFY 0 0 0) [] ++ [Tx packed] ++
                    tx_event (Command SELF_VERIFY 0 0 0) []) rest).
Proof.
  unfold erase_flash. unfold bind at 1. unfold lift. rewrite Hunpack.
  unfold bind at 1.
  rewrite (detect_program_answer w SUCCESS _ Hrx). cbn [detection_of].
  unfold bind at 1.
  assert (He : _erase_flash self s e
                 (world_after w (tx_event (Command SELF_VERIFY 0 0 0) [])
                    (respond ERASE_FLASH SUCCESS :: respond SELF_VERIFY last :: rest))
               = (Return tt,
                  world_after w (tx_event (Command SELF_VERIFY 0 0 0) [] ++ [Tx packed])
                    (respond SELF_VERIFY last :: rest))).
  { unfold _erase_flash, bind, get_timeout, lift, floordiv.
    apply Z.eqb_neq in Hsize. unfold world_after. cbn [timeout].
    destruct (timeout w) as [t|]; cbn [set_timeout ret fst snd]; rewrite Hsize;
      (erewrite exchange_with_response; [| exact Hpacked | reflexivity | reflexivity]);
      unfold set_timeout, after_exchange; cbn [timeout rx trace logger_disabled fst snd];
      rewrite app_nil_r, <- app_assoc; reflexivity. }
  rewrite He. unfold bind.
  erewrite detect_program_answer; [|reflexivity].
  unfold world_after. cbn [timeout trace].
  rewrite <- !app_assoc.
  destruct last; reflexivity.
Qed.

Lemma erase_flash_with_application_witness :
  let w := port [respond SELF_VERIFY SUCCESS; respond ERASE_FLASH SUCCESS;
                 respond SELF_VERIFY SUCCESS] in
  fst (erase_flash scenario_device None false true w) =
    Raise (BootloaderError "Existing application could not be erased") /\
  timeout (snd (erase_flash scenario_device None false true w)) = Some 1%Q.
Proof.
  cbv zeta.
  assert (Hp : exists packed,
             Packet_bytes (Command ERASE_FLASH
                             ((0x1FFF - 0x1000) / _erase_size scenario_device)
                             _FLASH_UNLOCK_KEY 0x1000) = Some packed)
    by (eexists; reflexivity).
  destruct Hp as [packed Hp].
  rewrite (erase_flash_with_application scenario_device
             (port [respond SELF_VERIFY SUCCESS; respond ERASE_FLASH SUCCESS;
                    respond SELF_VERIFY SUCCESS])
             0x1000 0x1FFF packed SUCCESS []).
  - split; reflexivity.
  - vm_compute. reflexivity.
  - cbn. discriminate.
  - exact Hp.
  - reflexivity.
Defined.

End Operations.

(** ** More on writing: padding, chunk sizes, checksums, bring-up *)

Section Writing.

Lemma write_padding_spec align len :
  0 < align ->
  0 <= write_padding align len < align /\
  (len + write_padding align len) mod align = 0.
Proof.
  intros Ha. unfold write_padding.
  pose proof (Z.mod_pos_bound (align - len mod align) align Ha) as Hp.
  split; [exact Hp|].
  rewrite Z.add_mod_idemp_r by lia.
  replace (len + (align - len mod align)) with ((1 + len / align) * align)
    by (rewrite (Z.mod_eq len align) by lia; lia).
  apply Z.mod_mul. lia.
Qed.

(** X12.  [_write_flash] on a chunk of [len] bytes at byte address [s], with
    a positive alignment: the packet written is the [WRITE_FLASH] command
    followed by the bytes of the chunk and then [pad] bytes 0xFF, where
    [pad < align] makes [len + pad] a multiple of [align]; the command's
    [data_length] is [len + pad] and its address is the word address
    [s >> 1]. *)
Theorem write_flash_pads_to_alignment
    (s align : Z) (bs : list Z) (w : World)
    (Hs : 0 <= s) (Hne : bs <> []) (Halign : 0 < align) :
  let len := Z.of_nat (List.length bs) in
  let pad := write_padding align len in
  0 <= pad < align /\ (len + pad) mod align = 0 /\
  trace (snd (_write_flash (segment_at s bs) align w)) =
    trace w ++
    tx_event (Command WRITE_FLASH (len + pad) _FLASH_UNLOCK_KEY (Z.shiftr s 1))
             (bs ++ repeat 0xFF (Z.to_nat pad)).
Proof.
  cbv zeta. destruct (write_padding_spec align (Z.of_nat (List.length bs)) Halign)
    as [Hpad Hmul].
  split; [exact Hpad|]. split; [exact Hmul|].
  destruct bs as [|b bs]; [congruence|].
  unfold _write_flash, pymod, lift, bind, or_raise.
  replace (align =? 0) with false by (symmetry; apply Z.eqb_neq; lia).
  cbv beta iota. rewrite minaddr_segment_at. cbv beta iota delta [ret].
  rewrite ih_len_segment_at, tobinstr_segment_at, repeat_length.
  change (padding (segment_at s (b :: bs))) with 255.
  fold (write_padding align (Z.of_nat (List.length (b :: bs)))).
  rewrite Z2Nat.id by lia.
  match goal with |- context [_send_and_receive ?c ?d w] =>
    pose proof (send_and_receive_frame c d w) as Hf;
    destruct (_send_and_receive c d w) as [[r|e] w1] end;
    cbn [fst snd] in *; tauto.
Qed.

Lemma write_flash_pads_to_alignment_witness :
  exists sent,
    trace (snd (_write_flash (segment_at 0x2000 [1; 2; 3; 4; 5]) 8
                             (port [respond WRITE_FLASH SUCCESS]))) = [Tx sent] /\
    skipn 11 sent = [1; 2; 3; 4; 5; 255; 255; 255].
Proof.
  destruct (write_flash_pads_to_alignment 0x2000 8 [1; 2; 3; 4; 5]
              (port [respond WRITE_FLASH SUCCESS])) as (_ & _ & Ht).
  - lia.
  - discriminate.
  - lia.
  - rewrite Ht. eexists. split; reflexivity.
Defined.

Lemma fold_max_ge l : forall a, a <= fold_left Z.max l a.
Proof.
  induction l as [|y l IH]; intros a; cbn [fold_left]; [lia|].
  specialize (IH (Z.max a y)). lia.
Qed.

Lemma minaddr_le_maxaddr h lo hi :
  minaddr h = Some lo -> maxaddr h = Some hi -> lo <= hi.
Proof.
  unfold minaddr, maxaddr. destruct (addresses h) as [|a l]; [discriminate|].
  intros [= <-] [= <-].
  pose proof (proj1 (fold_min_le l a)). pose proof (fold_max_ge l a). lia.
Qed.

Lemma chunk_degenerate hexdata size :
  (_buf hexdata = [] -> _chunk hexdata size = Raise TypeError) /\
  (_buf hexdata <> [] -> size = 0 ->
   _chunk hexdata size = Raise (ValueError RangeStepZero)) /\
  (_buf hexdata <> [] -> size < 0 -> _chunk hexdata size = Return []).
Proof.
  unfold _chunk. split; [|split].
  - intros He. unfold minaddr, addresses. now rewrite He.
  - intros Hne ->.
    destruct (minaddr hexdata) as [lo|] eqn:Elo;
      [|exfalso; apply Hne, minaddr_maxaddr_none; now left].
    destruct (maxaddr hexdata) as [hi|] eqn:Ehi;
      [|exfalso; apply Hne, minaddr_maxaddr_none; now right].
    reflexivity.
  - intros Hne Hneg.
    destruct (minaddr hexdata) as [lo|] eqn:Elo;
      [|exfalso; apply Hne, minaddr_maxaddr_none; now left].
    destruct (maxaddr hexdata) as [hi|] eqn:Ehi;
      [|exfalso; apply Hne, minaddr_maxaddr_none; now right].
    pose proof (minaddr_le_maxaddr _ _ _ Elo Ehi) as Hle.
    unfold range3. replace (size =? 0) with false by (symmetry; apply Z.eqb_neq; lia).
    unfold range_elements, range_len.
    replace (0 <? size) with false by (symmetry; apply Z.ltb_ge; lia).
    replace (hi <? lo) with false by (symmetry; apply Z.ltb_ge; lia).
    reflexivity.
Qed.

(** X13.  [_chunk] outside its intended use.  On an object without data,
    [minaddr()] is [None] and [range] raises [TypeError]; on one with data,
    a chunk size of 0 makes [range] raise [ValueError], and a negative
    chunk size gives an empty range: no chunk at all, and no error. *)
Theorem chunk_degenerate_sizes (hexdata : IntelHex) (size : Z) :
  (_buf hexdata = [] -> _chunk hexdata size = Raise TypeError) /\
  (_buf hexdata <> [] -> size = 0 ->
   _chunk hexdata size = Raise (ValueError RangeStepZero)) /\
  (_buf hexdata <> [] -> size < 0 -> _chunk hexdata size = Return []).
Proof. exact (chunk_degenerate hexdata size). Qed.

Lemma Command_get_size_value : Command_get_size = 11.
Proof. reflexivity. Qed.

Lemma Packet_bytes_length c packed :
  Packet_bytes c = Some packed -> List.length packed = 11%nat.
Proof.
  intros H. unfold Packet_bytes in H. eapply pack_length; [exact H | reflexivity].
Qed.

Lemma chunk_size_of_spec self :
  0 < _write_size self ->
  chunk_size_of self mod _write_size self = 0 /\
  chunk_size_of self <= _max_packet_length self - 11 /\
  _max_packet_length self - 11 < chunk_size_of self + _write_size self.
Proof.
  intros Hw. unfold chunk_size_of. cbv zeta. rewrite Command_get_size_value.
  set (room := _max_packet_length self - 11).
  pose proof (Z.mod_pos_bound room (_write_size self) Hw) as Hr.
  split; [|lia].
  replace (room - room mod _write_size self)
    with ((room / _write_size self) * _write_size self)
    by (rewrite (Z.mod_eq room (_write_size self)) by lia; lia).
  apply Z.mod_mul. lia.
Qed.

(** X14.  The chunk size [flash] computes is the largest multiple of
    [write_size] that leaves room for the 11 bytes of the command within
    [max_packet_length]. *)
Theorem chunk_size_is_largest_multiple
    (self : Bootloader) (Hw : 0 < _write_size self) :
  chunk_size_of self mod _write_size self = 0 /\
  chunk_size_of self + Command_get_size <= _max_packet_length self /\
  (forall size, size mod _write_size self = 0 ->
                size + Command_get_size <= _max_packet_length self ->
                size <= chunk_size_of self).
Proof.
  destruct (chunk_size_of_spec self Hw) as (Hm & Hle & Hlt).
  rewrite Command_get_size_value.
  split; [exact Hm|]. split; [lia|].
  intros size Hs Hfit.
  apply Z.mod_divide in Hm; [|lia]. apply Z.mod_divide in Hs; [|lia].
  destruct Hm as [q1 Hq1]. destruct Hs as [q2 Hq2].
  assert (Hq : q2 * _write_size self < (q1 + 1) * _write_size self) by lia.
  apply Z.mul_lt_mono_pos_r in Hq; [|lia].
  rewrite Hq1, Hq2. apply Z.mul_le_mono_nonneg_r; lia.
Qed.

Lemma chunk_size_is_largest_multiple_witness :
  chunk_size_of scenario_device = 240 /\
  chunk_size_of scenario_device mod 8 = 0 /\
  chunk_size_of scenario_device + Command_get_size <= 256.
Proof.
  pose proof (chunk_size_is_largest_multiple scenario_device ltac:(cbn; lia))
    as (Hm & Hfit & _).
  split; [reflexivity|]. split; [exact Hm | exact Hfit].
Defined.

(** X15.  No [WRITE_FLASH] packet that [flash] sends for a contiguous
    segment is longer than [max_packet_length]: command, chunk and padding
    together fit, for every chunk of the segment. *)
Theorem write_packets_fit
    (self : Bootloader) (s : Z) (bs : list Z) (chunk : IntelHex) (sent : list Z)
    (Hs : 0 <= s) (Hw : 0 < _write_size self) (Hroom : 0 < chunk_size_of self)
    (Hc : In chunk (chunks_of (chunk_size_of self) (segment_at s bs)))
    (Htx : In (Tx sent) (write_events (_write_size self) chunk)) :
  Z.of_nat (List.length sent) <= _max_packet_length self.
Proof.
  destruct (chunk_size_of_spec self Hw) as (Hm & Hle & _).
  destruct bs as [|b bs]; [cbn in Hc; contradiction|].
  unfold chunks_of in Hc. rewrite chunk_segment_at in Hc by lia.
  apply in_map_iff in Hc. destruct Hc as (k & <- & _).
  remember (firstn (Z.to_nat (chunk_size_of self))
                   (skipn (k * Z.to_nat (chunk_size_of self)) (b :: bs))) as piece
    eqn:Ep.
  assert (Hlen : Z.of_nat (List.length piece) <= chunk_size_of self)
    by (subst piece; rewrite length_firstn; lia).
  clear Ep. unfold write_events in Htx.
  destruct piece as [|p ps]; [cbn in Htx; contradiction|].
  rewrite minaddr_segment_at, ih_len_segment_at, tobinstr_segment_at in Htx.
  unfold tx_event in Htx.
  destruct (Packet_bytes _) as [packed|] eqn:Epk; [|contradiction].
  destruct Htx as [Heq|[]].
  apply (f_equal (fun ev => match ev with Tx d => d | _ => [] end)) in Heq.
  cbv beta iota in Heq. subst sent.
  rewrite !length_app, repeat_length, (Packet_bytes_length _ _ Epk).
  fold (write_padding (_write_size self) (Z.of_nat (List.length (p :: ps)))).
  destruct (write_padding_spec (_write_size self)
              (Z.of_nat (List.length (p :: ps))) Hw) as [Hpad Hmul].
  set (L := Z.of_nat (List.length (p :: ps))) in *.
  set (pad := write_padding (_write_size self) L) in *.
  apply Z.mod_divide in Hm; [|lia]. apply Z.mod_divide in Hmul; [|lia].
  destruct Hm as [q1 Hq1]. destruct Hmul as [q2 Hq2].
  assert (Hq : q2 * _write_size self < (q1 + 1) * _write_size self) by lia.
  apply Z.mul_lt_mono_pos_r in Hq; [|lia].
  assert (L + pad <= chunk_size_of self)
    by (rewrite Hq1, Hq2; apply Z.mul_le_mono_nonneg_r; lia).
  rewrite !Nat2Z.inj_add, Z2Nat.id by lia. fold L. lia.
Qed.

Lemma write_packets_fit_witness :
  Forall (fun chunk =>
            Forall (fun ev => match ev with
                              | Tx sent => Z.of_nat (List.length sent) <= 256
                              | Callback _ _ => True
                              end)
                   (write_events 8 chunk))
         (chunks_of (chunk_size_of scenario_device) image241).
Proof.
  apply Forall_forall. intros chunk Hc.
  apply Forall_forall. intros [sent|written total] Htx; [|exact I].
  apply (write_packets_fit scenario_device 0x2000 (repeat 1 241) chunk sent).
  - lia.
  - cbn. lia.
  - vm_compute. reflexivity.
  - exact Hc.
  - exact Htx.
Defined.

(** X16.  [_get_local_checksum] raises [TypeError] exactly on an object
    without data ([None + len(data)]); on every other object it returns,
    and the value is within 16 bits, as the [checksum] field of the
    device's answer is. *)
Theorem local_checksum_is_16_bit (data : IntelHex) :
  (_get_local_checksum data = Raise TypeError <-> _buf data = []) /\
  (_buf data <> [] -> exists sum, _get_local_checksum data = Return sum) /\
  (forall sum, _get_local_checksum data = Return sum -> u16 sum).
Proof.
  unfold _get_local_checksum, minaddr, addresses.
  destruct (_buf data) as [|kv buf]; cbn [map].
  - split; [tauto|]. split; [congruence | discriminate].
  - split; [split; discriminate|]. split; [eexists; reflexivity|].
    intros sum [= <-]. change 0xFFFF with (Z.ones 16).
    rewrite Z.land_ones by lia. unfold u16.
    change 65536 with (2 ^ 16). apply Z.mod_pos_bound. lia.
Qed.

End Writing.

Section BringUpMore.

Lemma tx_event_packed c d packed :
  Packet_bytes c = Some packed -> tx_event c d = [Tx (packed ++ d)].
Proof. intros H. unfold tx_event. now rewrite H. Qed.

(** X17.  When the device answers [READ_VERSION] with a version packet and
    [GET_MEMORY_ADDRESS_RANGE] with a successful memory-range packet,
    [__init__] makes exactly these two exchanges and keeps
    [max_packet_length], [erase_size] and [write_size] of the first answer
    and [range(program_start, program_end)] of the second. *)
Theorem init_stores_device_attributes
    (v : Version) (m : MemoryRange) (w : World) (rest : list RxEvent)
    (Hv : in_width (AVersion v)) (Hm : in_width (AMemoryRange m))
    (Hvc : command (version_base v) = BootCommand_value READ_VERSION)
    (Hmc : command (response_base (memory_range_base m)) =
           BootCommand_value GET_MEMORY_ADDRESS_RANGE)
    (Hms : success (memory_range_base m) = BootResponse_value SUCCESS)
    (Hrx : rx w = reply (AVersion v) :: reply (AMemoryRange m) :: rest) :
  __init__ w =
    (Return (mkBootloader (max_packet_length v) (erase_size v) (write_size v)
                          (range2 (program_start m) (program_end m))),
     mkWorld (timeout w) rest
             (trace w ++ tx_event (Command READ_VERSION 0 0 0) [] ++
                         tx_event (Command GET_MEMORY_ADDRESS_RANGE 0 0 0) [])
             (logger_disabled w)).
Proof.
  destruct (VersionResponsePacket_roundtrip v Hv) as (d1 & He1 & Hd1).
  destruct (MemoryRangePacket_roundtrip m Hm) as (d2 & He2 & Hd2).
  assert (Hr1 : reply (AVersion v) = Rx d1) by (unfold reply, encode; now rewrite He1).
  assert (Hr2 : reply (AMemoryRange m) = Rx d2)
    by (unfold reply, encode; now rewrite He2).
  rewrite Hr1, Hr2 in Hrx.
  assert (Hc1 : class_from_bytes VersionT (firstn 37 d1) = Some (IsVersion v)).
  { assert (Hl : List.length d1 = 37%nat)
      by (eapply pack_length; [exact He1 | reflexivity]).
    rewrite firstn_all2 by lia. cbn [class_from_bytes]. now rewrite Hd1. }
  assert (Hc2 : class_from_bytes MemoryRangeT (firstn 20 d2) = Some (IsMemoryRange m)).
  { assert (Hl : List.length d2 = 20%nat)
      by (eapply pack_length; [exact He2 | reflexivity]).
    rewrite firstn_all2 by lia. cbn [class_from_bytes]. now rewrite Hd2. }
  assert (Hp1 : exists packed, Packet_bytes (Command READ_VERSION 0 0 0) = Some packed)
    by (eexists; reflexivity).
  assert (Hp2 : exists packed,
             Packet_bytes (Command GET_MEMORY_ADDRESS_RANGE 0 0 0) = Some packed)
    by (eexists; reflexivity).
  destruct Hp1 as [p1 Hp1]. destruct Hp2 as [p2 Hp2].
  rewrite (tx_event_packed _ _ _ Hp1), (tx_event_packed _ _ _ Hp2).
  unfold __init__, try_except, bring_up, _read_version, _get_memory_address_range.
  unfold bind.
  rewrite (send_and_receive_decoded _ [] w p1 VersionT 37 d1 _ (IsVersion v)
             Hp1 eq_refl eq_refl Hrx Hc1).
  assert (Hg1 : _verify_good_response (Command READ_VERSION 0 0 0) (IsVersion v)
                = Return tt).
  { unfold _verify_good_response. cbn [ResponseBase_command command Command].
    rewrite Hvc, Z.eqb_refl. reflexivity. }
  rewrite Hg1. cbv beta iota delta [ret].
  rewrite (send_and_receive_decoded _ [] (after_exchange w (p1 ++ []) (Rx d2 :: rest))
             p2 MemoryRangeT 20 d2 rest (IsMemoryRange m)
             Hp2 eq_refl eq_refl eq_refl Hc2).
  assert (Hg2 : _verify_good_response (Command GET_MEMORY_ADDRESS_RANGE 0 0 0)
                  (IsMemoryRange m) = Return tt).
  { unfold _verify_good_response. cbn [ResponseBase_command command Command].
    rewrite Hmc, Z.eqb_refl, Hms. reflexivity. }
  rewrite Hg2. cbv beta iota delta [ret fst snd].
  unfold after_exchange. cbn [timeout rx trace logger_disabled fst snd].
  rewrite <- app_assoc. reflexivity.
Qed.

Lemma init_stores_device_attributes_witness :
  fst (__init__ (port [version_reply; memory_range_reply])) =
    Return scenario_device.
Proof.
  rewrite (init_stores_device_attributes
             (mkVersion (Command READ_VERSION 0 0 0) 0x0102 256 0x3456 1024 8)
             (mkMemoryRange (mkResponse (Command GET_MEMORY_ADDRESS_RANGE 0 0 0)
                                        (BootResponse_value SUCCESS))
                            0x1000 0x2000)
             (port [version_reply; memory_range_reply]) []).
  - reflexivity.
  - cbv [in_width Packet_in_width u8 u16 u32]; cbn; lia.
  - cbv [in_width ResponsePacket_in_width Packet_in_width u8 u16 u32]; cbn; lia.
  - reflexivity.
  - reflexivity.
  - reflexivity.
  - reflexivity.
Defined.

End BringUpMore.

(** ** The write loop against a device that accepts everything *)

Section WriteLoop.

Lemma respond_checksum_decodes v :
  u16 v ->
  exists data,
    respond_checksum v = Rx data /\
    class_from_bytes ChecksumT (firstn 14 data) =
      Some (IsChecksum
              (mkChecksum (mkResponse (Command CALC_CHECKSUM 0 0 0)
                                      (BootResponse_value SUCCESS)) v)).
Proof.
  intros Hv.
  destruct (ChecksumPacket_roundtrip
              (mkChecksum (mkResponse (Command CALC_CHECKSUM 0 0 0)
                                      (BootResponse_value SUCCESS)) v))
    as (data & He & Hd).
  { unfold u16 in Hv.
    cbv [in_width ResponsePacket_in_width Packet_in_width u8 u16 u32]; cbn; lia. }
  exists data. split.
  - unfold respond_checksum, reply, encode. now rewrite He.
  - assert (Hl : List.length data = 14%nat)
      by (eapply pack_length; [exact He | reflexivity]).
    rewrite firstn_all2 by lia. cbn [class_from_bytes]. now rewrite Hd.
Qed.

Lemma write_events_segment_at align s b bs :
  write_events align (segment_at s (b :: bs)) =
    tx_event (Command WRITE_FLASH
                (Z.of_nat (List.length (b :: bs)) +
                 Z.of_nat (Z.to_nat
                   (write_padding align (Z.of_nat (List.length (b :: bs))))))
                _FLASH_UNLOCK_KEY (Z.shiftr s 1))
             ((b :: bs) ++
              repeat 255 (Z.to_nat
                (write_padding align (Z.of_nat (List.length (b :: bs)))))).
Proof.
  unfold write_events. cbv zeta.
  rewrite minaddr_segment_at, ih_len_segment_at, tobinstr_segment_at, repeat_length.
  reflexivity.
Qed.

Lemma checksum_events_segment_at s b bs :
  checksum_events (segment_at s (b :: bs)) =
    tx_event (Command CALC_CHECKSUM (Z.of_nat (List.length (b :: bs))) 0
                      (Z.shiftr s 1)) [].
Proof.
  unfold checksum_events. now rewrite minaddr_segment_at, ih_len_segment_at.
Qed.

Lemma write_flash_accepted align chunk w rest :
  0 < align -> sendable align chunk ->
  rx w = respond WRITE_FLASH SUCCESS :: rest ->
  _write_flash chunk align w =
    (Return tt,
     mkWorld (timeout w) rest (trace w ++ write_events align chunk)
             (logger_disabled w)).
Proof.
  intros Ha (s & bs & -> & Hs & Hne & Haddr & Hlen) Hrx.
  destruct bs as [|b bs]; [congruence|].
  rewrite write_events_segment_at.
  destruct (write_padding_spec align (Z.of_nat (List.length (b :: bs))) Ha)
    as [Hpad _].
  set (L := Z.of_nat (List.length (b :: bs))) in *.
  set (pad := write_padding align L) in *.
  destruct (Packet_roundtrip
              (Command WRITE_FLASH (L + Z.of_nat (Z.to_nat pad)) _FLASH_UNLOCK_KEY
                       (Z.shiftr s 1))) as (packed & Hp & _).
  { unfold Packet_in_width, u8, u16, u32, Command, _FLASH_UNLOCK_KEY.
    cbn [command data_length unlock_sequence address BootCommand_value].
    assert (0 <= Z.shiftr s 1) by (apply Z.shiftr_nonneg; lia).
    assert (0 <= L) by (subst L; lia). lia. }
  rewrite (tx_event_packed _ _ _ Hp).
  unfold _write_flash, pymod, lift, bind, or_raise.
  replace (align =? 0) with false by (symmetry; apply Z.eqb_neq; lia).
  cbv beta iota. rewrite minaddr_segment_at. cbv beta iota delta [ret].
  rewrite ih_len_segment_at, tobinstr_segment_at, repeat_length.
  change (padding (segment_at s (b :: bs))) with 255.
  fold L. fold (write_padding align L). fold pad.
  erewrite exchange_with_response; [| exact Hp | reflexivity | exact Hrx].
  reflexivity.
Qed.

Lemma checksum_accepted align chunk w rest :
  0 < align -> sendable align chunk ->
  rx w = respond_checksum (local_checksum_or_0 chunk) :: rest ->
  _checksum chunk w =
    (Return tt,
     mkWorld (timeout w) rest (trace w ++ checksum_events chunk)
             (logger_disabled w)).
Proof.
  intros Ha (s & bs & -> & Hs & Hne & Haddr & Hlen) Hrx.
  assert (Hlocal := local_checksum_refines s bs Hs Hne).
  unfold local_checksum_or_0 in Hrx. rewrite Hlocal in Hrx.
  destruct bs as [|b bs]; [congruence|].
  rewrite checksum_events_segment_at.
  set (L := Z.of_nat (List.length (b :: bs))) in *.
  assert (Hu : u16 (spec_local_checksum (b :: bs))).
  { unfold spec_local_checksum, u16. apply Z.mod_pos_bound. lia. }
  destruct (respond_checksum_decodes _ Hu) as (data & Hr & Hd).
  rewrite Hr in Hrx.
  destruct (Packet_roundtrip (Command CALC_CHECKSUM L 0 (Z.shiftr s 1)))
    as (packed & Hp & _).
  { unfold Packet_in_width, u8, u16, u32, Command.
    cbn [command data_length unlock_sequence address BootCommand_value].
    assert (0 <= Z.shiftr s 1) by (apply Z.shiftr_nonneg; lia).
    assert (0 <= L) by (subst L; lia).
    pose proof (proj1 (write_padding_spec align L Ha)). lia. }
  rewrite (tx_event_packed _ _ _ Hp).
  unfold _checksum. unfold bind at 1. unfold lift. rewrite Hlocal.
  rewrite minaddr_segment_at. unfold bind at 1. cbn [or_raise ret].
  rewrite ih_len_segment_at. fold L.
  unfold _get_remote_checksum. unfold bind at 1 2.
  erewrite send_and_receive_decoded;
    [| exact Hp | reflexivity | reflexivity | exact Hrx | exact Hd].
  change (_verify_good_response (Command CALC_CHECKSUM L 0 (Z.shiftr s 1))
            (IsChecksum
               (mkChecksum (mkResponse (Command CALC_CHECKSUM 0 0 0)
                                       (BootResponse_value SUCCESS))
                           (spec_local_checksum (b :: bs)))))
    with (@Return unit tt).
  cbv beta iota. cbn [ret checksum].
  rewrite Z.eqb_refl. reflexivity.
Qed.

Lemma flash_chunk_accepted self cb total written chunk w rest :
  0 < _write_size self -> sendable (_write_size self) chunk ->
  rx w = accepting_device [chunk] ++ rest ->
  flash_chunk self cb total written chunk w =
    (Return (written + ih_len chunk),
     mkWorld (timeout w) rest
             (trace w ++ chunk_events self cb total written chunk)
             (logger_disabled w)).
Proof.
  intros Hw Hsend Hrx. cbn [accepting_device flat_map app] in Hrx.
  unfold flash_chunk, chunk_events. unfold bind at 1.
  rewrite (write_flash_accepted _ _ _ _ Hw Hsend Hrx). cbv zeta.
  unfold bind at 1.
  erewrite (checksum_accepted _ _ _ _ Hw Hsend); [|reflexivity].
  unfold bind. cbn [timeout trace logger_disabled rx].
  destruct cb; cbn [emit ret fst snd timeout trace logger_disabled rx];
    rewrite <- !app_assoc; try rewrite app_nil_r; reflexivity.
Qed.

Lemma flash_chunks_accepted self cb total chunks : forall written w rest,
  0 < _write_size self -> Forall (sendable (_write_size self)) chunks ->
  rx w = accepting_device chunks ++ rest ->
  flash_chunks self cb total written chunks w =
    (Return (written + total_len chunks),
     mkWorld (timeout w) rest
             (trace w ++ chunks_events self cb total written chunks)
             (logger_disabled w)).
Proof.
  induction chunks as [|chunk chunks IH]; intros written w rest Hw Hall Hrx.
  - cbn in *. rewrite app_nil_r, Z.add_0_r. destruct w; cbn in *. now subst.
  - inversion Hall as [|? ? Hc Hcs]; subst.
    cbn [flash_chunks chunks_events]. unfold bind.
    rewrite (flash_chunk_accepted self cb total written chunk w
               (accepting_device chunks ++ rest) Hw Hc).
    2:{ rewrite Hrx. cbn [accepting_device flat_map app]. reflexivity. }
    erewrite (IH _ _ rest Hw Hcs); [|reflexivity].
    cbn [timeout trace logger_disabled]. rewrite <- app_assoc.
    unfold total_len. cbn [map fold_right]. f_equal. f_equal. lia.
Qed.

Lemma runs_buf_at bs : forall first prev,
  runs first prev (map fst (buf_at (prev + 1) bs)) =
    [(first, prev + 1 + Z.of_nat (List.length bs))].
Proof.
  induction bs as [|b bs IH]; intros first prev.
  - cbn. do 2 f_equal. lia.
  - cbn [buf_at map fst runs].
    replace (1 <? prev + 1 - prev) with false by (symmetry; apply Z.ltb_ge; lia).
    rewrite IH. do 2 f_equal. cbn [List.length]. lia.
Qed.

Lemma segments_segment_at s b bs :
  segments (segment_at s (b :: bs)) =
    [(s, s + Z.of_nat (List.length (b :: bs)))].
Proof.
  unfold segments, addresses, segment_at. cbn [_buf buf_at map fst].
  rewrite (runs_buf_at bs s s). do 2 f_equal. cbn [List.length]. lia.
Qed.

(** A contiguous image that lies within the window is kept whole. *)
Lemma slice_keeps_segment s b bs lo hi :
  0 <= lo <= s -> s + Z.of_nat (List.length (b :: bs)) <= hi ->
  slice (segment_at s (b :: bs)) lo hi = segment_at s (b :: bs).
Proof.
  intros Hlo Hhi. unfold slice. rewrite minaddr_segment_at, maxaddr_segment_at.
  replace (hi =? 0) with false
    by (symmetry; apply Z.eqb_neq; cbn [List.length] in Hhi; lia).
  unfold segment_at. cbn [_buf]. f_equal.
  rewrite filter_window_from by (destruct (lo =? 0); lia).
  f_equal. apply firstn_all2. lia.
Qed.

Lemma flash_scope_segment_at self a b s bs :
  _memory_range self = range2 a b -> 0 <= a -> a < b ->
  bs <> [] -> 2 * a <= s -> s + Z.of_nat (List.length bs) <= 2 * b - 2 ->
  flash_scope self (segment_at s bs) = Return [segment_at s bs].
Proof.
  intros Hr Ha Hab Hne Hlo Hhi. destruct bs as [|y bs]; [congruence|].
  unfold flash_scope. rewrite Hr, range_first_range2, range_last_range2 by lia.
  rewrite slice_keeps_segment by lia.
  rewrite segments_segment_at. cbn [map fst snd].
  rewrite slice_keeps_segment by lia. reflexivity.
Qed.

Lemma div2_bound s : 0 <= s < 8589934592 -> Z.shiftr s 1 < 4294967296.
Proof.
  intros Hs. rewrite Z.shiftr_div_pow2 by lia. change (2 ^ 1) with 2.
  apply Z.div_lt_upper_bound; lia.
Qed.

(** The chunks of a contiguous segment can all be sent. *)
Lemma chunks_sendable self s bs :
  0 <= s -> s + Z.of_nat (List.length bs) <= 8589934592 ->
  0 < _write_size self -> 0 < chunk_size_of self -> chunk_size_of self < 65536 ->
  Forall (sendable (_write_size self))
         (chunks_of (chunk_size_of self) (segment_at s bs)).
Proof.
  intros Hs Htop Hw Hpos Hmax.
  destruct (chunk_size_of_spec self Hw) as (Hm & _ & _).
  destruct bs as [|b bs]; [constructor|].
  unfold chunks_of. rewrite chunk_segment_at by lia.
  apply Forall_forall. intros c Hc. apply in_map_iff in Hc.
  destruct Hc as (k & <- & Hk). apply in_seq in Hk.
  set (size := chunk_size_of self) in *.
  assert (Hkn : Z.of_nat k * size <= Z.of_nat (List.length bs)).
  { destruct Hk as [_ Hk]. rewrite range_len_up in Hk by lia.
    destruct (s <? s + Z.of_nat (List.length bs)) eqn:E; [|cbn in Hk; lia].
    apply Z.ltb_lt in E.
    replace (s + Z.of_nat (List.length bs) - s - 1)
      with (Z.of_nat (List.length bs) - 1) in Hk by lia.
    assert (Hq : Z.of_nat k <= (Z.of_nat (List.length bs) - 1) / size).
    { assert (0 <= (Z.of_nat (List.length bs) - 1) / size)
        by (apply Z.div_pos; lia). lia. }
    pose proof (Z.mul_div_le (Z.of_nat (List.length bs) - 1) size Hpos) as Hd.
    assert (Z.of_nat k * size <= size * ((Z.of_nat (List.length bs) - 1) / size))
      by (rewrite (Z.mul_comm size); apply Z.mul_le_mono_nonneg_r; lia).
    lia. }
  remember (firstn (Z.to_nat size) (skipn (k * Z.to_nat size) (b :: bs))) as piece
    eqn:Ep.
  assert (Hlen : List.length piece =
                 Nat.min (Z.to_nat size)
                         (List.length (b :: bs) - k * Z.to_nat size))
    by (subst piece; now rewrite length_firstn, length_skipn).
  assert (Hkz : Z.of_nat (k * Z.to_nat size) = Z.of_nat k * size)
    by (rewrite Nat2Z.inj_mul, Z2Nat.id by lia; reflexivity).
  assert (Hpiece : 0 < Z.of_nat (List.length piece) <= size).
  { rewrite Hlen. cbn [List.length]. split; [|lia].
    apply (Nat2Z.inj_lt 0). apply Nat.min_glb_lt; [lia|]. 
    apply Nat2Z.inj_lt. rewrite Nat2Z.inj_sub by (apply Nat2Z.inj_le; lia). lia. }
  exists (s + Z.of_nat k * size), piece. split; [reflexivity|].
  split; [nia|]. split; [intros ->; cbn in Hpiece; lia|].
  split.
  - apply div2_bound. cbn [List.length] in Htop. nia.
  - destruct (write_padding_spec (_write_size self)
                (Z.of_nat (List.length piece)) Hw) as [Hpad Hmul].
    apply Z.mod_divide in Hm; [|lia]. apply Z.mod_divide in Hmul; [|lia].
    destruct Hm as [q1 Hq1]. destruct Hmul as [q2 Hq2].
    assert (Hq : q2 * _write_size self < (q1 + 1) * _write_size self) by lia.
    apply Z.mul_lt_mono_pos_r in Hq; [|lia].
    assert (q2 * _write_size self <= q1 * _write_size self)
      by (apply Z.mul_le_mono_nonneg_r; lia).
    lia.
Qed.

Lemma flash_accepted self a b s bs cb w :
  _memory_range self = range2 a b ->
  0 <= a -> a + 2 <= b -> b <= 4294967296 ->
  0 < _write_size self -> 0 < chunk_size_of self ->
  _max_packet_length self < 65536 ->
  bs <> [] -> 2 * a <= s -> s + Z.of_nat (List.length bs) <= 2 * b - 2 ->
  rx w = respond SELF_VERIFY VERIFY_FAIL ::
         accepting_device (chunks_of (chunk_size_of self) (segment_at s bs)) ++
         [respond SELF_VERIFY SUCCESS] ->
  flash self (segment_at s bs) cb w =
    (Return tt,
     world_after w
       (tx_event (Command SELF_VERIFY 0 0 0) [] ++
        chunks_events self cb (Z.of_nat (List.length bs)) 0
                      (chunks_of (chunk_size_of self) (segment_at s bs)) ++
        tx_event (Command SELF_VERIFY 0 0 0) [])
       []).
Proof.
  intros Hr Ha Hab Hb Hw Hpos Hmax Hne Hlo Hhi Hrx.
  pose proof (chunk_size_of_spec self Hw) as (_ & Hle & _).
  pose proof (chunks_sendable self s bs ltac:(lia) ltac:(lia) Hw Hpos ltac:(lia))
    as Hsend.
  unfold flash. unfold bind at 1. unfold lift at 1.
  rewrite (flash_scope_segment_at self a b s bs Hr) by (assumption || lia).
  unfold bind at 1.
  rewrite (erase_flash_skips self (Some (_memory_range self)) (range2 a b) true w _
             (or_introl (f_equal Some Hr))
             ltac:(rewrite range_len_range2; lia) Hrx).
  unfold bind at 1. unfold lift at 1, pymod.
  replace (_write_size self =? 0) with false by (symmetry; apply Z.eqb_neq; lia).
  fold (chunk_size_of self).
  cbn [map fold_right]. rewrite ih_len_segment_at, Z.add_0_r.
  unfold bind at 1. cbn [flash_segments]. unfold bind at 1. unfold lift at 1.
  unfold chunks_of in *.
  destruct (_chunk (segment_at s bs) (chunk_size_of self)) as [chunks|e] eqn:Ech.
  2:{ exfalso. destruct bs as [|y bs]; [congruence|].
      rewrite chunk_segment_at in Ech by lia. discriminate Ech. }
  unfold bind at 1.
  erewrite (flash_chunks_accepted self cb _ chunks 0 _ [respond SELF_VERIFY SUCCESS]
              Hw Hsend); [|reflexivity].
  cbn [ret]. unfold _self_verify, bind.
  assert (Hp : exists packed, Packet_bytes (Command SELF_VERIFY 0 0 0) = Some packed)
    by (eexists; reflexivity).
  destruct Hp as [packed Hp].
  erewrite exchange_with_response; [| exact Hp | reflexivity | reflexivity].
  rewrite (tx_event_packed _ _ _ Hp).
  unfold after_exchange, world_after, ret.
  cbn [timeout trace logger_disabled rx fst snd].
  rewrite <- !app_assoc. reflexivity.
Qed.

(** X18.  The inner loop of [flash] against a device that accepts every
    [WRITE_FLASH] and answers every [CALC_CHECKSUM] with the checksum the
    host computes: the loop returns, [written_bytes] has advanced by the
    total length of the chunks, exactly two answers per chunk have been
    consumed, and the events are those of the chunks in order. *)
Theorem write_loop_completes
    (self : Bootloader) (progress_callback : bool) (total_bytes written_bytes : Z)
    (chunks : list IntelHex) (w : World) (rest : list RxEvent)
    (Hw : 0 < _write_size self)
    (Hchunks : Forall (sendable (_write_size self)) chunks)
    (Hrx : rx w = accepting_device chunks ++ rest) :
  flash_chunks self progress_callback total_bytes written_bytes chunks w =
    (Return (written_bytes + total_len chunks),
     mkWorld (timeout w) rest
             (trace w ++
              chunks_events self progress_callback total_bytes written_bytes chunks)
             (logger_disabled w)).
Proof.
  exact (flash_chunks_accepted self progress_callback total_bytes chunks
           written_bytes w rest Hw Hchunks Hrx).
Qed.

Lemma write_loop_completes_witness :
  flash_chunks scenario_device true 20 0 [image20]
               (port (accepting_device [image20])) =
    (Return 20,
     mkWorld (Some 1%Q) []
             (chunks_events scenario_device true 20 0 [image20]) false).
Proof.
  apply (write_loop_completes scenario_device true 20 0 [image20]
           (port (accepting_device [image20])) []).
  - cbn. lia.
  - constructor; [|constructor].
    exists 0x2000, (map Z.of_nat (seq 1 20)).
    split; [reflexivity|]. split; [lia|]. split; [discriminate|].
    split; vm_compute; reflexivity.
  - reflexivity.
Defined.

(** X19.  [flash] from beginning to end, for an image that is one
    contiguous run of bytes inside [2 * program_start, 2 * program_end - 2),
    against a device without application that accepts every write and
    reports the checksums the host computes: [flash] returns; it has sent
    the [SELF_VERIFY] probe (and no [ERASE_FLASH]), then for each chunk the
    write, the checksum request and the callback, then [SELF_VERIFY]; every
    answer has been consumed and the logger is enabled. *)
Theorem flash_completes
    (self : Bootloader) (a b s : Z) (bs : list Z) (progress_callback : bool)
    (w : World)
    (Hrange : _memory_range self = range2 a b)
    (Ha : 0 <= a) (Hab : a + 2 <= b) (Hb : b <= 4294967296)
    (Hw : 0 < _write_size self) (Hsize : 0 < chunk_size_of self)
    (Hmax : _max_packet_length self < 65536)
    (Hne : bs <> []) (Hlo : 2 * a <= s)
    (Hhi : s + Z.of_nat (List.length bs) <= 2 * b - 2)
    (Hrx : rx w =
           respond SELF_VERIFY VERIFY_FAIL ::
           accepting_device (chunks_of (chunk_size_of self) (segment_at s bs)) ++
           [respond SELF_VERIFY SUCCESS]) :
  flash self (segment_at s bs) progress_callback w =
    (Return tt,
     world_after w
       (tx_event (Command SELF_VERIFY 0 0 0) [] ++
        chunks_events self progress_callback (Z.of_nat (List.length bs)) 0
                      (chunks_of (chunk_size_of self) (segment_at s bs)) ++
        tx_event (Command SELF_VERIFY 0 0 0) [])
       []).
Proof.
  exact (flash_accepted self a b s bs progress_callback w Hrange Ha Hab Hb Hw
           Hsize Hmax Hne Hlo Hhi Hrx).
Qed.

Lemma flash_completes_witness :
  fst (flash scenario_device image20 true (port (blank_device_accepting image20)))
    = Return tt /\
  rx (snd (flash scenario_device image20 true
                 (port (blank_device_accepting image20)))) = [].
Proof.
  pose proof (flash_completes scenario_device 0x1000 0x2000 0x2000
                (map Z.of_nat (seq 1 20)) true
                (port (blank_device_accepting image20))
                eq_refl ltac:(lia) ltac:(lia) ltac:(lia) ltac:(cbn; lia)
                ltac:(vm_compute; reflexivity) ltac:(cbn; lia)
                ltac:(discriminate) ltac:(lia) ltac:(cbn; lia) eq_refl) as H.
  change (segment_at 0x2000 (map Z.of_nat (seq 1 20))) with image20 in H.
  rewrite H. split; reflexivity.
Defined.

Lemma flash_segments_no_chunks self cb size total segs : forall written w,
  size < 0 -> Forall (fun seg => _buf seg <> []) segs ->
  flash_segments self cb size total written segs w = (Return written, w).
Proof.
  induction segs as [|seg segs IH]; intros written w Hsize Hall; [reflexivity|].
  inversion Hall as [|? ? Hseg Hsegs]; subst.
  cbn [flash_segments]. unfold bind, lift.
  rewrite (proj2 (proj2 (chunk_degenerate seg size)) Hseg Hsize).
  cbn [flash_chunks ret]. now apply IH.
Qed.

(** X20.  The write loop of [flash] on a device whose [max_packet_length]
    leaves no room for data.  When it is smaller than the 11 bytes of a
    command the chunk size is negative: the loop sends nothing and ends
    without error, so that nothing of the image is written.  When it leaves
    room for less than one write block the chunk size is 0 and the loop
    raises [ValueError] at its first segment, before any exchange. *)
Theorem write_loop_without_room
    (self : Bootloader) (progress_callback : bool) (total_bytes written_bytes : Z)
    (segment : IntelHex) (segments : list IntelHex) (w : World)
    (Hw : 0 < _write_size self)
    (Hdata : Forall (fun seg => _buf seg <> []) (segment :: segments)) :
  (_max_packet_length self < Command_get_size ->
   chunk_size_of self < 0 /\
   flash_segments self progress_callback (chunk_size_of self) total_bytes
                  written_bytes (segment :: segments) w
     = (Return written_bytes, w)) /\
  (Command_get_size <= _max_packet_length self < Command_get_size + _write_size self ->
   chunk_size_of self = 0 /\
   flash_segments self progress_callback (chunk_size_of self) total_bytes
                  written_bytes (segment :: segments) w
     = (Raise (ValueError RangeStepZero), w)).
Proof.
  rewrite Command_get_size_value.
  destruct (chunk_size_of_spec self Hw) as (_ & Hle & Hlt).
  split.
  - intros Hroom. assert (Hneg : chunk_size_of self < 0) by lia.
    split; [exact Hneg|]. now apply flash_segments_no_chunks.
  - intros Hroom.
    assert (Hz : chunk_size_of self = 0).
    { unfold chunk_size_of. cbv zeta. rewrite Command_get_size_value.
      rewrite Z.mod_small by lia. lia. }
    split; [exact Hz|]. rewrite Hz.
    cbn [flash_segments]. unfold bind, lift.
    inversion Hdata as [|? ? Hseg _]; subst.
    now rewrite (proj1 (proj2 (chunk_degenerate segment 0)) Hseg eq_refl).
Qed.

Lemma write_loop_without_room_witness :
  flash_segments (mkBootloader 8 1024 8 (range2 0x1000 0x2000)) true
                 (chunk_size_of (mkBootloader 8 1024 8 (range2 0x1000 0x2000)))
                 20 0 [image20] (port [])
    = (Return 0, port []) /\
  flash_segments (mkBootloader 16 1024 8 (range2 0x1000 0x2000)) true
                 (chunk_size_of (mkBootloader 16 1024 8 (range2 0x1000 0x2000)))
                 20 0 [image20] (port [])
    = (Raise (ValueError RangeStepZero), port []).
Proof.
  split.
  - apply (proj1 (write_loop_without_room
                    (mkBootloader 8 1024 8 (range2 0x1000 0x2000)) true 20 0
                    image20 [] (port []) ltac:(cbn; lia)
                    ltac:(constructor; [discriminate | constructor]))).
    vm_compute. reflexivity.
  - apply (proj2 (write_loop_without_room
                    (mkBootloader 16 1024 8 (range2 0x1000 0x2000)) true 20 0
                    image20 [] (port []) ltac:(cbn; lia)
                    ltac:(constructor; [discriminate | constructor]))).
    vm_compute. split; [discriminate | reflexivity].
Defined.

(** X21.  [flash] on a device that reports [write_size = 0], for an image
    with data in scope: it never returns.  The erase step runs first; if
    it raises, its exception is the outcome, and otherwise
    [chunk_size % self._write_size] raises [ZeroDivisionError].  Nothing is
    sent beyond what the erase step sends. *)
Theorem flash_zero_write_size
    (self : Bootloader) (image : IntelHex) (progress_callback : bool) (w : World)
    (segment : IntelHex) (segments : list IntelHex)
    (Hscope : flash_scope self image = Return (segment :: segments))
    (Hzero : _write_size self = 0) :
  let erase := erase_flash self (Some (_memory_range self)) false true w in
  flash self image progress_callback w =
    (match fst erase with
     | Return _ => Raise ZeroDivisionError
     | Raise e => Raise e
     end, snd erase).
Proof.
  cbv zeta. unfold flash. unfold bind at 1. unfold lift at 1. rewrite Hscope.
  unfold bind at 1.
  destruct (erase_flash self (Some (_memory_range self)) false true w)
    as [[[]|e] w1]; cbn [fst snd]; [|reflexivity].
  unfold bind, lift, pymod. rewrite Hzero. reflexivity.
Qed.

Lemma flash_zero_write_size_witness :
  let self := mkBootloader 256 1024 0 (range2 0x1000 0x2000) in
  let w := port [respond SELF_VERIFY VERIFY_FAIL] in
  fst (flash self image20 true w) = Raise ZeroDivisionError.
Proof.
  cbv zeta.
  rewrite (flash_zero_write_size (mkBootloader 256 1024 0 (range2 0x1000 0x2000))
             image20 true (port [respond SELF_VERIFY VERIFY_FAIL]) image20 []).
  - reflexivity.
  - reflexivity.
  - reflexivity.
Defined.

End WriteLoop.

(** ** The order of events in [flash], chunk by chunk *)

Section Passes.

Lemma raises_only_weaken {A} (P Q : exn -> Prop) (m : M A) :
  (forall e, P e -> Q e) -> raises_only P m -> raises_only Q m.
Proof. intros H Hm w e He. apply H. exact (Hm w e He). Qed.

Lemma exchange_error_not_mismatch e :
  exchange_error e -> e <> checksum_mismatch.
Proof. intros H ->. cbn in H. discriminate H. Qed.

Lemma send_and_receive_not_mismatch c d w :
  fst (_send_and_receive c d w) <> Raise checksum_mismatch.
Proof.
  intros H. apply (send_and_receive_exchange_error c d w) in H.
  now apply exchange_error_not_mismatch in H.
Qed.

Lemma no_callback_tx c d x y : ~ In (Callback x y) (tx_event c d).
Proof.
  unfold tx_event. destruct (Packet_bytes c); cbn; [|tauto].
  intros [H|[]]. discriminate H.
Qed.

Lemma no_callback_exchanges align chunk x y :
  ~ In (Callback x y) (write_events align chunk ++ checksum_events chunk).
Proof.
  unfold write_events, checksum_events. cbv zeta. intros H.
  destruct (minaddr chunk); [|exact H].
  apply in_app_or in H. destruct H as [H|H]; exact (no_callback_tx _ _ _ _ H).
Qed.

Lemma prefix_of_In (a b : list Event) ev : prefix_of a b -> In ev a -> In ev b.
Proof. intros [rest ->] H. apply in_or_app. now left. Qed.

(** [_write_flash] never raises the checksum error. *)
Lemma write_flash_not_mismatch chunk align w :
  fst (_write_flash chunk align w) <> Raise checksum_mismatch.
Proof.
  unfold _write_flash, pymod, lift, bind, or_raise.
  destruct (align =? 0); cbv beta iota zeta; [cbn; discriminate|].
  destruct (minaddr chunk) as [lo|]; cbv beta iota delta [ret raise];
    [|cbn; discriminate].
  match goal with |- context [_send_and_receive ?c ?d w] =>
    pose proof (send_and_receive_not_mismatch c d w) as Hn;
    destruct (_send_and_receive c d w) as [[r|e] w1] end;
    cbn [fst snd] in *; [discriminate | intros [= ->]; now apply Hn].
Qed.

Lemma remote_checksum_trace a l w :
  trace (snd (_get_remote_checksum a l w)) =
    trace w ++ tx_event (Command CALC_CHECKSUM l 0 a) [].
Proof.
  unfold _get_remote_checksum, bind.
  pose proof (send_and_receive_frame (Command CALC_CHECKSUM l 0 a) [] w) as Hf.
  destruct (_send_and_receive (Command CALC_CHECKSUM l 0 a) [] w) as [[r|e] w1];
    cbn [fst snd] in *; [destruct r; cbn; apply Hf | apply Hf].
Qed.

(** [_checksum]: it returns exactly when the checksums agree; when it raises
    the checksum error, the request has been made. *)
Lemma checksum_steps chunk w :
  let run := _checksum chunk w in
  (fst run = Return tt /\
   trace (snd run) = trace w ++ checksum_events chunk /\
   checksums_agree chunk w) \/
  (exists e, fst run = Raise e /\ ~ checksums_agree chunk w /\
     (trace (snd run) = trace w ++ checksum_events chunk \/
      (trace (snd run) = trace w /\ e <> checksum_mismatch))).
Proof.
  cbv zeta. unfold _checksum, checksum_events, checksums_agree, lift.
  unfold bind at 1.
  destruct (_get_local_checksum chunk) as [sum|e] eqn:El.
  2:{ right. exists e. split; [reflexivity|].
      split; [intros (lo & s & w' & _ & Hs & _); discriminate Hs|].
      right. split; [reflexivity|].
      unfold _get_local_checksum in El.
      destruct (minaddr chunk); [discriminate El|].
      injection El as <-. discriminate. }
  unfold bind at 1, or_raise.
  destruct (minaddr chunk) as [lo|] eqn:Elo; cbv beta iota delta [ret raise].
  2:{ right. exists TypeError. split; [reflexivity|].
      split; [intros (lo & s & w' & Hlo & _); discriminate Hlo|].
      right. split; [reflexivity | discriminate]. }
  unfold bind.
  pose proof (remote_checksum_trace (Z.shiftr lo 1) (ih_len chunk) w) as Ht.
  destruct (_get_remote_checksum (Z.shiftr lo 1) (ih_len chunk) w)
    as [[c2|e] w2] eqn:Er; cbn [fst snd] in *.
  - destruct (sum =? c2) eqn:E; cbn [negb fst snd].
    + apply Z.eqb_eq in E. subst c2. left.
      split; [reflexivity|]. split; [exact Ht|].
      exists lo, sum, w2. repeat split; assumption.
    + apply Z.eqb_neq in E. right. exists checksum_mismatch.
      split; [reflexivity|]. split; [|left; exact Ht].
      intros (lo' & s & w' & Hlo & Hs & Hr).
      injection Hlo as <-. injection Hs as <-. congruence.
  - right. exists e. split; [reflexivity|]. split; [|left; exact Ht].
    intros (lo' & s & w' & Hlo & Hs & Hr).
    injection Hlo as <-. congruence.
Qed.

(** One pass of the inner loop.  Either the write returned, the checksums
    agreed and the pass returns the advanced counter, having added the
    write, the checksum request and the callback, in this order; or it
    raises, having added an initial part of the write and the checksum
    request, and no callback. *)
Lemma flash_chunk_steps self cb total written chunk w :
  let run := flash_chunk self cb total written chunk w in
  exists evs,
    trace (snd run) = trace w ++ evs /\
    ((fst run = Return (written + ih_len chunk) /\
      evs = chunk_events self cb total written chunk /\
      exists wr, _write_flash chunk (_write_size self) w = (Return tt, wr) /\
                 checksums_agree chunk wr) \/
     (exists e, fst run = Raise e /\
        prefix_of evs
          (write_events (_write_size self) chunk ++ checksum_events chunk) /\
        (e = checksum_mismatch ->
         evs = write_events (_write_size self) chunk ++ checksum_events chunk) /\
        (forall wr, _write_flash chunk (_write_size self) w = (Return tt, wr) ->
                    ~ checksums_agree chunk wr))).
Proof.
  cbv zeta. unfold flash_chunk, chunk_events. unfold bind.
  pose proof (write_flash_trace chunk (_write_size self) w) as Hw.
  pose proof (write_flash_not_mismatch chunk (_write_size self) w) as Hnm.
  destruct (_write_flash chunk (_write_size self) w) as [[[]|e] w1] eqn:Ew;
    cbn [fst snd] in *.
  2:{ assert (He : e <> checksum_mismatch) by congruence.
      destruct Hw as [Hw | [Hw _]].
      - eexists. split; [exact Hw|]. right. exists e.
        split; [reflexivity|]. split; [apply prefix_of_app|].
        split; [intros ->; congruence | intros wr Hwr; discriminate Hwr].
      - exists []. rewrite app_nil_r. split; [exact Hw|]. right. exists e.
        split; [reflexivity|]. split; [apply prefix_of_nil|].
        split; [intros ->; congruence | intros wr Hwr; discriminate Hwr]. }
  destruct Hw as [Hw | [_ [e He]]]; [|discriminate He].
  destruct (checksum_steps chunk w1) as [(Hr & Hc & Hagree) | (e & Hr & Hno & Hc)].
  - destruct (_checksum chunk w1) as [[[]|e] w2]; cbn [fst snd] in *;
      [|discriminate Hr].
    destruct cb; cbn [emit ret fst snd trace].
    + eexists. split; [rewrite Hc, Hw, <- !app_assoc; reflexivity|].
      left. split; [reflexivity|]. split; [reflexivity|].
      exists w1. now split.
    + eexists. split; [rewrite Hc, Hw, <- app_assoc; reflexivity|].
      left. split; [reflexivity|]. split; [now rewrite app_nil_r|].
      exists w1. now split.
  - destruct (_checksum chunk w1) as [[[]|e'] w2]; cbn [fst snd] in *;
      [discriminate Hr|].
    injection Hr as ->.
    destruct Hc as [Hc | [Hc Hne]].
    + eexists. split; [rewrite Hc, Hw, <- app_assoc; reflexivity|].
      right. exists e. split; [reflexivity|]. split; [apply prefix_of_refl|].
      split; [reflexivity|]. intros wr [= <-]. exact Hno.
    + eexists. split; [rewrite Hc; exact Hw|].
      right. exists e. split; [reflexivity|]. split; [apply prefix_of_app|].
      split; [intros ->; congruence|]. intros wr [= <-]. exact Hno.
Qed.

(** The callback of a pass is invoked exactly when a callback was given,
    the write returned and the checksums agreed. *)
Lemma flash_chunk_callback self cb total written chunk w evs :
  trace (snd (flash_chunk self cb total written chunk w)) = trace w ++ evs ->
  ((exists x y, In (Callback x y) evs) <->
   (cb = true /\
    In (Callback (written + ih_len chunk) total) evs /\
    exists wr, _write_flash chunk (_write_size self) w = (Return tt, wr) /\
               checksums_agree chunk wr)).
Proof.
  intros Ht.
  destruct (flash_chunk_steps self cb total written chunk w)
    as (evs' & Ht' & [(Hr & Hev & wr & Hwr & Hag) | (e & Hr & Hp & _ & Hno)]);
    rewrite Ht in Ht'; apply app_inv_head in Ht'; subst evs'.
  - split.
    + intros (x & y & Hin). rewrite Hev in Hin. unfold chunk_events in Hin.
      rewrite app_assoc in Hin. apply in_app_or in Hin.
      destruct Hin as [Hin|Hin]; [now apply no_callback_exchanges in Hin|].
      destruct cb; [|contradiction].
      split; [reflexivity|]. split; [|now exists wr].
      rewrite Hev. unfold chunk_events. apply in_or_app. right.
      apply in_or_app. right. now left.
    + intros (_ & Hin & _). eauto.
  - split.
    + intros (x & y & Hin). apply (prefix_of_In _ _ _ Hp) in Hin.
      now apply no_callback_exchanges in Hin.
    + intros (_ & _ & wr & Hwr & Hag). exfalso. exact (Hno wr Hwr Hag).
Qed.

Lemma flash_chunks_steps self cb total chunks : forall written w,
  let run := flash_chunks self cb total written chunks w in
  exists k rest,
    (k <= List.length chunks)%nat /\
    trace (snd run) =
      trace w ++ chunks_events self cb total written (firstn k chunks) ++ rest /\
    (forall n, fst run = Return n ->
               k = List.length chunks /\ rest = [] /\
               n = written + total_len chunks) /\
    (forall e, fst run = Raise e ->
       exists chunk,
         nth_error chunks k = Some chunk /\
         prefix_of rest
           (write_events (_write_size self) chunk ++ checksum_events chunk) /\
         (e = checksum_mismatch ->
          rest = write_events (_write_size self) chunk ++ checksum_events chunk)).
Proof.
  induction chunks as [|chunk chunks IH]; intros written w; cbv zeta.
  - exists O, []. cbn. rewrite app_nil_r. split; [lia|]. split; [reflexivity|].
    split; [|intros e He; discriminate He].
    intros n [= <-]. repeat split. lia.
  - cbn [flash_chunks]. unfold bind.
    destruct (flash_chunk_steps self cb total written chunk w)
      as (evs & Ht & [(Hr & Hev & _) | (e & Hr & Hp & Hm & _)]).
    + destruct (flash_chunk self cb total written chunk w) as [[n1|e1] w1];
        cbn [fst snd] in *; [|discriminate Hr].
      injection Hr as ->. subst evs.
      destruct (IH (written + ih_len chunk) w1) as (k & rest & Hk & Ht2 & Hret & Hraise).
      exists (S k), rest. cbn [firstn chunks_events List.length].
      split; [lia|].
      split; [rewrite Ht2, Ht, <- !app_assoc; reflexivity|].
      split.
      * intros n Hn. destruct (Hret n Hn) as (-> & -> & ->).
        repeat split. unfold total_len. cbn [map fold_right].
        fold (total_len chunks). lia.
      * intros e He. destruct (Hraise e He) as (c & Hc & Hpc & Hmc).
        exists c. now repeat split.
    + destruct (flash_chunk self cb total written chunk w) as [[n1|e1] w1];
        cbn [fst snd] in *; [discriminate Hr|].
      injection Hr as ->.
      exists O, evs. cbn [firstn chunks_events app List.length].
      split; [lia|]. split; [exact Ht|].
      split; [intros n Hn; discriminate Hn|].
      intros e' [= <-]. exists chunk. now repeat split.
Qed.

Lemma chunk_not_mismatch hexdata size :
  _chunk hexdata size <> Raise checksum_mismatch.
Proof.
  unfold _chunk, range3.
  destruct (minaddr hexdata), (maxaddr hexdata); try discriminate.
  destruct (size =? 0); discriminate.
Qed.

Lemma firstn_app_le {T} (l1 l2 : list T) k :
  (k <= List.length l1)%nat -> firstn k (l1 ++ l2) = firstn k l1.
Proof.
  intros Hk. rewrite firstn_app.
  replace (k - List.length l1)%nat with O by lia.
  cbn. apply app_nil_r.
Qed.

(** The whole write loop: some number of chunks, counted through the
    segments in the order of the list and, within a segment, in the order
    [_chunk] yields them, has been handled completely; what follows is an
    initial part of the next chunk's write and checksum request. *)
Lemma flash_segments_steps self cb size total segs : forall written w,
  let run := flash_segments self cb size total written segs w in
  let chunks := flat_map (chunks_of size) segs in
  exists k rest,
    (k <= List.length chunks)%nat /\
    trace (snd run) =
      trace w ++ chunks_events self cb total written (firstn k chunks) ++ rest /\
    (forall n, fst run = Return n -> k = List.length chunks /\ rest = []) /\
    (forall e, fst run = Raise e ->
       prefix_of rest
         (match nth_error chunks k with
          | Some chunk =>
              write_events (_write_size self) chunk ++ checksum_events chunk
          | None => []
          end) /\
       (e = checksum_mismatch ->
        exists chunk,
          nth_error chunks k = Some chunk /\
          rest = write_events (_write_size self) chunk ++ checksum_events chunk)).
Proof.
  induction segs as [|seg segs IH]; intros written w; cbv zeta.
  - exists O, []. cbn. rewrite app_nil_r. split; [lia|]. split; [reflexivity|].
    split; [now intros n _ | intros e He; discriminate He].
  - cbn [flash_segments flat_map]. unfold bind, lift.
    destruct (_chunk seg size) as [cs|e0] eqn:Hch.
    2:{ exists O, []. cbn [fst snd firstn chunks_events app].
        rewrite app_nil_r. split; [lia|]. split; [reflexivity|].
        split; [intros n Hn; discriminate Hn|].
        intros e [= <-]. split; [apply prefix_of_nil|].
        intros ->. exfalso. exact (chunk_not_mismatch _ _ Hch). }
    assert (Hco : chunks_of size seg = cs) by (unfold chunks_of; now rewrite Hch).
    rewrite Hco.
    destruct (flash_chunks_steps self cb total cs written w)
      as (k1 & rest1 & Hk1 & Ht1 & Hret1 & Hraise1).
    destruct (flash_chunks self cb total written cs w) as [[n1|e1] w1];
      cbn [fst snd] in *.
    + destruct (Hret1 n1 eq_refl) as (-> & -> & ->).
      destruct (IH (written + total_len cs) w1)
        as (k2 & rest2 & Hk2 & Ht2 & Hret2 & Hraise2).
      exists (List.length cs + k2)%nat, rest2.
      rewrite length_app. split; [lia|].
      rewrite firstn_all in Ht1. rewrite app_nil_r in Ht1.
      rewrite firstn_app_2, chunks_events_app.
      split; [rewrite Ht2, Ht1, <- !app_assoc; reflexivity|].
      split.
      * intros n Hn. destruct (Hret2 n Hn) as [-> ->]. now split.
      * intros e He.
        rewrite nth_error_app2 by lia.
        replace (List.length cs + k2 - List.length cs)%nat with k2 by lia.
        exact (Hraise2 e He).
    + destruct (Hraise1 e1 eq_refl) as (c & Hc & Hp & Hm).
      assert (Hlt : (k1 < List.length cs)%nat)
        by (apply nth_error_Some; congruence).
      exists k1, rest1. rewrite length_app. split; [lia|].
      rewrite firstn_app_le by lia.
      split; [exact Ht1|]. split; [intros n Hn; discriminate Hn|].
      intros e [= <-]. rewrite nth_error_app1 by lia. rewrite Hc.
      split; [exact Hp|]. intros He. exists c. split; [reflexivity | now apply Hm].
Qed.

End Passes.

(** ** Chunks and segments by ascending address *)

Section Ascending.

Lemma StronglySorted_app {T} (R : T -> T -> Prop) (l1 l2 : list T) :
  StronglySorted R l1 -> StronglySorted R l2 ->
  (forall x y, In x l1 -> In y l2 -> R x y) ->
  StronglySorted R (l1 ++ l2).
Proof.
  induction l1 as [|a l1 IH]; intros H1 H2 H12; [exact H2|].
  apply StronglySorted_inv in H1. destruct H1 as [H1 Ha].
  cbn [app]. constructor.
  - apply IH; [exact H1 | exact H2 |]. intros x y Hx Hy. apply H12; [now right | exact Hy].
  - apply Forall_app. split; [exact Ha|].
    apply Forall_forall. intros y Hy. apply H12; [now left | exact Hy].
Qed.

Lemma StronglySorted_flat_map {S T} (Q : S -> S -> Prop) (R : T -> T -> Prop)
    (f : S -> list T) (l : list S) :
  StronglySorted Q l ->
  (forall a, In a l -> StronglySorted R (f a)) ->
  (forall a a' b b', Q a a' -> In b (f a) -> In b' (f a') -> R b b') ->
  StronglySorted R (flat_map f l).
Proof.
  intros Hl Hf HQ. induction l as [|a l IH]; [constructor|].
  apply StronglySorted_inv in Hl. destruct Hl as [Hl Ha].
  cbn [flat_map]. apply StronglySorted_app.
  - apply Hf. now left.
  - apply IH; [exact Hl|]. intros a' Ha'. apply Hf. now right.
  - intros x y Hx Hy. apply in_flat_map in Hy. destruct Hy as (a' & Ha' & Hy).
    rewrite Forall_forall in Ha. exact (HQ a a' x y (Ha a' Ha') Hx Hy).
Qed.

Lemma StronglySorted_map_in {S T} (Q : S -> S -> Prop) (R : T -> T -> Prop)
    (g : S -> T) (l : list S) :
  StronglySorted Q l ->
  (forall a b, In a l -> In b l -> Q a b -> R (g a) (g b)) ->
  StronglySorted R (map g l).
Proof.
  intros Hl HQ. induction l as [|a l IH]; [constructor|].
  apply StronglySorted_inv in Hl. destruct Hl as [Hl Ha].
  cbn [map]. constructor.
  - apply IH; [exact Hl|]. intros x y Hx Hy. apply HQ; now right.
  - apply Forall_forall. intros y Hy. apply in_map_iff in Hy.
    destruct Hy as (b & <- & Hb). rewrite Forall_forall in Ha.
    apply HQ; [now left | now right | now apply Ha].
Qed.

Lemma seq_ascending n : forall a, StronglySorted lt (seq a n).
Proof.
  induction n as [|n IH]; intros a; cbn [seq]; constructor; [apply IH|].
  apply Forall_forall. intros y Hy. apply in_seq in Hy. lia.
Qed.

(** A slice keeps some of the data, in the order in which it is listed. *)
Lemma slice_buf h lo hi : exists f, _buf (slice h lo hi) = filter f (_buf h).
Proof.
  unfold slice.
  destruct (minaddr h) as [mn|] eqn:Emin.
  2:{ exists (fun _ => false).
      rewrite (minaddr_maxaddr_none h (or_introl Emin)). reflexivity. }
  destruct (maxaddr h) as [mx|] eqn:Emax.
  2:{ exists (fun _ => false).
      rewrite (minaddr_maxaddr_none h (or_intror Emax)). reflexivity. }
  eexists. reflexivity.
Qed.

Lemma slice_address_in h lo hi x :
  In x (addresses (slice h lo hi)) -> In x (addresses h).
Proof.
  unfold addresses. destruct (slice_buf h lo hi) as [f ->].
  intros H. apply in_map_iff in H. destruct H as (kv & <- & Hkv).
  apply filter_In in Hkv. apply in_map. tauto.
Qed.

Lemma slice_nonneg h lo hi :
  Forall (fun a => 0 <= a) (addresses h) ->
  Forall (fun a => 0 <= a) (addresses (slice h lo hi)).
Proof.
  intros H. rewrite Forall_forall in *. intros x Hx.
  apply H. exact (slice_address_in _ _ _ _ Hx).
Qed.

Lemma sorted_filter (f : Z * Z -> bool) (l : list (Z * Z)) :
  StronglySorted Z.lt (map fst l) -> StronglySorted Z.lt (map fst (filter f l)).
Proof.
  induction l as [|kv l IH]; intros H; [constructor|].
  cbn [map] in H. apply StronglySorted_inv in H. destruct H as [H Ha].
  cbn [filter]. destruct (f kv); [|now apply IH].
  cbn [map]. constructor; [now apply IH|].
  rewrite Forall_forall in *. intros y Hy. apply Ha.
  apply in_map_iff in Hy. destruct Hy as (p & <- & Hp).
  apply filter_In in Hp. apply in_map. tauto.
Qed.

Lemma slice_sorted h lo hi :
  StronglySorted Z.lt (addresses h) ->
  StronglySorted Z.lt (addresses (slice h lo hi)).
Proof.
  unfold addresses. destruct (slice_buf h lo hi) as [f ->]. apply sorted_filter.
Qed.

(** The addresses of a slice with a positive end lie in its window. *)
Lemma slice_address_window h lo hi x :
  Forall (fun a => 0 <= a) (addresses h) -> 0 < hi ->
  In x (addresses (slice h lo hi)) -> lo <= x < hi.
Proof.
  intros Hnn Hhi Hin.
  assert (Hx : 0 <= x).
  { rewrite Forall_forall in Hnn. apply Hnn. exact (slice_address_in _ _ _ _ Hin). }
  unfold slice in Hin.
  destruct (minaddr h) as [mn|]; [|contradiction].
  destruct (maxaddr h) as [mx|]; [|contradiction].
  unfold addresses in Hin. cbn [_buf] in Hin.
  apply in_map_iff in Hin. destruct Hin as (kv & <- & Hkv).
  apply filter_In in Hkv. destruct Hkv as [_ Hwin].
  unfold window in Hwin. apply andb_true_iff in Hwin. destruct Hwin as [H1 H2].
  apply Z.leb_le in H1. apply Z.ltb_lt in H2.
  replace (hi =? 0) with false in H2 by (symmetry; apply Z.eqb_neq; lia).
  destruct (lo =? 0) eqn:E; [apply Z.eqb_eq in E|]; lia.
Qed.

Lemma fold_min_in l : forall a, In (fold_left Z.min l a) (a :: l).
Proof.
  induction l as [|y l IH]; intros a; cbn [fold_left]; [now left|].
  destruct (IH (Z.min a y)) as [H|H]; [|right; now right].
  rewrite <- H.
  destruct (Z.min_spec a y) as [[_ ->]|[_ ->]]; [now left | right; now left].
Qed.

Lemma minaddr_in h lo : minaddr h = Some lo -> In lo (addresses h).
Proof.
  unfold minaddr. destruct (addresses h) as [|a l]; [discriminate|].
  intros [= <-]. apply fold_min_in.
Qed.

(** The chunks of a segment, in the order [_chunk] yields them, hold
    ascending addresses. *)
Lemma chunks_of_ascending size seg :
  Forall (fun a => 0 <= a) (addresses seg) ->
  StronglySorted entirely_before (chunks_of size seg).
Proof.
  intros Hnn. unfold chunks_of, _chunk.
  destruct (minaddr seg) as [start|] eqn:Emin; [|constructor].
  destruct (maxaddr seg) as [stop|] eqn:Emax; [|constructor].
  unfold range3. destruct (size =? 0) eqn:Ez; [constructor|].
  apply Z.eqb_neq in Ez.
  pose proof (minaddr_le_maxaddr _ _ _ Emin Emax) as Hle.
  assert (Hstart : 0 <= start).
  { rewrite Forall_forall in Hnn. apply Hnn. now apply minaddr_in. }
  unfold range_elements. cbn [range_start range_step]. rewrite map_map.
  destruct (Z.ltb_spec 0 size) as [Hpos|Hneg].
  - eapply StronglySorted_map_in; [apply seq_ascending|].
    intros k k' _ _ Hk x y Hx Hy.
    apply slice_address_window in Hx; [|exact Hnn|nia].
    apply slice_address_window in Hy; [|exact Hnn|nia].
    nia.
  - unfold range_len.
    replace (0 <? size) with false by (symmetry; apply Z.ltb_ge; lia).
    replace (stop <? start) with false by (symmetry; apply Z.ltb_ge; lia).
    constructor.
Qed.

Lemma chunks_of_address size seg chunk x :
  In chunk (chunks_of size seg) -> In x (addresses chunk) ->
  In x (addresses seg).
Proof.
  unfold chunks_of, _chunk.
  destruct (minaddr seg) as [start|]; [|contradiction].
  destruct (maxaddr seg) as [stop|]; [|contradiction].
  destruct (range3 start stop size) as [r|e]; [|contradiction].
  intros Hc Hx. apply in_map_iff in Hc. destruct Hc as (i & <- & _).
  exact (slice_address_in _ _ _ _ Hx).
Qed.

(** The segments [flash] takes from a sorted image, in the order of its
    list, hold ascending addresses. *)
Lemma segments_of_ascending hexdata :
  StronglySorted Z.lt (addresses hexdata) ->
  Forall (fun a => 0 <= a) (addresses hexdata) ->
  StronglySorted entirely_before
    (map (fun ul => slice hexdata (fst ul) (snd ul)) (segments hexdata)).
Proof.
  intros Hs Hnn. unfold segments.
  destruct (addresses hexdata) as [|a rest] eqn:Ea; [constructor|].
  assert (Ha : 0 <= a) by (now apply Forall_inv in Hnn).
  destruct (runs_ascending rest a a ltac:(lia) Hs) as [HF HS].
  rewrite <- Ea in Hnn.
  eapply StronglySorted_map_in; [exact HS|].
  intros p q Hp Hq Hpq x y Hx Hy.
  rewrite Forall_forall in HF.
  pose proof (HF p Hp) as Hbp. pose proof (HF q Hq) as Hbq.
  apply slice_address_window in Hx; [|exact Hnn|lia].
  apply slice_address_window in Hy; [|exact Hnn|lia].
  cbn beta in Hpq. lia.
Qed.

(** All the chunks of [flash], in the order in which they are handled. *)
Lemma flash_chunks_ascending self image size segs :
  flash_scope self image = Return segs ->
  StronglySorted Z.lt (addresses image) ->
  Forall (fun a => 0 <= a) (addresses image) ->
  StronglySorted entirely_before (flat_map (chunks_of size) segs).
Proof.
  intros Hscope Hs Hnn. unfold flash_scope in Hscope.
  destruct (range_first (_memory_range self)) as [first|]; [|discriminate].
  destruct (range_last (_memory_range self)) as [last|]; [|discriminate].
  cbv zeta in Hscope. injection Hscope as <-.
  set (hexdata := slice image (2 * first) (2 * last)).
  assert (Hs' : StronglySorted Z.lt (addresses hexdata)) by now apply slice_sorted.
  assert (Hnn' : Forall (fun a => 0 <= a) (addresses hexdata))
    by now apply slice_nonneg.
  apply (StronglySorted_flat_map entirely_before).
  - now apply segments_of_ascending.
  - intros seg Hseg. apply chunks_of_ascending.
    apply in_map_iff in Hseg. destruct Hseg as (ul & <- & _).
    now apply slice_nonneg.
  - intros seg seg' c c' Hss Hc Hc' x y Hx Hy. apply Hss.
    + exact (chunks_of_address _ _ _ _ Hc Hx).
    + exact (chunks_of_address _ _ _ _ Hc' Hy).
Qed.

End Ascending.

Section FlashOrder.

(** C8, amended.  Once [flash] has its segments and the erase step has
    returned:

    - some number [k] of chunks, counted through the segments in the order
      of the list and within a segment in the order [_chunk] yields them,
      has been handled completely, each by its [WRITE_FLASH] exchange, then
      its [CALC_CHECKSUM] exchange, then the progress callback with the
      advanced counter; what follows is an initial part of the write and
      the checksum request of the next chunk or, after the last chunk, of
      the final [SELF_VERIFY]; when [flash] returns, every chunk has been
      handled and [SELF_VERIFY] made; when [flash] fails with the checksum
      error, the trace ends with the write and the checksum request of the
      chunk, and no callback for it;

    - in a pass of the loop the callback is invoked exactly when a callback
      was given, the write returned and, after it, the checksum the device
      reports is the one the host computes; it is then invoked with the
      advanced counter and the total;

    - for an image listed by ascending, non-negative addresses, the chunks
      in the order in which they are handled hold ascending addresses:
      every address of a chunk lies below every address of a later one. *)
Theorem flash_event_order
    (self : Bootloader) (image : IntelHex) (cb : bool) (w w1 : World)
    (seg : IntelHex) (segs : list IntelHex)
    (Hscope : flash_scope self image = Return (seg :: segs))
    (Herase : erase_flash self (Some (_memory_range self)) false true w =
              (Return tt, w1))
    (Hws : _write_size self <> 0) :
  let run := flash self image cb w in
  let total := total_len (seg :: segs) in
  let chunks := flat_map (chunks_of (chunk_size_of self)) (seg :: segs) in
  (exists k rest,
     (k <= List.length chunks)%nat /\
     trace (snd run) =
       trace w1 ++ chunks_events self cb total 0 (firstn k chunks) ++ rest /\
     prefix_of rest
       (match nth_error chunks k with
        | Some chunk =>
            write_events (_write_size self) chunk ++ checksum_events chunk
        | None => tx_event (Command SELF_VERIFY 0 0 0) []
        end) /\
     (fst run = Return tt ->
      k = List.length chunks /\ rest = tx_event (Command SELF_VERIFY 0 0 0) []) /\
     (fst run = Raise checksum_mismatch ->
      exists chunk,
        nth_error chunks k = Some chunk /\
        rest = write_events (_write_size self) chunk ++ checksum_events chunk)) /\
  (forall total written chunk w0 evs,
     trace (snd (flash_chunk self cb total written chunk w0)) = trace w0 ++ evs ->
     ((exists x y, In (Callback x y) evs) <->
      (cb = true /\
       In (Callback (written + ih_len chunk) total) evs /\
       exists wr, _write_flash chunk (_write_size self) w0 = (Return tt, wr) /\
                  checksums_agree chunk wr))) /\
  (StronglySorted Z.lt (addresses image) ->
   Forall (fun a => 0 <= a) (addresses image) ->
   StronglySorted entirely_before chunks).
Proof.
  cbv zeta. split; [|split].
  2:{ intros total written chunk w0 evs. apply flash_chunk_callback. }
  2:{ intros Hs Hnn. exact (flash_chunks_ascending _ _ _ _ Hscope Hs Hnn). }
  assert (Hflash :
            flash self image cb w =
            (flash_segments self cb (chunk_size_of self) (total_len (seg :: segs))
                            0 (seg :: segs) ;; _self_verify) w1).
  { unfold flash. unfold bind at 1. unfold lift. rewrite Hscope.
    unfold bind at 1. rewrite Herase.
    unfold bind at 1. unfold pymod, lift.
    apply Z.eqb_neq in Hws. rewrite Hws. reflexivity. }
  rewrite Hflash. unfold bind.
  destruct (flash_segments_steps self cb (chunk_size_of self)
              (total_len (seg :: segs)) (seg :: segs) 0 w1)
    as (k & rest & Hk & Ht & Hret & Hraise).
  cbv zeta in Hret, Hraise.
  destruct (flash_segments self cb (chunk_size_of self) (total_len (seg :: segs)) 0
              (seg :: segs) w1) as [[n|e] w2]; cbn [fst snd] in *.
  - destruct (Hret n eq_refl) as [-> ->].
    exists (List.length (flat_map (chunks_of (chunk_size_of self)) (seg :: segs))),
      (tx_event (Command SELF_VERIFY 0 0 0) []).
    assert (Hnone : nth_error (flat_map (chunks_of (chunk_size_of self)) (seg :: segs))
                      (List.length
                         (flat_map (chunks_of (chunk_size_of self)) (seg :: segs)))
                    = None) by (apply nth_error_None; lia).
    rewrite Hnone. rewrite app_nil_r in Ht.
    unfold _self_verify, bind.
    pose proof (send_and_receive_frame (Command SELF_VERIFY 0 0 0) [] w2) as Hf.
    pose proof (send_and_receive_not_mismatch (Command SELF_VERIFY 0 0 0) [] w2)
      as Hnm.
    destruct (_send_and_receive (Command SELF_VERIFY 0 0 0) [] w2) as [[r|e] w3];
      cbn [fst snd ret] in *;
      (split; [lia|]);
      (split; [rewrite (proj1 Hf), Ht, <- app_assoc; reflexivity|]);
      (split; [apply prefix_of_refl|]);
      (split; [intros _; now split|]);
      intros Hm; [discriminate Hm | congruence].
  - destruct (Hraise e eq_refl) as [Hp Hm].
    exists k, rest. split; [exact Hk|]. split; [exact Ht|].
    split.
    + destruct (nth_error (flat_map (chunks_of (chunk_size_of self)) (seg :: segs)) k);
        [exact Hp|].
      destruct Hp as [tl Htl]. symmetry in Htl. apply app_eq_nil in Htl.
      destruct Htl as [-> _]. apply prefix_of_nil.
    + split; [intros Hn; discriminate Hn|].
      intros [= ->]. now apply Hm.
Qed.

(** A device with room for eight bytes of data in a packet: the twenty
    bytes of the image go out in three chunks. *)
Lemma flash_event_order_witness :
  let self := mkBootloader 19 1024 8 (range2 0x1000 0x2000) in
  let chunks := chunks_of 8 image20 in
  let w := port (respond SELF_VERIFY VERIFY_FAIL ::
                 accepting_device chunks ++ [respond SELF_VERIFY SUCCESS]) in
  let run := flash self image20 true w in
  map addresses chunks =
    [[0x2000; 0x2001; 0x2002; 0x2003; 0x2004; 0x2005; 0x2006; 0x2007];
     [0x2008; 0x2009; 0x200A; 0x200B; 0x200C; 0x200D; 0x200E; 0x200F];
     [0x2010; 0x2011; 0x2012; 0x2013]] /\
  trace (snd run) =
    tx_event (Command SELF_VERIFY 0 0 0) [] ++
    chunks_events self true 20 0 chunks ++
    tx_event (Command SELF_VERIFY 0 0 0) [] /\
  StronglySorted entirely_before chunks.
Proof.
  cbv zeta.
  set (self := mkBootloader 19 1024 8 (range2 0x1000 0x2000)).
  set (w := port (respond SELF_VERIFY VERIFY_FAIL ::
                  accepting_device (chunks_of 8 image20) ++
                  [respond SELF_VERIFY SUCCESS])).
  destruct (flash_event_order self image20 true w
              (snd (erase_flash self (Some (_memory_range self)) false true w))
              image20 [])
    as ((k & rest & _ & Ht & _ & Hr & _) & _ & Hasc).
  - vm_compute. reflexivity.
  - vm_compute. reflexivity.
  - cbn. discriminate.
  - split; [vm_compute; reflexivity|]. split.
    + destruct (Hr ltac:(vm_compute; reflexivity)) as [-> ->].
      rewrite Ht. vm_compute. reflexivity.
    + assert (Hc : flat_map (chunks_of (chunk_size_of self)) [image20] =
                   chunks_of 8 image20) by (vm_compute; reflexivity).
      rewrite <- Hc. apply Hasc.
      * vm_compute. repeat constructor.
      * vm_compute. repeat constructor; discriminate.
Defined.

End FlashOrder.

(** ** Instances of the properties of chunks and segments *)

Lemma chunks_cover_off_boundary_witness :
  exists chunks,
    _chunk (segment_at 0x2000 (repeat 1 20)) 8 = Return chunks /\
    List.concat (map tobinstr chunks) = repeat 1 20.
Proof.
  apply (chunks_cover_off_boundary 0x2000 (repeat 1 20) 8).
  - lia.
  - lia.
  - discriminate.
  - vm_compute. discriminate.
Defined.

Lemma chunks_drop_last_on_boundary_witness :
  exists chunks,
    _chunk (segment_at 0x2000 (repeat 1 17)) 8 = Return chunks /\
    List.concat (map tobinstr chunks) = repeat 1 16.
Proof.
  apply (chunks_drop_last_on_boundary 0x2000 (repeat 1 17) 8).
  - lia.
  - lia.
  - discriminate.
  - vm_compute. reflexivity.
Defined.

Lemma flash_scope_empty_iff_witness :
  flash_scope scenario_device image_last_word = Return [] <->
  (forall k, In k (addresses image_last_word) ->
             ~ (2 * 0x1000 <= k < 2 * 0x2000 - 2)).
Proof.
  apply (flash_scope_empty_iff scenario_device image_last_word 0x1000 0x2000).
  - reflexivity.
  - repeat constructor; discriminate.
  - lia.
  - lia.
  - lia.
Defined.

Lemma segments_ascending_witness :
  let h := mkIntelHex [(0, 1); (1, 2); (5, 3); (6, 4); (9, 5)] 0xFF in
  Forall (fun p => fst p < snd p) (segments h) /\
  StronglySorted (fun p q => snd p <= fst q) (segments h).
Proof.
  cbv zeta.
  apply (segments_ascending (mkIntelHex [(0, 1); (1, 2); (5, 3); (6, 4); (9, 5)] 0xFF)).
  cbn. repeat constructor.
Defined.
